(** * Potion: template rendering, filters, reconciliation and reactivity

    A shallow embedding of [src/dist/main.js] (the Potion runtime bundled in
    Honey): the filter registry, the delimiter tokenizer and its cache, the
    substitution engine with its context table, the event-argument parser,
    the DOM reconciler and the reactive proxy; then the entry point
    [Potion], the lookup of local contexts, the binder of references and
    event directives, and the utilities [escapeRegex], [slugify] and
    [get_res_id].

    Conventions of the embedding.
    - A JS string is a [string]: a sequence of 8-bit code units.
    - A JS number is an integer [Z] inside the range where doubles are exact;
      fractional and infinite numbers are not represented.
    - Data handed to the renderer is JSON-like: undefined, null, booleans,
      numbers, strings, arrays and plain objects.  A plain object is the list
      of its own enumerable properties in enumeration order, none of them
      named [__proto__]; what it inherits from [Object.prototype] is written
      out where the source reaches it.
    - Filter functions are pure: they read their arguments only.
    - What the source writes to the console is left out.
    - The HTML parser of the browser is not modelled: [updateDOM] is given
      the node the parser returns.
    - The loops of the source that are not structural take fuel; the
      theorems show that the fuel they are given is never used up. *)

From Stdlib Require Import ZArith Ascii String List Lia.
From stdpp Require Import base decidable option list strings pretty sorting gmap.

Set Warnings "-register-all".

(** ** JavaScript values *)
Module JS.

(** What a call can raise. *)
Inductive error :=
| TypeError
| UserError (message : string).

(** The result of a call that may throw. *)
Inductive outcome (A : Type) :=
| Returns (a : A)
| Throws (e : error).
Arguments Returns {A} a.
Arguments Throws {A} e.

Definition outcome_bind {A B} (o : outcome A) (k : A -> outcome B) : outcome B :=
  match o with
  | Returns a => k a
  | Throws e => Throws e
  end.

Inductive value :=
| VUndefined
| VNull
| VBool (b : bool)
| VNum (n : Z)
| VStr (s : string)
| VArr (items : list value)
| VObj (props : list (string * value)).

(** [typeof v], as the strings the source compares against. *)
Definition typeof (v : value) : string :=
  match v with
  | VUndefined => "undefined"
  | VNull => "object"
  | VBool _ => "boolean"
  | VNum _ => "number"
  | VStr _ => "string"
  | VArr _ => "object"
  | VObj _ => "object"
  end.

(** Truthiness, as [||] and [?:] test it. *)
Definition truthy (v : value) : bool :=
  match v with
  | VUndefined => false
  | VNull => false
  | VBool b => b
  | VNum n => negb (Z.eqb n 0)
  | VStr s => negb (String.eqb s "")
  | VArr _ => true
  | VObj _ => true
  end.

(** The members every plain object inherits from [Object.prototype]. *)
Definition object_prototype_members : list string :=
  [ "constructor"; "hasOwnProperty"; "isPrototypeOf"; "propertyIsEnumerable";
    "toLocaleString"; "toString"; "valueOf"; "__proto__";
    "__defineGetter__"; "__defineSetter__"; "__lookupGetter__"; "__lookupSetter__" ].

Definition is_object_prototype_member (name : string) : bool :=
  bool_decide (name ∈ object_prototype_members).

(** Own property lookup in a property list: the first entry of that name. *)
Fixpoint assoc {A} (key : string) (props : list (string * A)) : option A :=
  match props with
  | [] => None
  | (k, v) :: rest => if String.eqb k key then Some v else assoc key rest
  end.

Definition has_key {A} (key : string) (props : list (string * A)) : bool :=
  match assoc key props with Some _ => true | None => false end.

(** [obj[key] = v] on own properties: overwrite in place, else append. *)
Fixpoint assoc_set {A} (key : string) (v : A) (props : list (string * A)) : list (string * A) :=
  match props with
  | [] => [(key, v)]
  | (k, w) :: rest =>
      if String.eqb k key then (k, v) :: rest else (k, w) :: assoc_set key v rest
  end.

(** Decimal digits of a canonical array index. *)
Fixpoint parse_digits (acc : N) (s : string) : option N :=
  match s with
  | EmptyString => Some acc
  | String c rest =>
      match Ascii.is_nat c with
      | Some d => parse_digits (acc * 10 + N.of_nat d)%N rest
      | None => None
      end
  end.

(** A property key that is a canonical array index ("0", "1", "12", never
    "01" or ""). *)
Definition array_index (key : string) : option nat :=
  match key with
  | EmptyString => None
  | _ =>
      match parse_digits 0 key with
      | Some n => if bool_decide (pretty n = key) then Some (N.to_nat n) else None
      | None => None
      end
  end.

Definition index_keys (len : nat) : list string :=
  (fun i : nat => pretty i) <$> seq 0 len.

Fixpoint string_chars (s : string) : list string :=
  match s with
  | EmptyString => []
  | String c rest => String c EmptyString :: string_chars rest
  end.

(** [Object.prototype.hasOwnProperty.call(v, key)].  Null and undefined
    cannot be converted to an object; numbers and booleans have no own
    property; strings and arrays own their indices and [length]. *)
Definition hasOwnProperty_call (v : value) (key : string) : outcome bool :=
  match v with
  | VUndefined => Throws TypeError
  | VNull => Throws TypeError
  | VBool _ => Returns false
  | VNum _ => Returns false
  | VStr s =>
      Returns (String.eqb key "length" ||
               match array_index key with
               | Some i => bool_decide (i < String.length s)
               | None => false
               end)
  | VArr items =>
      Returns (String.eqb key "length" ||
               match array_index key with
               | Some i => bool_decide (i < length items)
               | None => false
               end)
  | VObj props => Returns (has_key key props)
  end.

(** [v[key]] for a key that is an own property of [v]. *)
Definition get_own (v : value) (key : string) : value :=
  match v with
  | VStr s =>
      if String.eqb key "length" then VNum (Z.of_nat (String.length s))
      else match array_index key with
           | Some i => match string_chars s !! i with Some c => VStr c | None => VUndefined end
           | None => VUndefined
           end
  | VArr items =>
      if String.eqb key "length" then VNum (Z.of_nat (length items))
      else match array_index key with
           | Some i => match items !! i with Some x => x | None => VUndefined end
           | None => VUndefined
           end
  | VObj props => match assoc key props with Some x => x | None => VUndefined end
  | _ => VUndefined
  end.

(** The own enumerable string keys, in the order [for (key in v)] and
    [Object.assign] visit them. *)
Definition own_enumerable_keys (v : value) : list string :=
  match v with
  | VStr s => index_keys (String.length s)
  | VArr items => index_keys (length items)
  | VObj props => fst <$> props
  | _ => []
  end.

(** [Object.assign(target, source)] on the property list of a plain target. *)
Definition object_assign (target : list (string * value)) (source : value) : list (string * value) :=
  fold_left (fun acc key => assoc_set key (get_own source key) acc)
            (own_enumerable_keys source) target.

Fixpoint join (sep : string) (parts : list string) : string :=
  match parts with
  | [] => ""
  | [p] => p
  | p :: rest => p +:+ sep +:+ join sep rest
  end.

(** The string a value contributes to [output += v].  A plain object prints
    as [[object Object]] through the inherited [toString]; a JSON-like object
    that owns a [toString] property shadows it with something that is not
    callable, and the conversion throws.  An array joins its elements with
    commas, null and undefined elements printing as nothing. *)
Fixpoint to_string (v : value) : outcome string :=
  match v with
  | VUndefined => Returns "undefined"
  | VNull => Returns "null"
  | VBool b => Returns (if b then "true" else "false")
  | VNum n => Returns (pretty n)
  | VStr s => Returns s
  | VArr items =>
      outcome_bind
        ((fix elements (l : list value) : outcome (list string) :=
            match l with
            | [] => Returns []
            | x :: rest =>
                outcome_bind
                  (match x with
                   | VUndefined => Returns ""
                   | VNull => Returns ""
                   | _ => to_string x
                   end)
                  (fun s => outcome_bind (elements rest) (fun ss => Returns (s :: ss)))
            end) items)
        (fun ss => Returns (join "," ss))
  | VObj props =>
      if has_key "toString" props then Throws TypeError
      else Returns "[object Object]"
  end.

(** ** Character classes and string helpers *)

(** [\s] and what [trim] strips, among 8-bit code units. *)
Definition is_space (c : ascii) : bool :=
  match c with
  | "009" | "010" | "011" | "012" | "013" | " " | "160" => true
  | _ => false
  end%char.

Definition in_range (lo hi : nat) (c : ascii) : bool :=
  (lo <=? nat_of_ascii c) && (nat_of_ascii c <=? hi).

Definition is_digit (c : ascii) : bool := in_range 48 57 c.
Definition is_alpha (c : ascii) : bool := in_range 97 122 c || in_range 65 90 c.

Fixpoint skip_spaces (s : string) : string :=
  match s with
  | EmptyString => EmptyString
  | String c rest => if is_space c then skip_spaces rest else s
  end.

(** The longest prefix made of characters in the class, and the rest. *)
Fixpoint span (p : ascii -> bool) (s : string) : string * string :=
  match s with
  | EmptyString => (EmptyString, EmptyString)
  | String c rest =>
      if p c then let '(taken, remaining) := span p rest in (String c taken, remaining)
      else (EmptyString, s)
  end.

(** [s.trim()] *)
Definition trim (s : string) : string :=
  String.rev (skip_spaces (String.rev (skip_spaces s))).

(** [s.split(sep)] for a one-character separator. *)
Fixpoint split_on (sep : ascii) (s : string) : list string :=
  match s with
  | EmptyString => [EmptyString]
  | String c rest =>
      if Ascii.eqb c sep then EmptyString :: split_on sep rest
      else match split_on sep rest with
           | [] => [String c EmptyString]
           | first :: others => String c first :: others
           end
  end.

Definition dquote : string := String "034"%char EmptyString.

End JS.

(** ** The filter registry ([addFilter], [applyFilter], the [token] filter) *)
Module Filters.
Import JS.

(** A JS function: its identity and what a call computes.  A filter is
    called as [fn(payload, ...args)]. *)
Record jsfun := JsFun {
  fun_id : nat;
  fun_call : value -> list value -> outcome value
}.

(** One entry of a chain: the pair [[fn, priority]] the source pushes. *)
Definition FilterEntry : Type := jsfun * Z.

(** [filters]: a plain object from filter names to chains. *)
Definition registry : Type := list (string * list FilterEntry).

(** [filters[name] || []] for a name that is not inherited. *)
Definition chain_of (filters : registry) (name : string) : list FilterEntry :=
  match assoc name filters with
  | Some chain => chain
  | None => []
  end.

(** Where [Array.prototype.sort] puts a new last element when the
    comparator is [(a, b) => a[1] - b[1]]: after every entry that does not
    compare greater (the sort is stable). *)
Fixpoint insert_by_priority (e : FilterEntry) (chain : list FilterEntry) : list FilterEntry :=
  match chain with
  | [] => [e]
  | x :: rest =>
      if (0 <? x.2 - e.2)%Z then e :: x :: rest
      else x :: insert_by_priority e rest
  end.

(** [chain.sort((a, b) => a[1] - b[1])]: a stable insertion sort. *)
Definition sort_by_priority (chain : list FilterEntry) : list FilterEntry :=
  fold_left (fun sorted e => insert_by_priority e sorted) chain [].

(** [addFilter(name, fn, priority)].  The argument check of the source
    cannot fail here: [name] is a string and [fn] a function by their types.
    A name that [filters] inherits from [Object.prototype] finds a function
    where the chain should be, and [push] on it throws; the registry is then
    left as it was. *)
Definition addFilter (name : string) (fn : jsfun) (priority : Z) (filters : registry)
  : outcome registry :=
  if is_object_prototype_member name then Throws TypeError
  else Returns (assoc_set name (sort_by_priority (chain_of filters name ++ [(fn, priority)])) filters).

(** [priority = 0] when the argument is left out. *)
Definition addFilter_default (name : string) (fn : jsfun) (filters : registry) : outcome registry :=
  addFilter name fn 0%Z filters.

(** The [reduce] of [applyFilter] over a chain: the functions called, in
    call order, and the result.  A step that returns undefined leaves the
    empty string; a step that throws ends the fold. *)
Fixpoint reduce_chain (chain : list FilterEntry) (result : value) (args : list value)
  : list nat * outcome value :=
  match chain with
  | [] => ([], Returns result)
  | (fn, _) :: rest =>
      match fun_call fn result args with
      | Returns substituted =>
          let next := match substituted with VUndefined => VStr "" | _ => substituted end in
          let '(calls, final) := reduce_chain rest next args in
          (fun_id fn :: calls, final)
      | Throws e => ([fun_id fn], Throws e)
      end
  end.

(** [applyFilter(name, payload, ...args)] with the calls it makes. *)
Definition applyFilter_calls (filters : registry) (name : string) (payload : value)
    (args : list value) : list nat * outcome value :=
  if is_object_prototype_member name then ([], Throws TypeError)
  else reduce_chain (chain_of filters name) payload args.

Definition applyFilter (filters : registry) (name : string) (payload : value)
    (args : list value) : outcome value :=
  (applyFilter_calls filters name payload args).2.

(** The loop of the default [token] filter over the path segments. *)
Fixpoint token_lookup (path : list string) (dataLookup : value) : outcome value :=
  match path with
  | [] => Returns dataLookup
  | segment :: rest =>
      outcome_bind (hasOwnProperty_call dataLookup segment) (fun own =>
        if own then token_lookup rest (get_own dataLookup segment)
        else Returns (VStr ""))
  end.

(** [(token, data, tag) => ...]: the default [token] filter.  [token.split]
    exists only on a string. *)
Definition token_filter (token : value) (args : list value) : outcome value :=
  match token with
  | VStr t =>
      token_lookup (split_on "."%char t)
                   (match args with data :: _ => data | [] => VUndefined end)
  | _ => Throws TypeError
  end.

Definition token_fn : jsfun := JsFun 0 token_filter.

(** The value a path leads to when every segment is an own key of the value
    reached before it. *)
Fixpoint descend (path : list string) (v : value) : option value :=
  match path with
  | [] => Some v
  | segment :: rest =>
      match hasOwnProperty_call v segment with
      | Returns true => descend rest (get_own v segment)
      | _ => None
      end
  end.

(** Values with no null and no undefined anywhere inside. *)
Fixpoint defined_throughout (v : value) : bool :=
  match v with
  | VUndefined => false
  | VNull => false
  | VArr items => forallb defined_throughout items
  | VObj props => forallb (fun p => defined_throughout p.2) props
  | _ => true
  end.

(** The registry once the module has loaded: [addFilter("token", ...)]. *)
Definition default_filters : registry :=
  match addFilter_default "token" token_fn [] with
  | Returns filters => filters
  | Throws _ => []
  end.

(** A run of registrations; one that throws registers nothing. *)
Definition register_all (regs : list (string * FilterEntry)) (filters : registry) : registry :=
  fold_left (fun acc reg =>
               match addFilter reg.1 reg.2.1 reg.2.2 acc with
               | Returns acc' => acc'
               | Throws _ => acc
               end) regs filters.

(** A filter that appends a mark to a string payload, and three of them
    registered under one name at priorities 5, 1 and 3, in that order. *)
Definition mark_fn (id : nat) (mark : string) : jsfun :=
  JsFun id (fun payload _ =>
              match payload with
              | VStr s => Returns (VStr (s +:+ mark))
              | _ => Returns payload
              end).

Definition registrations_5_1_3 : list (string * FilterEntry) :=
  [ ("content", (mark_fn 5 "e", 5%Z));
    ("content", (mark_fn 1 "a", 1%Z));
    ("content", (mark_fn 3 "c", 3%Z)) ].

(** Ascending priority. *)
Definition by_priority (a b : FilterEntry) : Prop := (a.2 <= b.2)%Z.

(** The registrations made under one name, in registration order. *)
Definition registered_under (name : string) (regs : list (string * FilterEntry)) : list FilterEntry :=
  snd <$> filter (fun reg => reg.1 = name) regs.

End Filters.


(** ** The tokenizer, its cache and the substitution engine *)
Module Parser.
Import JS Filters.

(** A segment of a template: [{type: "static", value}] or
    [{type: "token", flag, value}]. *)
Inductive token :=
| Static (value : string)
| Token (flag : string) (value : string).

(** The delimiters of [defaultSettings].  The module-level [settings] is a
    copy of [defaultSettings] that nothing writes, and every call of
    [substitute] receives it. *)
Definition settings_start : string := "[".
Definition settings_end : string := "]".

(** [settings.path], [[a-z0-9_$][\.a-z0-9_]*], under the [i] flag. *)
Definition is_name_start (c : ascii) : bool :=
  is_alpha c || is_digit c || Ascii.eqb c "_" || Ascii.eqb c "$".

Definition is_name_char (c : ascii) : bool :=
  Ascii.eqb c "." || is_alpha c || is_digit c || Ascii.eqb c "_".

(** The pattern of [tokenizeTemplate] matched at the head of [s]:
    [\[ \s* ([!/]?) \s* (name) \s* \]].  The classes that follow one another
    are disjoint, so the greedy match is the only one.  Gives the flag, the
    name and the text after the match. *)
Definition match_token (s : string) : option (string * string * string) :=
  match s with
  | String "[" s1 =>
      let s2 := skip_spaces s1 in
      let '(flag, s3) :=
        match s2 with
        | String c r =>
            if Ascii.eqb c "!" || Ascii.eqb c "/" then (String c EmptyString, r)
            else (EmptyString, s2)
        | EmptyString => (EmptyString, s2)
        end in
      match skip_spaces s3 with
      | String c r =>
          if is_name_start c then
            let '(more, s5) := span is_name_char r in
            match skip_spaces s5 with
            | String "]" rest => Some (flag, String c more, rest)
            | _ => None
            end
          else None
      | EmptyString => None
      end
  | _ => None
  end.

(** [pattern.exec(template)] from [lastIndex] on, [s] being the text from
    [lastIndex]: the leftmost match, with the text before it. *)
Fixpoint exec (s : string) : option (string * string * string * string) :=
  match match_token s with
  | Some (flag, name, rest) => Some (EmptyString, flag, name, rest)
  | None =>
      match s with
      | EmptyString => None
      | String c s' =>
          match exec s' with
          | Some (before, flag, name, rest) => Some (String c before, flag, name, rest)
          | None => None
          end
      end
  end.

(** The [while] loop of [tokenizeTemplate] and the push of the remaining
    text, on the text from [lastIndex].  Every match consumes characters, so
    [fuel] above the length of the text is never used up. *)
Fixpoint tokenize_loop (fuel : nat) (s : string) : list token :=
  match fuel with
  | 0 => []
  | S fuel' =>
      match exec s with
      | Some (before, flag, name, rest) =>
          (match before with EmptyString => [] | _ => [Static before] end)
            ++ Token flag name :: tokenize_loop fuel' rest
      | None =>
          match s with EmptyString => [] | _ => [Static s] end
      end
  end.

Definition tokenizeTemplate (template : string) : list token :=
  tokenize_loop (S (String.length template)) template.

(** The module-level state: [uniqueCounter], [localContexts] (a Map, in
    insertion order) and [tokenCache]. *)
Record state := State {
  uniqueCounter : N;
  localContexts : list (string * value);
  tokenCache : gmap string (list token)
}.

Definition initial_state : state := State 0 [] ∅.

(** How a run of the engine ends.  [OutOfFuel] belongs to the embedding
    only: [substitute] never ends that way. *)
Inductive result (A : Type) :=
| Ok (a : A)
| Thrown (e : error)
| OutOfFuel.
Arguments Ok {A} a.
Arguments Thrown {A} e.
Arguments OutOfFuel {A}.

(** Computations over the module-level state that may throw. *)
Definition M (A : Type) : Type := state -> result A * state.

Definition ret {A} (a : A) : M A := fun st => (Ok a, st).

Definition bind {A B} (m : M A) (k : A -> M B) : M B := fun st =>
  match m st with
  | (Ok a, st') => k a st'
  | (Thrown e, st') => (Thrown e, st')
  | (OutOfFuel, st') => (OutOfFuel, st')
  end.

Definition lift {A} (o : outcome A) : M A := fun st =>
  match o with
  | Returns a => (Ok a, st)
  | Throws e => (Thrown e, st)
  end.

Definition out_of_fuel {A} : M A := fun st => (OutOfFuel, st).

Notation "'let*' x := m 'in' k" := (bind m (fun x => k))
  (at level 10, x name, m at level 100, k at level 200).

(** [getTokens(template, settings)] *)
Definition getTokens (template : string) : M (list token) := fun st =>
  match tokenCache st !! template with
  | Some tokens => (Ok tokens, st)
  | None =>
      let tokens := tokenizeTemplate template in
      (Ok tokens,
       State (uniqueCounter st) (localContexts st) (<[template := tokens]> (tokenCache st)))
  end.

(** ["potion_" + uniqueCounter++] *)
Definition potion_id (n : N) : string := "potion_" +:+ pretty n.

Definition next_unique_id : M string := fun st =>
  (Ok (potion_id (uniqueCounter st)),
   State (uniqueCounter st + 1) (localContexts st) (tokenCache st)).

(** [localContexts.set(uniqueId, loopData)] *)
Definition set_local_context (uniqueId : string) (loopData : value) : M unit := fun st =>
  (Ok tt,
   State (uniqueCounter st) (assoc_set uniqueId loopData (localContexts st)) (tokenCache st)).

(** The two statements that hand out an identifier and store the context
    under it; the identifier is the result. *)
Definition register_context (loopData : value) : M string :=
  let* uniqueId := next_unique_id in
  let* _ := set_local_context uniqueId loopData in
  ret uniqueId.

(** The inner [while] of [substitute]: the tokens up to the first closing
    token of that name, and the tokens after it when there is one. *)
Fixpoint find_closing (name : string) (tokens : list token) : list token * option (list token) :=
  match tokens with
  | [] => ([], None)
  | nextSegment :: rest =>
      let closes :=
        match nextSegment with
        | Token flag value => String.eqb flag "/" && String.eqb value name
        | Static _ => false
        end in
      if closes then ([], Some rest)
      else let '(innerTokens, after) := find_closing name rest in
           (nextSegment :: innerTokens, after)
  end.

(** One inner token written back as template text. *)
Definition token_text (tok : token) : string :=
  match tok with
  | Static value => value
  | Token flag value => settings_start +:+ flag +:+ value +:+ settings_end
  end.

(** [innerTokens.map(...).join("")] *)
Definition inner_template (innerTokens : list token) : string :=
  fold_right (fun tok text => token_text tok +:+ text) "" innerTokens.

Definition is_tag_char (c : ascii) : bool :=
  is_alpha c || is_digit c || Ascii.eqb c "-".

(** [renderedBlock.replace(/^\s*<([a-zA-Z0-9-]+)/, `<$1 data-potion-key="${uniqueId}"`)] *)
Definition inject_key (uniqueId renderedBlock : string) : string :=
  match skip_spaces renderedBlock with
  | String "<" s =>
      match span is_tag_char s with
      | (EmptyString, _) => renderedBlock
      | (tag, rest) =>
          "<" +:+ tag +:+ " data-potion-key=" +:+ dquote +:+ uniqueId +:+ dquote +:+ rest
      end
  | _ => renderedBlock
  end.

(** [substituted.hasOwnProperty(key)] inside the [for ... in]: the method is
    looked up on the value, so an own property of that name shadows it. *)
Definition hasOwnProperty_method (v : value) (key : string) : outcome bool :=
  match v with
  | VObj props =>
      if has_key "hasOwnProperty" props then Throws TypeError
      else Returns (has_key key props)
  | _ => hasOwnProperty_call v key
  end.

(** [Object.assign({}, substituted[key], {_key: key, _value: substituted[key]})] *)
Definition loop_data (substituted : value) (key : string) : value :=
  VObj (object_assign (object_assign [] (get_own substituted key))
          (VObj [("_key", VStr key); ("_value", get_own substituted key)])).

Section Blocks.
(** The recursive call [substitute(innerTemplate, data, settings)]. *)
Variable substitute_inner : string -> value -> M string.

(** The body of the [for ... in] for one key. *)
Definition render_entry (innerTemplate : string) (substituted : value) (key : string) : M string :=
  let* own := lift (hasOwnProperty_method substituted key) in
  if own then
    let* rendered := substitute_inner innerTemplate (loop_data substituted key) in
    let* uniqueId := register_context (loop_data substituted key) in
    ret (inject_key uniqueId (trim rendered))
  else ret "".

Fixpoint render_entries (innerTemplate : string) (substituted : value) (keys : list string)
  : M string :=
  match keys with
  | [] => ret ""
  | key :: rest =>
      let* block := render_entry innerTemplate substituted key in
      let* others := render_entries innerTemplate substituted rest in
      ret (block +:+ others)
  end.

(** What a block adds to [output], by the type of the resolved value. *)
Definition render_block (innerTemplate : string) (substituted data : value) : M string :=
  if String.eqb (typeof substituted) "boolean" then
    if truthy substituted then substitute_inner innerTemplate data else ret ""
  else if String.eqb (typeof substituted) "object" then
    render_entries innerTemplate substituted (own_enumerable_keys substituted)
  else lift (to_string substituted).
End Blocks.

(** The [try { applyFilter("token", ...) } catch { substituted = "" }] *)
Definition resolve (filters : registry) (name : string) (data : value) (template : string) : value :=
  match applyFilter filters "token" (VStr name) [data; VStr template] with
  | Returns substituted => substituted
  | Throws _ => VStr ""
  end.

(** The outer [while] of [substitute] on [tokens.slice(index)].  One unit of
    [fuel] is spent per token visited and per level of nesting. *)
Fixpoint substitute_loop (fuel : nat) (filters : registry) (template : string)
    (tokens : list token) (data : value) {struct fuel} : M string :=
  match fuel with
  | 0 => out_of_fuel
  | S fuel' =>
      match tokens with
      | [] => ret ""
      | Static value :: rest =>
          let* out := substitute_loop fuel' filters template rest data in
          ret (value +:+ out)
      | Token flag value :: rest =>
          if String.eqb flag "/" then substitute_loop fuel' filters template rest data
          else
            let substituted := resolve filters value data template in
            match find_closing value rest with
            | (innerTokens, Some after) =>
                let* block :=
                  render_block
                    (fun innerTemplate inner_data =>
                       let* inner := getTokens innerTemplate in
                       substitute_loop fuel' filters innerTemplate inner inner_data)
                    (inner_template innerTokens) substituted data in
                let* out := substitute_loop fuel' filters template after data in
                ret (block +:+ out)
            | (_, None) =>
                let* text := lift (to_string substituted) in
                let* out := substitute_loop fuel' filters template rest data in
                ret (text +:+ out)
            end
      end
  end.

Definition substitute_fuel (fuel : nat) (filters : registry) (template : string)
    (data : value) : M string :=
  let* tokens := getTokens template in
  substitute_loop fuel filters template tokens data.

(** The length a token takes in a template, at least one. *)
Definition token_weight (tok : token) : nat := Nat.max 1 (String.length (token_text tok)).

Definition tokens_weight (tokens : list token) : nat :=
  fold_right (fun tok w => token_weight tok + w) 0 tokens.

(** [substitute(template, data, settings)].  The recursion goes to inner
    templates that are shorter than the template, so fuel above its length
    is enough. *)
Definition substitute (filters : registry) (template : string) (data : value) : M string :=
  substitute_fuel (S (String.length template)) filters template data.

(** The loop of [substitute] started at some index, on the tokens from there. *)
Definition substitute_from (filters : registry) (template : string) (tokens : list token)
    (data : value) : M string :=
  substitute_loop (S (tokens_weight tokens)) filters template tokens data.

(** A run of renders on the shared module state, each with the registry of
    its time; a render that throws leaves the state it reached. *)
Definition run_renders (calls : list (registry * string * value)) (st : state) : state :=
  fold_left (fun acc call => (substitute call.1.1 call.1.2 call.2 acc).2) calls st.

(** A text without its white space. *)
Fixpoint remove_spaces (s : string) : string :=
  match s with
  | EmptyString => EmptyString
  | String c rest => if is_space c then remove_spaces rest else String c (remove_spaces rest)
  end.

(** The identifiers handed out before the counter reached [n], in order. *)
Definition ids_below (n : N) : list string :=
  (fun i : nat => potion_id (N.of_nat i)) <$> seq 0 (N.to_nat n).

(** The templates and data of the examples. *)
Definition flag_template : string := "[flag]yes[/flag]".
Definition if_flag_template : string := "[if.flag]yes[/if.flag]".
Definition items_template : string := "[items]<li>[_value.name]</li>[/items]".
Definition items_data : value :=
  VObj [("items", VObj [("a", VObj [("name", VStr "X")]); ("b", VObj [("name", VStr "Y")])])].

(** Every cached token list is the tokenization of its key. *)
Definition cache_ok (st : state) : Prop :=
  forall template tokens,
    tokenCache st !! template = Some tokens -> tokens = tokenizeTemplate template.

(** The context table holds exactly the identifiers handed out so far, in
    the order they were handed out. *)
Definition ids_ok (st : state) : Prop :=
  (localContexts st).*1 = ids_below (uniqueCounter st).

(** Two runs whose states stay related by [R] end the same way, never for
    lack of fuel, in related states, and a value they return satisfies [Q]. *)
Definition related (R : state -> state -> Prop) {A} (Q : A -> Prop) (m1 m2 : M A) : Prop :=
  forall st1 st2, R st1 st2 ->
    (m1 st1).1 = (m2 st2).1
    /\ (m1 st1).1 <> OutOfFuel
    /\ R (m1 st1).2 (m2 st2).2
    /\ forall a, (m1 st1).1 = Ok a -> Q a.

(** The invariant that asks nothing. *)
Definition no_invariant (st : state) : Prop := True.

(** One state with a sound cache that satisfies [P]. *)
Definition same_state (P : state -> Prop) (st1 st2 : state) : Prop :=
  st1 = st2 /\ cache_ok st1 /\ P st1.

(** Two states with sound caches and the same identifier counter. *)
Definition same_counter (st1 st2 : state) : Prop :=
  cache_ok st1 /\ cache_ok st2 /\ uniqueCounter st1 = uniqueCounter st2.

End Parser.

(** ** Event arguments ([parseEventArgs]) *)
Module Events.
Import JS.

(** What [Number(s)] gives for a string: NaN, an integer that a double holds
    exactly, or a number this embedding does not represent (a fraction, an
    infinity, an integer past 2^53). *)
Inductive numeric :=
| NaN
| Integer (z : Z)
| Unrepresented.

Definition digit_value (base : Z) (c : ascii) : option Z :=
  let n := Z.of_nat (nat_of_ascii c) in
  let d :=
    if is_digit c then Some (n - 48)%Z
    else if in_range 97 102 c then Some (n - 87)%Z
    else if in_range 65 70 c then Some (n - 55)%Z
    else None in
  match d with
  | Some v => if (v <? base)%Z then Some v else None
  | None => None
  end.

(** The value of a non-empty run of digits in a base; nothing when a
    character is no digit of the base. *)
Fixpoint digits_value (base : Z) (acc : Z) (s : string) : option Z :=
  match s with
  | EmptyString => Some acc
  | String c rest =>
      match digit_value base c with
      | Some d => digits_value base (acc * base + d)%Z rest
      | None => None
      end
  end.

Definition exact_integer (z : Z) : numeric :=
  if (Z.abs z <=? 2 ^ 53)%Z then Integer z else Unrepresented.

(** [0x...], [0o...], [0b...]: no sign, at least one digit. *)
Definition radix_literal (t : string) : option numeric :=
  match t with
  | String "0" (String r digits) =>
      let base :=
        if Ascii.eqb r "x" || Ascii.eqb r "X" then Some 16%Z
        else if Ascii.eqb r "o" || Ascii.eqb r "O" then Some 8%Z
        else if Ascii.eqb r "b" || Ascii.eqb r "B" then Some 2%Z
        else None in
      match base with
      | Some b =>
          Some (match digits with
                | EmptyString => NaN
                | _ => match digits_value b 0 digits with
                       | Some z => exact_integer z
                       | None => NaN
                       end
                end)
      | None => None
      end
  | _ => None
  end.

(** The exponent part: nothing left, or [e], an optional sign and digits. *)
Definition exponent_part (s : string) : option Z :=
  match s with
  | EmptyString => Some 0%Z
  | String e rest =>
      if Ascii.eqb e "e" || Ascii.eqb e "E" then
        let '(negative, digits) :=
          match rest with
          | String "-" d => (true, d)
          | String "+" d => (false, d)
          | _ => (false, rest)
          end in
        match digits with
        | EmptyString => None
        | _ => match digits_value 10 0 digits with
               | Some z => Some (if negative then (- z)%Z else z)
               | None => None
               end
        end
      else None
  end.

(** A decimal literal: sign, [Infinity] or digits with an optional fraction
    and exponent. *)
Definition decimal_literal (t : string) : numeric :=
  let '(negative, body) :=
    match t with
    | String "-" b => (true, b)
    | String "+" b => (false, b)
    | _ => (false, t)
    end in
  if String.eqb body "Infinity" then Unrepresented
  else
    let '(int_digits, r1) := span is_digit body in
    let '(frac_digits, r2) :=
      match r1 with
      | String "." r => span is_digit r
      | _ => (EmptyString, r1)
      end in
    match int_digits +:+ frac_digits with
    | EmptyString => NaN
    | mantissa_digits =>
        match digits_value 10 0 mantissa_digits, exponent_part r2 with
        | Some mantissa, Some exponent =>
            let scale := (exponent - Z.of_nat (String.length frac_digits))%Z in
            let signed := if negative then (- mantissa)%Z else mantissa in
            if (0 <=? scale)%Z then exact_integer (signed * 10 ^ scale)
            else if (signed mod 10 ^ (- scale) =? 0)%Z
                 then exact_integer (signed / 10 ^ (- scale))
                 else Unrepresented
        | _, _ => NaN
        end
    end.

(** [Number(s)] *)
Definition StringToNumber (s : string) : numeric :=
  match trim s with
  | EmptyString => Integer 0
  | t => match radix_literal t with
         | Some n => n
         | None => decimal_literal t
         end
  end.

Definition is_quote (c : ascii) : bool := Ascii.eqb c "034" || Ascii.eqb c "'".
Definition is_line_terminator (c : ascii) : bool := Ascii.eqb c "010" || Ascii.eqb c "013".

Fixpoint no_line_terminator (s : string) : bool :=
  match s with
  | EmptyString => true
  | String c rest => negb (is_line_terminator c) && no_line_terminator rest
  end.

(** The quoted-literal test of [parseEventArgs]: a quote character first and
    last, and between them anything but line terminators, which is the first
    group of the match. *)
Definition match_quoted (arg : string) : option string :=
  match arg with
  | String q rest =>
      if is_quote q then
        match String.rev rest with
        | String q' middle =>
            if is_quote q' && no_line_terminator middle then Some (String.rev middle)
            else None
        | EmptyString => None
        end
      else None
  | EmptyString => None
  end.

(** [data[arg]] on a plain object: the own property, else what the object
    inherits.  The inherited members are functions, which this embedding does
    not represent. *)
Definition get_property (data : list (string * value)) (key : string) : option value :=
  match assoc key data with
  | Some v => Some v
  | None => if is_object_prototype_member key then None else Some VUndefined
  end.


(** [parseEventArgs(arg, data)], [data] a plain object.  Nothing is given
    for a result outside the values of this embedding. *)
Definition parseEventArgs (arg : string) (data : list (string * value)) : option value :=
  if String.eqb arg "true" then Some (VBool true)
  else if String.eqb arg "false" then Some (VBool false)
  else
    match StringToNumber arg with
    | Integer z => Some (VNum z)
    | Unrepresented => None
    | NaN =>
        match match_quoted arg with
        | Some text => Some (VStr text)
        | None =>
            match get_property data arg with
            | Some v => Some (if truthy v then v else VStr arg)
            | None => None
            end
        end
    end.

End Events.

(** ** The reconciler ([diffNodes], [updateDOM]) *)
Module Dom.
Import JS.

Inductive node :=
| Element (tagName : string) (attributes : list (string * string)) (childNodes : list node)
| TextNode (textContent : string)
| CommentNode (data : string).

Definition nodeType (n : node) : nat :=
  match n with
  | Element _ _ _ => 1
  | TextNode _ => 3
  | CommentNode _ => 8
  end.

Definition nodeName (n : node) : string :=
  match n with
  | Element tagName _ _ => tagName
  | TextNode _ => "#text"
  | CommentNode _ => "#comment"
  end.

Definition attributes_of (n : node) : list (string * string) :=
  match n with
  | Element _ attributes _ => attributes
  | _ => []
  end.

Definition getAttribute (attributes : list (string * string)) (name : string) : option string :=
  assoc name attributes.

Definition hasAttribute (attributes : list (string * string)) (name : string) : bool :=
  has_key name attributes.

Definition setAttribute (name value : string) (attributes : list (string * string))
  : list (string * string) :=
  assoc_set name value attributes.

Definition removeAttribute (name : string) (attributes : list (string * string))
  : list (string * string) :=
  filter (fun attr => attr.1 <> name) attributes.

Definition startsWith (c : ascii) (s : string) : bool :=
  match s with
  | String c' _ => Ascii.eqb c' c
  | EmptyString => false
  end.

(** The guard of both attribute loops:
    [attr.name.startsWith("@") || attr.name.startsWith("#")]. *)
Definition is_directive_name (name : string) : bool :=
  startsWith "@" name || startsWith "#" name.

(** The first loop, over the attributes of the new node. *)
Definition copy_new_attributes (newAttributes live : list (string * string))
  : list (string * string) :=
  fold_left (fun acc attr =>
               if is_directive_name attr.1 then acc
               else if bool_decide (getAttribute acc attr.1 <> Some attr.2)
                    then setAttribute attr.1 attr.2 acc
                    else acc)
            newAttributes live.

(** The second loop, over a copy of the attributes of the old node. *)
Definition drop_old_attributes (newAttributes live : list (string * string))
  : list (string * string) :=
  fold_left (fun acc attr =>
               if is_directive_name attr.1 then acc
               else if hasAttribute newAttributes attr.1 then acc
                    else removeAttribute attr.1 acc)
            live live.

Definition diff_attributes (oldAttributes newAttributes : list (string * string))
  : list (string * string) :=
  drop_old_attributes newAttributes (copy_new_attributes newAttributes oldAttributes).

(** [diffNodes(oldNode, newNode)]: the node that stands where [oldNode]
    stood once the call returns, either [oldNode] patched or a deep copy of
    [newNode] put in its place. *)
Fixpoint diffNodes (oldNode newNode : node) {struct oldNode} : node :=
  if negb (Nat.eqb (nodeType oldNode) (nodeType newNode))
     || negb (String.eqb (nodeName oldNode) (nodeName newNode))
  then newNode
  else
    match oldNode with
    | TextNode old_text =>
        match newNode with
        | TextNode new_text =>
            if negb (String.eqb old_text new_text) then TextNode new_text else oldNode
        | _ => oldNode
        end
    | Element tagName oldAttributes oldChildren =>
        Element tagName
          (diff_attributes oldAttributes (attributes_of newNode))
          ((fix children (olds news : list node) {struct olds} : list node :=
              match olds, news with
              | [], _ => news
              | _ :: _, [] => []
              | o :: olds', n :: news' => diffNodes o n :: children olds' news'
              end) oldChildren
             (match newNode with Element _ _ c => c | _ => [] end))
    | CommentNode _ => oldNode
    end.

(** [updateDOM(containerElement, newHTML)].  The HTML parser is no part of
    this development: [firstChild] is what it gives for
    [newDoc.body.firstChild] once it has read [newHTML] between the tags of
    the container's name.  For most tags that is the wrapper element with
    the nodes of [newHTML] as its children; where the parser drops or closes
    the wrapper (a [tr] outside a table, a [p] before block content, an
    empty [body]) it is another node or none.  The attributes of the
    container are copied with [setAttribute], which only an element has, and
    [diffNodes] reads [nodeType] of what it is given, which null has not. *)
Definition updateDOM (containerElement : node) (firstChild : option node) : outcome node :=
  match firstChild with
  | Some (Element tagName attributes childNodes) =>
      let newContainer :=
        Element tagName
                (fold_left (fun acc attr => setAttribute attr.1 attr.2 acc)
                           (attributes_of containerElement) attributes)
                childNodes in
      Returns (diffNodes containerElement newContainer)
  | Some newContainer =>
      match attributes_of containerElement with
      | [] => Returns (diffNodes containerElement newContainer)
      | _ :: _ => Throws TypeError
      end
  | None => Throws TypeError
  end.

(** No element has two attributes of one name. *)
Fixpoint well_formed (n : node) : Prop :=
  match n with
  | Element _ attributes childNodes =>
      NoDup attributes.*1
      /\ (fix all (l : list node) : Prop :=
            match l with
            | [] => True
            | child :: rest => well_formed child /\ all rest
            end) childNodes
  | _ => True
  end.

(** A list with an entry and a text node after it. *)
Definition sample_list : node :=
  Element "UL" [("class", "list")]
    [ Element "LI" [("data-potion-key", "potion_0"); ("class", "entry")] [TextNode "X"];
      TextNode " " ].

(** The attributes both loops skip, in document order. *)
Definition directive_attributes (attributes : list (string * string)) : list (string * string) :=
  filter (fun attr : string * string => is_directive_name attr.1) attributes.

(** The attribute names the specification calls protected: directives,
    references and the position marker of iteration entries. *)
Definition spec_protected_name (name : string) : bool :=
  is_directive_name name || String.eqb name "data-potion-key".

End Dom.

(** ** The reactive wrapper ([deepProxy]) *)
Module Reactivity.
Import JS.

Definition loc : Type := nat.

(** Values with identity: an object is the address of its record. *)
Inductive jsval :=
| JUndefined
| JNull
| JBool (b : bool)
| JNum (n : Z)
| JNaN
| JStr (s : string)
| JRef (l : loc).

(** [a === b] *)
Definition strict_equal (a b : jsval) : bool :=
  match a, b with
  | JUndefined, JUndefined => true
  | JNull, JNull => true
  | JBool x, JBool y => Bool.eqb x y
  | JNum x, JNum y => Z.eqb x y
  | JStr x, JStr y => String.eqb x y
  | JRef x, JRef y => Nat.eqb x y
  | _, _ => false
  end.

(** A plain object, or a Proxy made by [deepProxy] with what its handlers
    close over. *)
Inductive object :=
| Plain (props : list (string * jsval))
| Proxy (target : loc) (onChange : nat) (maxDepth : option nat) (currentDepth : nat).

(** What a run does to the outside: writes to plain objects and calls of
    change callbacks, in order. *)
Inductive event :=
| Write (target : loc) (prop : string) (v : jsval)
| Change (onChange : nat).

Record world := World {
  heap : gmap loc object;
  next_loc : loc;
  proxyCache : gmap loc loc;
  trace : list event
}.

Definition depth_reached (maxDepth : option nat) (currentDepth : nat) : bool :=
  match maxDepth with
  | Some m => m <=? currentDepth
  | None => false
  end.

(** [deepProxy(target, onChange, maxDepth, currentDepth)] *)
Definition deepProxy (target : jsval) (onChange : nat) (maxDepth : option nat)
    (currentDepth : nat) (w : world) : jsval * world :=
  match target with
  | JRef l =>
      if depth_reached maxDepth currentDepth then (target, w)
      else
        match proxyCache w !! l with
        | Some proxy => (JRef proxy, w)
        | None =>
            let proxy := next_loc w in
            (JRef proxy,
             World (<[proxy := Proxy l onChange maxDepth currentDepth]> (heap w))
                   (S proxy)
                   (<[l := proxy]> (proxyCache w))
                   (trace w))
        end
  | _ => (target, w)
  end.

(** The own property, or undefined. *)
Definition current_value (props : list (string * jsval)) (prop : string) : jsval :=
  match assoc prop props with
  | Some v => v
  | None => JUndefined
  end.

(** [obj[prop]] and [Reflect.get(obj, prop)].  On a Proxy this is its [get]
    handler.  Nothing is given when the read reaches a member inherited from
    [Object.prototype] (a function, not represented) or runs out of fuel. *)
Fixpoint js_get (fuel : nat) (l : loc) (prop : string) (w : world) : option (jsval * world) :=
  match fuel with
  | 0 => None
  | S fuel' =>
      match heap w !! l with
      | Some (Plain props) =>
          if has_key prop props || negb (is_object_prototype_member prop)
          then Some (current_value props prop, w)
          else None
      | Some (Proxy obj onChange maxDepth currentDepth) =>
          match js_get fuel' obj prop w with
          | Some (value, w') => Some (deepProxy value onChange maxDepth (S currentDepth) w')
          | None => None
          end
      | None => None
      end
  end.

(** [Reflect.set(obj, prop, value)] and [obj[prop] = value].  On a Proxy
    this is its [set] handler. *)
Fixpoint js_set (fuel : nat) (l : loc) (prop : string) (value : jsval) (w : world)
  : option (bool * world) :=
  match fuel with
  | 0 => None
  | S fuel' =>
      match heap w !! l with
      | Some (Plain props) =>
          if String.eqb prop "__proto__" then None
          else Some (true,
                     World (<[l := Plain (assoc_set prop value props)]> (heap w))
                           (next_loc w) (proxyCache w)
                           (trace w ++ [Write l prop value]))
      | Some (Proxy obj onChange _ _) =>
          match js_get fuel' obj prop w with
          | Some (oldValue, w1) =>
              match js_set fuel' obj prop value w1 with
              | Some (result, w2) =>
                  Some (result,
                        if negb (strict_equal oldValue value)
                        then World (heap w2) (next_loc w2) (proxyCache w2)
                                   (trace w2 ++ [Change onChange])
                        else w2)
              | None => None
              end
          | None => None
          end
      | None => None
      end
  end.

(** The object [{a: 1}] at address 0, wrapped with callback 7: the wrapper
    is at address 1. *)
Definition wrapped_a1 : world :=
  (deepProxy (JRef 0) 7 None 0 (World {[ 0 := Plain [("a", JNum 1)] ]} 1 ∅ [])).2.

(** How many times a callback ran. *)
Fixpoint change_count (onChange : nat) (events : list event) : nat :=
  match events with
  | [] => 0
  | Change c :: rest =>
      (if Nat.eqb c onChange then 1 else 0) + change_count onChange rest
  | Write _ _ _ :: rest => change_count onChange rest
  end.

End Reactivity.

(** ** What the reconciler is for *)
Module Reconcile.
Import JS Dom.

(** The live node shows the new markup: the same tags and texts, and on
    every element the same value for every attribute that is no directive.
    Directive attributes and the text of comments are left out of the
    comparison. *)
Fixpoint shows_markup (live new : node) : Prop :=
  match live, new with
  | Element tagName attributes childNodes, Element tagName' attributes' childNodes' =>
      tagName = tagName'
      /\ (forall name, is_directive_name name = false ->
            getAttribute attributes name = getAttribute attributes' name)
      /\ (fix all (l l' : list node) : Prop :=
            match l, l' with
            | [], [] => True
            | child :: rest, child' :: rest' => shows_markup child child' /\ all rest rest'
            | _, _ => False
            end) childNodes childNodes'
  | TextNode text, TextNode text' => text = text'
  | CommentNode _, CommentNode _ => True
  | _, _ => False
  end.

(** The list of [sample_list] rendered anew, with another entry. *)
Definition sample_list_again : node :=
  Element "UL" [("id", "forums"); ("class", "list")]
    [ Element "LI" [("class", "entry")] [TextNode "Y"];
      Element "LI" [("class", "entry")] [TextNode "Z"] ].

End Reconcile.

(** ** The entry point ([extendStore], [Potion]) *)
Module Entry.
Import JS Filters Parser.

(** [text.includes(search)] *)
Fixpoint includes (search text : string) : bool :=
  String.prefix search text
  || match text with
     | EmptyString => false
     | String _ rest => includes search rest
     end.

(** [extendStore(data)]: [Object.assign({ $store: store }, data)].  The
    module builds [store] once from the page, so it is a parameter here. *)
Definition extendStore (store data : value) : value :=
  VObj (object_assign [("$store", store)] data).

(** [templates[template] || template] for a string.  [templates] is filled
    when the module loads, from template names to markup, and never written
    afterwards.  A name that finds a member of [Object.prototype] gives a
    value that is no string, which is left out. *)
Definition named_template (templates : list (string * string)) (template : string)
  : option string :=
  if String.eqb template "__proto__" then None
  else match assoc template templates with
       | Some html => Some (if String.eqb html "" then template else html)
       | None => if is_object_prototype_member template then None else Some template
       end.

(** The test [!template.includes(settings.start)] and the lookup it guards.
    A value with no callable [includes] throws; an array has one of its own
    kind and is left out. *)
Definition template_or_named (templates : list (string * string)) (template : value)
  : option (outcome value) :=
  match template with
  | VStr text =>
      if includes settings_start text then Some (Returns (VStr text))
      else match named_template templates text with
           | Some chosen => Some (Returns (VStr chosen))
           | None => None
           end
  | VArr _ => None
  | _ => Some (Throws TypeError)
  end.

(** The module-level [initialized] flag beside the state of the engine. *)
Record runtime := Runtime {
  initialized : bool;
  engine : state
}.

Definition initial_runtime : runtime := Runtime false initial_state.

(** [Potion(template, data)].  The result is [None] where the template
    becomes a value that [substitute] would have to treat as text without
    its being a string. *)
Definition Potion (store : value) (templates : list (string * string)) (filters : registry)
    (template data : value) (rt : runtime) : option (result value * runtime) :=
  let data := extendStore store data in
  let started := Runtime true (engine rt) in
  let templateAfter (rendered : value) (rt' : runtime) :=
    Some (match applyFilter filters "templateAfter" rendered [data] with
          | Returns final => Ok final
          | Throws e => Thrown e
          end, rt') in
  match (if initialized rt then Returns VUndefined
         else applyFilter filters "init" template [data]) with
  | Throws e => Some (Thrown e, started)
  | Returns _ =>
      match applyFilter filters "templateBefore" template [data] with
      | Throws e => Some (Thrown e, started)
      | Returns before =>
          match template_or_named templates before with
          | None => None
          | Some (Throws e) => Some (Thrown e, started)
          | Some (Returns chosen) =>
              match applyFilter filters "template" chosen [data] with
              | Throws e => Some (Thrown e, started)
              | Returns (VStr text) =>
                  if String.eqb text "" then templateAfter (VStr "") started
                  else
                    match substitute filters text data (engine rt) with
                    | (Ok out, st) => templateAfter (VStr out) (Runtime true st)
                    | (Thrown e, st) => Some (Thrown e, Runtime true st)
                    | (OutOfFuel, st) => Some (OutOfFuel, Runtime true st)
                    end
              | Returns other =>
                  if truthy other then None else templateAfter other started
              end
          end
      end
  end.

(** [potion(template, data)] *)
Definition potion := Potion.

End Entry.

(** ** Local contexts ([getLocalContext]) *)
Module Context.
Import JS Parser Dom.

(** [getLocalContext(element, defaultData)].  [ancestors] holds the
    attributes of the elements the loop visits: [element], its parent and so
    on, up to the element below [document.body] or the root of a detached
    tree.  [contexts] is the [localContexts] map at the time of the call. *)
Fixpoint getLocalContext (contexts : list (string * value))
    (ancestors : list (list (string * string))) (defaultData : value) : value :=
  match ancestors with
  | [] => defaultData
  | attributes :: parents =>
      match getAttribute attributes "data-potion-key" with
      | Some key =>
          if String.eqb key "" then getLocalContext contexts parents defaultData
          else match assoc key contexts with
               | Some VUndefined => getLocalContext contexts parents defaultData
               | Some context => context
               | None => getLocalContext contexts parents defaultData
               end
      | None => getLocalContext contexts parents defaultData
      end
  end.

(** Every stored context is the loop data of some entry. *)
Definition contexts_ok (st : state) : Prop :=
  Forall (fun entry : string * value =>
            exists substituted key, entry.2 = loop_data substituted key)
         (localContexts st).

(** A computation that keeps a property of the state, however it ends. *)
Definition keeps (P : state -> Prop) {A} (m : M A) : Prop :=
  forall st, P st -> P (m st).2.

End Context.

(** ** Runs of writes through a wrapper *)
Module Observation.
Import JS Reactivity.

(** The statements [proxy[prop] = value], one after another. *)
Fixpoint set_all (fuel : nat) (proxy : loc) (writes : list (string * jsval)) (w : world)
  : option world :=
  match writes with
  | [] => Some w
  | (prop, value) :: rest =>
      match js_set fuel proxy prop value w with
      | Some (_, w') => set_all fuel proxy rest w'
      | None => None
      end
  end.

(** The properties of the target after the writes. *)
Definition written (props : list (string * jsval)) (writes : list (string * jsval))
  : list (string * jsval) :=
  fold_left (fun acc write => assoc_set write.1 write.2 acc) writes props.

(** How many of the writes store a value that is not strictly equal to the
    value the property has when the write is made. *)
Fixpoint changing_writes (props : list (string * jsval)) (writes : list (string * jsval)) : nat :=
  match writes with
  | [] => 0
  | (prop, value) :: rest =>
      (if strict_equal (current_value props prop) value then 0 else 1)
      + changing_writes (assoc_set prop value props) rest
  end.

(** The object [{user: {name: "a"}}] at address 0 with its inner object at
    address 1, wrapped with callback 7 and the given [maxDepth]: the wrapper
    is at address 2. *)
Definition wrapped_user (maxDepth : option nat) : world :=
  (deepProxy (JRef 0) 7 maxDepth 0
     (World {[ 0 := Plain [("user", JRef 1)]; 1 := Plain [("name", JStr "a")] ]} 2 ∅ [])).2.

End Observation.

(** ** Utilities ([escapeRegex], [slugify], [get_res_id]) *)
Module Utils.
Import JS Events.

Fixpoint all_chars (p : ascii -> bool) (s : string) : bool :=
  match s with
  | EmptyString => true
  | String c rest => p c && all_chars p rest
  end.

Fixpoint map_chars (f : ascii -> ascii) (s : string) : string :=
  match s with
  | EmptyString => EmptyString
  | String c rest => String (f c) (map_chars f rest)
  end.

(** The class of [escapeRegex]: the syntax characters of a pattern, the
    backslash (code 92) among them. *)
Definition is_syntax_char (c : ascii) : bool :=
  match c with
  | "." | "*" | "+" | "?" | "^" | "$" | "{" | "}" | "(" | ")" | "|" | "[" | "]" | "092" => true
  | _ => false
  end%char.

(** [escapeRegex(string)]: a backslash before every syntax character. *)
Fixpoint escapeRegex (s : string) : string :=
  match s with
  | EmptyString => EmptyString
  | String c rest =>
      if is_syntax_char c then String "092" (String c (escapeRegex rest))
      else String c (escapeRegex rest)
  end.

(** The text a pattern matches when it is a sequence of literal atoms, as a
    regular expression reads them: a character that is no syntax character
    stands for itself, a backslash followed by a syntax character stands for
    that character.  Nothing for any other pattern. *)
Fixpoint literal_pattern (pattern : string) : option string :=
  match pattern with
  | EmptyString => Some EmptyString
  | String c rest =>
      if Ascii.eqb c "092" then
        match rest with
        | String escaped rest' =>
            if is_syntax_char escaped
            then match literal_pattern rest' with
                 | Some text => Some (String escaped text)
                 | None => None
                 end
            else None
        | EmptyString => None
        end
      else if is_syntax_char c then None
      else match literal_pattern rest with
           | Some text => Some (String c text)
           | None => None
           end
  end.

Definition is_ascii (c : ascii) : bool := nat_of_ascii c <? 128.

(** [toLowerCase] on a character below 128. *)
Definition toLowerCase_char (c : ascii) : ascii :=
  if in_range 65 90 c then ascii_of_nat (nat_of_ascii c + 32) else c.

(** [\w] *)
Definition is_word_char (c : ascii) : bool :=
  is_alpha c || is_digit c || Ascii.eqb c "_".

(** [replace(/\s+/g, "-")]: every run of white space becomes one hyphen.
    [inside] tells that the character before was white space. *)
Fixpoint replace_space_runs (inside : bool) (s : string) : string :=
  match s with
  | EmptyString => EmptyString
  | String c rest =>
      if is_space c then
        if inside then replace_space_runs true rest
        else String "-" (replace_space_runs true rest)
      else String c (replace_space_runs false rest)
  end.

(** The third [replace]: every character that is neither a word character
    nor a hyphen is removed. *)
Fixpoint keep_word_chars (s : string) : string :=
  match s with
  | EmptyString => EmptyString
  | String c rest =>
      if is_word_char c || Ascii.eqb c "-" then String c (keep_word_chars rest)
      else keep_word_chars rest
  end.

(** [replace(/--+/g, "-")]: every run of hyphens becomes one hyphen.
    [inside] tells that the character before was a hyphen. *)
Fixpoint collapse_hyphens (inside : bool) (s : string) : string :=
  match s with
  | EmptyString => EmptyString
  | String c rest =>
      if Ascii.eqb c "-" then
        if inside then collapse_hyphens true rest
        else String "-" (collapse_hyphens true rest)
      else String c (collapse_hyphens false rest)
  end.

(** [slugify(text)] for a string of characters below 128, which
    [normalize("NFD")] and the removal of combining marks leave as they
    are.  Nothing for other strings. *)
Definition slugify (text : string) : option string :=
  if all_chars is_ascii text then
    Some (collapse_hyphens false
            (keep_word_chars
               (replace_space_runs false
                  (trim (map_chars toLowerCase_char text)))))
  else None.

(** The characters of a slug. *)
Definition is_slug_char (c : ascii) : bool :=
  in_range 97 122 c || is_digit c || Ascii.eqb c "_" || Ascii.eqb c "-".

(** The group of both patterns at the head of [s], a digit from 1 to 9 and
    then digits: the group and the text after it. *)
Definition match_id (s : string) : option (string * string) :=
  match s with
  | String c _ => if in_range 49 57 c then Some (span is_digit s) else None
  | EmptyString => None
  end.

(** The first pattern of [get_res_id] at the head of [s]: a slash, one of
    [t], [f], [c], the id, an optional page part [p] with a number, and a
    hyphen.  Gives the first group.  The classes that follow one another are
    disjoint, so the greedy match is the only one. *)
Definition match_resource (s : string) : option string :=
  match s with
  | String "/" (String kind s1) =>
      if Ascii.eqb kind "t" || Ascii.eqb kind "f" || Ascii.eqb kind "c" then
        match match_id s1 with
        | Some (id, s2) =>
            let s3 :=
              match s2 with
              | String "p" page =>
                  match match_id page with
                  | Some (_, after) => after
                  | None => s2
                  end
              | _ => s2
              end in
            match s3 with
            | String "-" _ => Some id
            | _ => None
            end
        | None => None
        end
      else None
  | _ => None
  end.

(** [p.match(...)] with the first pattern: the leftmost match. *)
Fixpoint search_resource (p : string) : option string :=
  match match_resource p with
  | Some id => Some id
  | None =>
      match p with
      | EmptyString => None
      | String _ rest => search_resource rest
      end
  end.

(** The second pattern, anchored at both ends: [/u], the id, lower-case
    letters. *)
Definition match_user (p : string) : option string :=
  match p with
  | String "/" (String "u" s1) =>
      match match_id s1 with
      | Some (id, s2) => if all_chars (in_range 97 122) s2 then Some id else None
      | None => None
      end
  | _ => None
  end.

(** [get_res_id(p)] *)
Definition get_res_id (p : string) : numeric :=
  match search_resource p with
  | Some id => StringToNumber id
  | None =>
      match match_user p with
      | Some id => StringToNumber id
      | None => Integer 0
      end
  end.

End Utils.

(** ** References ([registerRefs]) *)
Module Refs.
Import JS Dom.

(** An element is named by the way to it from the container: the index of
    a child, then of a child of that child, and so on.  The table of
    references maps names to such ways. *)
Definition refs_table : Type := list (string * list nat).

(** The body of the [forEach] for one element.  An assignment to the key
    [__proto__] of a plain object makes no own property. *)
Definition register_ref (here : list nat) (attributes : list (string * string))
    (refs : refs_table) : list (string * string) * refs_table :=
  match getAttribute attributes "#ref" with
  | Some refName =>
      if String.eqb refName "" then (attributes, refs)
      else (removeAttribute "#ref" attributes,
            if String.eqb refName "__proto__" then refs else assoc_set refName here refs)
  | None => (attributes, refs)
  end.

(** The [forEach] over the elements at and below [n], in document order. *)
Fixpoint collect_refs (here : list nat) (n : node) (refs : refs_table) {struct n}
  : node * refs_table :=
  match n with
  | Element tagName attributes childNodes =>
      let '(attributes', refs1) := register_ref here attributes refs in
      let '(children', refs2) :=
        (fix children (i : nat) (l : list node) (refs : refs_table) {struct l}
           : list node * refs_table :=
           match l with
           | [] => ([], refs)
           | child :: rest =>
               let '(child', refs') := collect_refs (here ++ [i]) child refs in
               let '(rest', refs'') := children (S i) rest refs' in
               (child' :: rest', refs'')
           end) 0 childNodes refs1 in
      (Element tagName attributes' children', refs2)
  | _ => (n, refs)
  end.

(** The same over a list of siblings, the first of which has index [i]. *)
Fixpoint collect_children (here : list nat) (i : nat) (l : list node) (refs : refs_table)
  : list node * refs_table :=
  match l with
  | [] => ([], refs)
  | child :: rest =>
      let '(child', refs') := collect_refs (here ++ [i]) child refs in
      let '(rest', refs'') := collect_children here (S i) rest refs' in
      (child' :: rest', refs'')
  end.

(** [registerRefs(container, data)]: the container afterwards and the new
    [data.$refs], given the old one.  [querySelectorAll] gives the elements
    below the container, not the container. *)
Definition registerRefs (container : node) (previous : refs_table) : node * refs_table :=
  match container with
  | Element tagName attributes childNodes =>
      let '(children', refs) := collect_children [] 0 childNodes [] in
      (Element tagName attributes children',
       fold_left (fun acc ref => assoc_set ref.1 ref.2 acc) refs previous)
  | _ => (container, previous)
  end.

(** The node a way leads to. *)
Fixpoint node_at (way : list nat) (n : node) : option node :=
  match way with
  | [] => Some n
  | i :: rest =>
      match n with
      | Element _ _ childNodes =>
          match childNodes !! i with
          | Some child => node_at rest child
          | None => None
          end
      | _ => None
      end
  end.

(** The [#ref] attribute of the element a way leads to. *)
Definition ref_at (way : list nat) (n : node) : option string :=
  match node_at way n with
  | Some (Element _ attributes _) => getAttribute attributes "#ref"
  | _ => None
  end.


(** A form with a field and a button that both ask for a reference. *)
Definition sample_form : node :=
  Element "FORM" [("#ref", "form")]
    [ Element "INPUT" [("#ref", "field"); ("type", "text")] [];
      Element "P" [] [Element "BUTTON" [("class", "go"); ("#ref", "button")] [TextNode "Go"]] ].

End Refs.

(** ** Event directives ([bindEvents]) *)
Module Binder.
Import JS Events Dom Context Utils.

(** The pattern of the handler expression, anchored at both ends: a run of
    word characters, then nothing or a parenthesis, any text without line
    terminators and a closing parenthesis.  Gives the function name and the
    second group when it takes part in the match. *)
Definition match_handler (value : string) : option (string * option string) :=
  match span is_word_char value with
  | (EmptyString, _) => None
  | (fnName, EmptyString) => Some (fnName, None)
  | (fnName, String "(" rest) =>
      match String.rev rest with
      | String ")" middle =>
          if no_line_terminator middle then Some (fnName, Some (String.rev middle)) else None
      | _ => None
      end
  | (_, _) => None
  end.

(** The data object given to [bindEvents]: the properties that hold values
    of this embedding and, apart from them, the properties that hold
    functions, each with the identity of its function. *)
Record app_data := AppData {
  fields : list (string * value);
  methods : list (string * nat)
}.

(** What [localData] is: a stored context, or the data object itself. *)
Inductive local_data :=
| Local (props : list (string * value))
| Root.

(** A function found under a name: a method of the data object, or a member
    every plain object inherits from [Object.prototype]. *)
Inductive callback :=
| Method (id : nat)
| Inherited (name : string).

(** The inherited members that are functions: all but the accessor
    [__proto__]. *)
Definition inherited_function (fnName : string) : option callback :=
  if is_object_prototype_member fnName && negb (String.eqb fnName "__proto__")
  then Some (Inherited fnName) else None.

(** [typeof data[fnName] === "function" ? data[fnName] : ...] on the data
    object. *)
Definition data_function (data : app_data) (fnName : string) : option callback :=
  match assoc fnName (methods data) with
  | Some id => Some (Method id)
  | None => if has_key fnName (fields data) then None else inherited_function fnName
  end.

(** The same on [localData]. *)
Definition local_function (localData : local_data) (data : app_data) (fnName : string)
  : option callback :=
  match localData with
  | Local props => if has_key fnName props then None else inherited_function fnName
  | Root => data_function data fnName
  end.

(** [getLocalContext(element, data)].  The default is recognised by passing
    undefined for it, which is never returned as a stored context.  Nothing
    is given for a stored context that is no plain object. *)
Definition find_local_data (contexts : list (string * value))
    (ancestors : list (list (string * string))) : option local_data :=
  match getLocalContext contexts ancestors VUndefined with
  | VUndefined => Some Root
  | VObj props => Some (Local props)
  | _ => None
  end.

(** [parseEventArgs(arg.trim(), localData)]; nothing for an argument that
    names a method of the data object. *)
Definition parse_arg (localData : local_data) (data : app_data) (arg : string) : option value :=
  match localData with
  | Local props => parseEventArgs (trim arg) props
  | Root =>
      if has_key (trim arg) (methods data) then None
      else parseEventArgs (trim arg) (fields data)
  end.

(** The closure [handler], with what it closes over and an identity. *)
Record handler := Handler {
  handler_id : nat;
  handler_callback : callback;
  handler_args : list (option value);
  handler_modifiers : list string
}.

Record listener := Listener {
  listener_type : string;
  listener_handler : handler;
  listener_capture : bool;
  listener_once : bool;
  listener_passive : bool
}.

(** An element as [bindEvents] sees it: its attributes, its [_boundEvents]
    and its list of event listeners. *)
Record bound_element := BoundElement {
  attributes : list (string * string);
  boundEvents : list (string * handler);
  listeners : list listener
}.

(** What identifies a listener in the list of an element: the type, the
    callback and the capture flag. *)
Definition same_listener (type : string) (id : nat) (capture : bool) (l : listener) : Prop :=
  listener_type l = type
  /\ handler_id (listener_handler l) = id
  /\ listener_capture l = capture.

(** [element.removeEventListener(type, callback)]: no options, so it is the
    listener of the bubbling phase that goes. *)
Definition removeEventListener (type : string) (callback : option handler)
    (ls : list listener) : list listener :=
  match callback with
  | Some h => filter (fun l => ~ same_listener type (handler_id h) false l) ls
  | None => ls
  end.

(** [element.addEventListener(type, callback, options)] *)
Definition addEventListener (l : listener) (ls : list listener) : list listener :=
  if decide (Exists (same_listener (listener_type l) (handler_id (listener_handler l))
                                   (listener_capture l)) ls)
  then ls else ls ++ [l].

Definition has_modifier (name : string) (modifiers : list string) : bool :=
  existsb (String.eqb name) modifiers.

(** [attr.name.slice(1)] *)
Definition slice_1 (s : string) : string :=
  match s with
  | String _ rest => rest
  | EmptyString => EmptyString
  end.

(** The body of the [forEach] for one directive attribute.  [next] is the
    identity the next closure gets. *)
Definition bind_directive (contexts : list (string * value))
    (parents : list (list (string * string))) (data : app_data)
    (attr : string * string) (el : bound_element) (next : nat)
  : option (bound_element * nat) :=
  let parts := split_on "." (slice_1 attr.1) in
  let eventType := hd "" parts in
  let modifiers := tl parts in
  match match_handler attr.2 with
  | None => Some (el, next)
  | Some (fnName, group) =>
      let argsStr := match group with Some text => text | None => "" end in
      match find_local_data contexts (attributes el :: parents) with
      | None => None
      | Some localData =>
          let args :=
            if String.eqb argsStr "" then []
            else List.map (parse_arg localData data) (split_on "," argsStr) in
          let callback :=
            match local_function localData data fnName with
            | Some c => Some c
            | None => data_function data fnName
            end in
          match callback with
          | Some c =>
              let h := Handler next c args modifiers in
              Some (BoundElement
                      (removeAttribute attr.1 (attributes el))
                      (assoc_set eventType h (boundEvents el))
                      (addEventListener
                         (Listener eventType h (has_modifier "capture" modifiers)
                                   (has_modifier "once" modifiers)
                                   (has_modifier "passive" modifiers))
                         (removeEventListener eventType (assoc eventType (boundEvents el))
                                              (listeners el))),
                    S next)
          | None =>
              Some (BoundElement (removeAttribute attr.1 (attributes el))
                                 (boundEvents el) (listeners el), next)
          end
      end
  end.

(** The [forEach] over the directive attributes. *)
Fixpoint bind_all (contexts : list (string * value)) (parents : list (list (string * string)))
    (data : app_data) (attrs : list (string * string)) (el : bound_element) (next : nat)
  : option (bound_element * nat) :=
  match attrs with
  | [] => Some (el, next)
  | attr :: rest =>
      match bind_directive contexts parents data attr el next with
      | Some (el', next') => bind_all contexts parents data rest el' next'
      | None => None
      end
  end.

(** [bindEvents(element, data)] *)
Definition bindEvents (contexts : list (string * value)) (parents : list (list (string * string)))
    (data : app_data) (el : bound_element) (next : nat) : option (bound_element * nat) :=
  bind_all contexts parents data
    (filter (fun attr : string * string => startsWith "@" attr.1 = true) (attributes el)) el next.

(** The listeners of the bubbling phase for a type. *)
Definition bubbling (type : string) (ls : list listener) : list listener :=
  filter (fun l => listener_type l = type /\ listener_capture l = false) ls.

(** What the theorems keep about an element: the identities of its
    listeners are distinct and below [next], and a listener of the bubbling
    phase is the handler [_boundEvents] has for its type. *)
Definition bound_ok (el : bound_element) (next : nat) : Prop :=
  NoDup ((fun l => handler_id (listener_handler l)) <$> listeners el)
  /\ Forall (fun l => handler_id (listener_handler l) < next) (listeners el)
  /\ Forall (fun l => listener_capture l = false ->
               exists h, assoc (listener_type l) (boundEvents el) = Some h
                         /\ handler_id h = handler_id (listener_handler l))
            (listeners el).

(** A button with two directives for the same event. *)
(** The directive attributes that [bindEvents] can read. *)
Definition readable (attr : string * string) : Prop :=
  startsWith "@" attr.1 = true /\ is_Some (match_handler attr.2).

Definition sample_button : bound_element :=
  BoundElement [("class", "go"); ("@click", "save(1)"); ("@click.prevent", "send")] [] [].

Definition sample_data : app_data := AppData [("count", VNum 0)] [("save", 1); ("send", 2)].

End Binder.

(** ** What the tokenizer produces *)
Module Segments.
Import JS Parser Utils.

(** A flag and a name as the pattern captures them. *)
Definition valid_flag (flag : string) : Prop := flag = "" \/ flag = "!" \/ flag = "/".

Definition valid_name (name : string) : Prop :=
  match name with
  | String c more => is_name_start c = true /\ all_chars is_name_char more = true
  | EmptyString => False
  end.

(** The pattern after the opening bracket and the white space: the flag
    and the text after it. *)
Definition take_flag (s : string) : string * string :=
  match s with
  | String c r =>
      if Ascii.eqb c "!" || Ascii.eqb c "/" then (String c EmptyString, r)
      else (EmptyString, s)
  | EmptyString => (EmptyString, s)
  end.

(** The pattern after the flag: white space, the name, white space and the
    closing bracket.  Gives the name and the text after the bracket. *)
Definition take_name (s : string) : option (string * string) :=
  match skip_spaces s with
  | String c r =>
      if is_name_start c then
        let '(more, s5) := span is_name_char r in
        match skip_spaces s5 with
        | String c6 rest => if Ascii.eqb c6 "]" then Some (String c more, rest) else None
        | EmptyString => None
        end
      else None
  | EmptyString => None
  end.

(** Segments as [tokenizeTemplate] makes them: a static segment is not
    empty, holds no token and is not followed by another static segment; a
    token has a flag and a name of the pattern. *)
Fixpoint tokenized (l : list token) : Prop :=
  match l with
  | [] => True
  | Static text :: rest =>
      text <> "" /\ exec text = None
      /\ match rest with Static _ :: _ => False | _ => True end
      /\ tokenized rest
  | Token flag name :: rest => valid_flag flag /\ valid_name name /\ tokenized rest
  end.

End Segments.

(** ** Data that renders without an exception *)
Module Plain.
Import JS Parser.

(** Values in which no object has an own property named [toString] or
    [hasOwnProperty]: the two names under which a property that is no
    function makes [output += value] and the iteration throw. *)
Fixpoint printable (v : value) : bool :=
  match v with
  | VArr items => forallb printable items
  | VObj props =>
      negb (has_key "toString" props) && negb (has_key "hasOwnProperty" props)
      && forallb (fun p => printable p.2) props
  | _ => true
  end.

(** A computation that does not throw, whatever the state. *)
Definition no_throw {A} (m : M A) : Prop :=
  forall st e st', m st <> (Thrown e, st').

End Plain.

Module Reach.
Import JS Parser.

(** The states the engine can bring the module state to: it changes the
    state nowhere but in [getTokens] and where it registers the loop data of
    an entry. *)
Inductive reaches : state -> state -> Prop :=
| reaches_here st : reaches st st
| reaches_tokens st template later :
    reaches (getTokens template st).2 later -> reaches st later
| reaches_register st substituted key later :
    reaches (register_context (loop_data substituted key) st).2 later -> reaches st later.

End Reach.

(** ** Runs on which the code misses what it sets out to do *)
Module Misses.
Import JS Filters Reactivity.

(** The registrations at priorities 5, 1 and 3 again, under a name the
    registry object inherits from [Object.prototype]. *)
Definition registrations_constructor : list (string * FilterEntry) :=
  [ ("constructor", (mark_fn 5 "e", 5%Z));
    ("constructor", (mark_fn 1 "a", 1%Z));
    ("constructor", (mark_fn 3 "c", 3%Z)) ].

(** The statement [p.user = p.user]: what the wrapper [p] gives for the
    inner object is stored back through it. *)
Definition store_user_back (fuel : nat) (p : loc) (w : world) : option world :=
  match js_get fuel p "user" w with
  | Some (inner, w1) =>
      match js_set fuel p "user" inner w1 with
      | Some (_, w2) => Some w2
      | None => None
      end
  | None => None
  end.

(** The statement [p.user.name = value]: the inner object is read through
    the wrapper [p] and written through what the read gives.  The trace
    starts anew, so that it holds the events of this statement only. *)
Definition set_user_name (fuel : nat) (p : loc) (value : jsval) (w : world)
  : option (loc * list event) :=
  match js_get fuel p "user" w with
  | Some (JRef inner, w1) =>
      match js_set fuel inner "name" value
              (World (heap w1) (next_loc w1) (proxyCache w1) []) with
      | Some (_, w2) => Some (inner, trace w2)
      | None => None
      end
  | _ => None
  end.

End Misses.

Import JS Filters Parser Events Dom Reactivity.


(** * Property lists *)
Section AssocFacts.
Context {A : Type}.
Implicit Types (props : list (string * A)) (key : string).

Lemma assoc_set_eq key (v : A) props : assoc key (assoc_set key v props) = Some v.
Proof.
  induction props as [|[k w] rest IH]; simpl.
  - by rewrite String.eqb_refl.
  - destruct (String.eqb k key) eqn:E; simpl; rewrite E; auto.
Qed.

Lemma assoc_set_ne key key' (v : A) props :
  key <> key' -> assoc key' (assoc_set key v props) = assoc key' props.
Proof.
  intros Hne. induction props as [|[k w] rest IH]; simpl.
  - destruct (String.eqb key key') eqn:E; [|done].
    apply String.eqb_eq in E. congruence.
  - destruct (String.eqb k key) eqn:E; simpl.
    + apply String.eqb_eq in E. subst k.
      destruct (String.eqb key key') eqn:E'; [|done].
      apply String.eqb_eq in E'. congruence.
    + by rewrite IH.
Qed.

Lemma assoc_filter_ne key key' props :
  key <> key' ->
  assoc key' (filter (fun entry : string * A => entry.1 <> key) props) = assoc key' props.
Proof.
  intros Hne. induction props as [|[k w] rest IH]; [done|].
  destruct (decide (k = key)) as [->|Hk].
  - rewrite filter_cons_False by (simpl; tauto).
    simpl. destruct (String.eqb key key') eqn:E; [|done].
    apply String.eqb_eq in E. congruence.
  - rewrite filter_cons_True by done. simpl. by rewrite IH.
Qed.
End AssocFacts.

(** * Filter chains *)
Section FilterChains.
Implicit Types (e : FilterEntry) (chain : list FilterEntry).

Lemma filter_priority_none (p : Z) chain :
  Forall (fun x : FilterEntry => x.2 <> p) chain ->
  filter (fun x : FilterEntry => x.2 = p) chain = [].
Proof.
  induction 1 as [|x rest Hx _ IH]; [done|].
  by rewrite filter_cons_False.
Qed.

Lemma insert_by_priority_last e chain :
  Forall (fun x => by_priority x e) chain -> insert_by_priority e chain = chain ++ [e].
Proof.
  induction 1 as [|x rest Hx _ IH]; simpl; [done|].
  unfold by_priority in Hx.
  destruct (0 <? x.2 - e.2)%Z eqn:E; [lia|]. by rewrite IH.
Qed.

Lemma insert_by_priority_elem e chain x :
  x ∈ insert_by_priority e chain <-> x = e \/ x ∈ chain.
Proof.
  induction chain as [|y rest IH]; simpl.
  - rewrite list_elem_of_singleton, elem_of_nil. tauto.
  - destruct (0 <? y.2 - e.2)%Z.
    + rewrite !elem_of_cons. tauto.
    + rewrite !elem_of_cons, IH. tauto.
Qed.

Lemma insert_by_priority_sorted e chain :
  StronglySorted by_priority chain -> StronglySorted by_priority (insert_by_priority e chain).
Proof.
  induction 1 as [|x rest Hs IH Hx]; simpl.
  - repeat constructor.
  - destruct (0 <? x.2 - e.2)%Z eqn:E.
    + constructor; [by constructor|].
      constructor; [unfold by_priority; lia|].
      eapply Forall_impl; [exact Hx|]. unfold by_priority. intros; lia.
    + constructor; [done|].
      apply Forall_forall. intros y Hy.
      apply insert_by_priority_elem in Hy as [->|Hy].
      * unfold by_priority; lia.
      * by eapply Forall_forall in Hx.
Qed.

Lemma insert_by_priority_filter e chain (p : Z) :
  StronglySorted by_priority chain ->
  filter (fun x : FilterEntry => x.2 = p) (insert_by_priority e chain)
  = filter (fun x : FilterEntry => x.2 = p) chain
      ++ filter (fun x : FilterEntry => x.2 = p) [e].
Proof.
  induction 1 as [|x rest Hs IH Hx]; simpl; [done|].
  destruct (0 <? x.2 - e.2)%Z eqn:E.
  - (* [e] goes in front of [x]: nothing from [x] on has the priority of [e] *)
    rewrite (filter_cons _ e). rewrite (filter_cons _ e []), filter_nil.
    destruct (decide (e.2 = p)) as [Hp|Hp]; [|by rewrite app_nil_r].
    assert (Hnone : filter (fun y : FilterEntry => y.2 = p) (x :: rest) = []).
    { apply filter_priority_none, Forall_forall. intros y Hy.
      apply elem_of_cons in Hy as [->|Hy]; [lia|].
      eapply Forall_forall in Hx; [|exact Hy]. unfold by_priority in Hx. lia. }
    by rewrite Hnone.
  - rewrite !(filter_cons _ x), IH. by destruct (decide (x.2 = p)).
Qed.

Lemma sort_by_priority_snoc chain e :
  sort_by_priority (chain ++ [e]) = insert_by_priority e (sort_by_priority chain).
Proof. unfold sort_by_priority. by rewrite fold_left_app. Qed.

Lemma sort_by_priority_sorted_id chain :
  StronglySorted by_priority chain -> sort_by_priority chain = chain.
Proof.
  induction chain as [|e chain IH] using rev_ind; [done|].
  intros Hs. apply StronglySorted_app in Hs as (Hall & Hl & _).
  rewrite sort_by_priority_snoc, IH by done.
  apply insert_by_priority_last, Forall_forall. intros x Hx.
  apply Hall; [done|set_solver].
Qed.

Lemma chain_of_set_eq name chain (filters : registry) :
  chain_of (assoc_set name chain filters) name = chain.
Proof. unfold chain_of. by rewrite assoc_set_eq. Qed.

Lemma chain_of_set_ne name name' chain (filters : registry) :
  name' <> name -> chain_of (assoc_set name' chain filters) name = chain_of filters name.
Proof. intros. unfold chain_of. by rewrite assoc_set_ne. Qed.

Lemma register_all_snoc regs reg filters :
  register_all (regs ++ [reg]) filters
  = match addFilter reg.1 reg.2.1 reg.2.2 (register_all regs filters) with
    | Returns acc' => acc'
    | Throws _ => register_all regs filters
    end.
Proof. unfold register_all. by rewrite fold_left_app. Qed.

Lemma registered_chain regs name :
  is_object_prototype_member name = false ->
  StronglySorted by_priority (chain_of (register_all regs []) name)
  /\ forall p : Z,
       filter (fun x : FilterEntry => x.2 = p) (chain_of (register_all regs []) name)
       = filter (fun x : FilterEntry => x.2 = p) (registered_under name regs).
Proof.
  intros Hname. induction regs as [|[name' [fn prio]] regs IH] using rev_ind.
  - split; [constructor|done].
  - destruct IH as [IHs IHf].
    rewrite register_all_snoc. simpl. unfold addFilter.
    unfold registered_under. rewrite filter_app, fmap_app. fold (registered_under name regs).
    destruct (is_object_prototype_member name') eqn:Hmem.
    + assert (name' <> name) by congruence.
      rewrite filter_cons_False, filter_nil by done. simpl. rewrite app_nil_r.
      exact (conj IHs IHf).
    + destruct (decide (name' = name)) as [->|Hne].
      * rewrite chain_of_set_eq.
        rewrite sort_by_priority_snoc, sort_by_priority_sorted_id by done.
        split; [by apply insert_by_priority_sorted|].
        intros p. rewrite insert_by_priority_filter by done.
        rewrite (filter_cons_True (fun reg : string * FilterEntry => reg.1 = name)) by done.
        rewrite filter_nil. simpl.
        rewrite filter_app. by rewrite IHf.
      * rewrite chain_of_set_ne by done.
        rewrite filter_cons_False, filter_nil by done. simpl. rewrite app_nil_r.
        exact (conj IHs IHf).
Qed.

Lemma reduce_chain_calls chain result args :
  (reduce_chain chain result args).1 `prefix_of` (fun e : FilterEntry => fun_id e.1) <$> chain
  /\ forall v, (reduce_chain chain result args).2 = Returns v ->
       (reduce_chain chain result args).1 = (fun e : FilterEntry => fun_id e.1) <$> chain.
Proof.
  revert result. induction chain as [|[fn prio] rest IH]; intros result; simpl.
  - split; [done|done].
  - destruct (fun_call fn result args) as [substituted|err]; simpl.
    + match goal with |- context [reduce_chain rest ?r args] =>
        destruct (IH r) as [IH1 IH2]; destruct (reduce_chain rest r args) as [calls final] end.
      simpl in *. split.
      * by apply prefix_cons.
      * intros v Hv. f_equal. eauto.
    + split; [|done]. apply prefix_cons, prefix_nil.
Qed.
End FilterChains.

(** The order of a chain under a name that can be registered.  After any
    run of registrations on the empty registry, the chain of such a name is
    in ascending priority order, and the entries of one priority stand in
    the order they were registered in; [applyFilter] calls the functions of
    the chain in that order, all of them when none throws and the ones up
    to the throw otherwise. *)
Theorem filter_chain_order regs name payload args :
  is_object_prototype_member name = false ->
  let filters := register_all regs [] in
  let chain := chain_of filters name in
  let invoked := (applyFilter_calls filters name payload args).1 in
  StronglySorted by_priority chain
  /\ (forall p : Z,
        filter (fun e : FilterEntry => e.2 = p) chain
        = filter (fun e : FilterEntry => e.2 = p) (registered_under name regs))
  /\ invoked `prefix_of` (fun e : FilterEntry => fun_id e.1) <$> chain
  /\ (forall v, applyFilter filters name payload args = Returns v ->
        invoked = (fun e : FilterEntry => fun_id e.1) <$> chain).
Proof.
  intros Hname filters chain invoked.
  destruct (registered_chain regs name Hname) as [Hs Hf].
  split; [done|]. split; [done|].
  subst invoked. unfold applyFilter, applyFilter_calls. rewrite Hname.
  apply reduce_chain_calls.
Qed.

(** The registrations at priorities 5, 1 and 3. *)
Lemma filter_chain_order_witness :
  let filters := register_all registrations_5_1_3 [] in
  let chain := chain_of filters "content" in
  let invoked := (applyFilter_calls filters "content" (VStr "") []).1 in
  StronglySorted by_priority chain
  /\ (forall p : Z,
        filter (fun e : FilterEntry => e.2 = p) chain
        = filter (fun e : FilterEntry => e.2 = p)
            (registered_under "content" registrations_5_1_3))
  /\ invoked `prefix_of` (fun e : FilterEntry => fun_id e.1) <$> chain
  /\ (forall v, applyFilter filters "content" (VStr "") [] = Returns v ->
        invoked = (fun e : FilterEntry => fun_id e.1) <$> chain).
Proof.
  apply (filter_chain_order registrations_5_1_3 "content" (VStr "") []).
  reflexivity.
Defined.

(** Registered at 5, 1, 3, called as 1, 3, 5. *)
Example filter_order_5_1_3 :
  applyFilter_calls (register_all registrations_5_1_3 []) "content" (VStr "") []
  = ([1; 3; 5], Returns (VStr "ace")).
Proof. vm_compute. reflexivity. Qed.



Section Reconciler.
Implicit Types (attrs live : list (string * string)) (name : string).

Lemma setAttribute_directives name value attrs :
  is_directive_name name = false ->
  directive_attributes (setAttribute name value attrs) = directive_attributes attrs.
Proof.
  intros Hname. unfold directive_attributes, setAttribute.
  induction attrs as [|[k w] rest IH]; simpl.
  - rewrite filter_cons_False, filter_nil; [done|]. simpl. rewrite Hname. exact id.
  - destruct (String.eqb k name) eqn:E.
    + apply String.eqb_eq in E. subst k.
      rewrite !filter_cons_False; [done| |]; simpl; rewrite Hname; exact id.
    + rewrite !filter_cons, IH. done.
Qed.

Lemma removeAttribute_directives name attrs :
  is_directive_name name = false ->
  directive_attributes (removeAttribute name attrs) = directive_attributes attrs.
Proof.
  intros Hname. unfold directive_attributes, removeAttribute.
  induction attrs as [|[k w] rest IH]; [done|].
  destruct (decide (k = name)) as [->|Hk].
  - rewrite filter_cons_False by (simpl; tauto).
    rewrite (filter_cons_False _ (name, w)); [done|]. simpl. rewrite Hname. exact id.
  - rewrite filter_cons_True by done. rewrite !filter_cons, IH. done.
Qed.

Lemma copy_new_attributes_directives newAttributes live :
  directive_attributes (copy_new_attributes newAttributes live) = directive_attributes live.
Proof.
  unfold copy_new_attributes. revert live.
  induction newAttributes as [|[n v] rest IH]; intros live; simpl; [done|].
  rewrite IH. destruct (is_directive_name n) eqn:Hn; [done|].
  case_bool_decide; [|done]. by apply setAttribute_directives.
Qed.

Lemma drop_old_attributes_fold newAttributes (snapshot live : list (string * string)) :
  directive_attributes
    (fold_left (fun acc attr =>
                  if is_directive_name attr.1 then acc
                  else if hasAttribute newAttributes attr.1 then acc
                       else removeAttribute attr.1 acc) snapshot live)
  = directive_attributes live.
Proof.
  revert live. induction snapshot as [|[n v] rest IH]; intros live; simpl; [done|].
  rewrite IH. destruct (is_directive_name n) eqn:Hn; [done|].
  destruct (hasAttribute newAttributes n); [done|]. by apply removeAttribute_directives.
Qed.

Lemma diff_attributes_directives oldAttributes newAttributes :
  directive_attributes (diff_attributes oldAttributes newAttributes)
  = directive_attributes oldAttributes.
Proof.
  unfold diff_attributes, drop_old_attributes.
  by rewrite drop_old_attributes_fold, copy_new_attributes_directives.
Qed.

Lemma getAttribute_directives attrs name :
  is_directive_name name = true ->
  getAttribute (directive_attributes attrs) name = getAttribute attrs name.
Proof.
  intros Hname. unfold getAttribute, directive_attributes.
  induction attrs as [|[k w] rest IH]; [done|].
  rewrite filter_cons. simpl. destruct (String.eqb k name) eqn:E.
  - apply String.eqb_eq in E. subst k. rewrite decide_True by (simpl; by rewrite Hname).
    simpl. by rewrite String.eqb_refl.
  - case_decide; simpl; [by rewrite E|done].
Qed.
End Reconciler.

(** C1, amended.  When a live element is diffed against a new element of
    the same name, the attributes whose name starts with [@] or [#] are
    exactly what they were, in order and value: none is overwritten from the
    new node and none is removed for being absent from it.  The position
    marker [data-potion-key] is not one of them. *)
Theorem diffNodes_keeps_directive_attributes
    tagName oldAttributes oldChildren newAttributes newChildren :
  exists attributes' children',
    diffNodes (Element tagName oldAttributes oldChildren)
              (Element tagName newAttributes newChildren)
    = Element tagName attributes' children'
    /\ directive_attributes attributes' = directive_attributes oldAttributes
    /\ forall name, is_directive_name name = true ->
         getAttribute attributes' name = getAttribute oldAttributes name.
Proof.
  eexists _, _. split; [|split].
  - simpl. rewrite String.eqb_refl. simpl. reflexivity.
  - apply diff_attributes_directives.
  - intros name Hname.
    rewrite <- (getAttribute_directives (diff_attributes _ _)) by done.
    rewrite diff_attributes_directives. by apply getAttribute_directives.
Qed.

(** C1 as stated fails: the position marker of a live [li] is overwritten
    with the identifier of the new render. *)
Lemma position_marker_not_kept :
  ~ (forall tagName oldAttributes oldChildren newAttributes newChildren name,
       spec_protected_name name = true ->
       getAttribute
         (attributes_of (diffNodes (Element tagName oldAttributes oldChildren)
                                   (Element tagName newAttributes newChildren))) name
       = getAttribute oldAttributes name).
Proof.
  intros H.
  specialize (H "LI" [("data-potion-key", "potion_0"); ("@click", "select(id)")] []
                [("data-potion-key", "potion_2")] [] "data-potion-key" eq_refl).
  vm_compute in H. discriminate H.
Qed.


Section Wrapper.

Lemma change_count_app onChange (events more : list event) :
  change_count onChange (events ++ more)
  = change_count onChange events + change_count onChange more.
Proof.
  induction events as [|[target prop v|c] rest IH]; simpl; [done|done|].
  rewrite IH. lia.
Qed.

End Wrapper.

(** The [set] handler over a plain object.  A write through a wrapper of
    a plain object performs the write on the target and then calls the
    change callback once when the written value is not strictly equal to the
    current value of the property, and not at all when it is. *)
Theorem set_trap_notifies (w : world) (proxy target : loc) (onChange : nat)
    (maxDepth : option nat) (currentDepth : nat) (props : list (string * jsval))
    (prop : string) (value : jsval) (fuel : nat) :
  heap w !! proxy = Some (Proxy target onChange maxDepth currentDepth) ->
  heap w !! target = Some (Plain props) ->
  has_key prop props || negb (is_object_prototype_member prop) = true ->
  prop <> "__proto__" ->
  exists w',
    js_set (S (S fuel)) proxy prop value w = Some (true, w')
    /\ heap w' = <[target := Plain (assoc_set prop value props)]> (heap w)
    /\ trace w' = trace w ++ Write target prop value ::
                    (if strict_equal (current_value props prop) value
                     then [] else [Change onChange])
    /\ change_count onChange (trace w')
       = change_count onChange (trace w)
         + (if strict_equal (current_value props prop) value then 0 else 1).
Proof.
  intros Hproxy Htarget Hread Hproto.
  assert (Hneq : String.eqb prop "__proto__" = false).
  { destruct (String.eqb prop "__proto__") eqn:E; [|done].
    apply String.eqb_eq in E. congruence. }
  cbn [js_set]. rewrite Hproxy. cbn [js_get]. rewrite Htarget, Hread, Htarget, Hneq.
  destruct (strict_equal (current_value props prop) value) eqn:Heq; cbn [negb].
  - eexists. split; [reflexivity|]. cbn [heap trace]. split; [done|]. split; [done|].
    rewrite change_count_app. simpl. lia.
  - eexists. split; [reflexivity|]. cbn [heap trace]. split; [done|].
    split; [by rewrite <- app_assoc|].
    rewrite !change_count_app. simpl. rewrite Nat.eqb_refl. lia.
Qed.

(** Wrapping [{a: 1}] and setting [a] to 2. *)
Lemma set_trap_notifies_witness :
  exists w',
    js_set 2 1 "a" (JNum 2) wrapped_a1 = Some (true, w')
    /\ heap w' = <[0 := Plain (assoc_set "a" (JNum 2) [("a", JNum 1)])]> (heap wrapped_a1)
    /\ trace w' = trace wrapped_a1 ++ Write 0 "a" (JNum 2) ::
                    (if strict_equal (current_value [("a", JNum 1)] "a") (JNum 2)
                     then [] else [Change 7])
    /\ change_count 7 (trace w')
       = change_count 7 (trace wrapped_a1)
         + (if strict_equal (current_value [("a", JNum 1)] "a") (JNum 2) then 0 else 1).
Proof.
  apply (set_trap_notifies wrapped_a1 1 0 7 None 0 [("a", JNum 1)] "a" (JNum 2) 0).
  - reflexivity.
  - reflexivity.
  - reflexivity.
  - discriminate.
Defined.

(** Setting [a] to 1 again: no call. *)
Example wrap_then_set_same :
  (fun r => match r with Some (_, w') => Some (change_count 7 (trace w')) | None => None end)
    (js_set 2 1 "a" (JNum 1) wrapped_a1) = Some 0.
Proof. vm_compute. reflexivity. Qed.

(** Setting [a] to 2: the write, then one call. *)
Example wrap_then_set_other :
  (fun r => match r with Some (_, w') => Some (trace w') | None => None end)
    (js_set 2 1 "a" (JNum 2) wrapped_a1) = Some [Write 0 "a" (JNum 2); Change 7].
Proof. vm_compute. reflexivity. Qed.


(** * Strings *)
Section StringFacts.
Implicit Types (s t : string) (c : ascii).

Lemma app_cons c s t : String c s +:+ t = String c (s +:+ t).
Proof. reflexivity. Qed.

Lemma app_empty_l t : "" +:+ t = t.
Proof. reflexivity. Qed.

Lemma app_empty_r s : s +:+ "" = s.
Proof. induction s as [|c s IH]; [done|]. by rewrite app_cons, IH. Qed.

Lemma app_assoc_string s t u : (s +:+ t) +:+ u = s +:+ (t +:+ u).
Proof. induction s as [|c s IH]; [done|]. by rewrite !app_cons, IH. Qed.

Lemma length_app s t : String.length (s +:+ t) = String.length s + String.length t.
Proof. induction s as [|c s IH]; [done|]. rewrite app_cons. simpl. by rewrite IH. Qed.

Lemma skip_spaces_length s : String.length (skip_spaces s) <= String.length s.
Proof.
  induction s as [|c s IH]; simpl; [lia|].
  destruct (is_space c); simpl; lia.
Qed.

Lemma span_app p s : (span p s).1 +:+ (span p s).2 = s.
Proof.
  induction s as [|c s IH]; simpl; [done|].
  destruct (p c); [|done]. destruct (span p s) as [taken remaining].
  simpl in *. by rewrite app_cons, IH.
Qed.

Lemma span_length p s :
  String.length (span p s).1 + String.length (span p s).2 = String.length s.
Proof. by rewrite <- length_app, span_app. Qed.

Lemma remove_spaces_app s t : remove_spaces (s +:+ t) = remove_spaces s +:+ remove_spaces t.
Proof.
  induction s as [|c s IH]; [done|]. rewrite app_cons. simpl.
  destruct (is_space c); by rewrite IH.
Qed.

Lemma remove_spaces_skip s : remove_spaces (skip_spaces s) = remove_spaces s.
Proof. induction s as [|c s IH]; simpl; [done|]. destruct (is_space c) eqn:E; simpl; by rewrite ?E. Qed.
End StringFacts.

(** * The tokenizer *)
Section Tokenizer.
Implicit Types (s flag name rest before : string).

(** What a match consumes: the serialized token is no longer than the
    matched text, and differs from it by white space only. *)
Lemma match_token_spec s flag name rest :
  match_token s = Some (flag, name, rest) ->
  String.length (token_text (Token flag name)) + String.length rest <= String.length s
  /\ remove_spaces s = remove_spaces (token_text (Token flag name)) +:+ remove_spaces rest.
Proof.
  unfold match_token.
  destruct s as [|c0 s1]; [done|].
  destruct (Ascii.eqb_spec c0 "[") as [->|Hc0]; [|by destruct c0 as [[] [] [] [] [] [] [] []]].
  change (match "["%char with "["%char => ?a | _ => _ end) with a.
  pose proof (skip_spaces_length s1) as L1.
  pose proof (remove_spaces_skip s1) as N1.
  set (s2 := skip_spaces s1) in *.
  set (fs := match s2 with
             | String c r =>
                 if Ascii.eqb c "!" || Ascii.eqb c "/" then (String c EmptyString, r)
                 else (EmptyString, s2)
             | EmptyString => (EmptyString, s2)
             end).
  assert (Hfs : fs.1 +:+ fs.2 = s2).
  { subst fs. destruct s2 as [|c r]; [done|]. by destruct (Ascii.eqb c "!" || Ascii.eqb c "/"). }
  destruct fs as [f s3]. simpl in Hfs.
  pose proof (skip_spaces_length s3) as L3.
  pose proof (remove_spaces_skip s3) as N3.
  destruct (skip_spaces s3) as [|c r] eqn:E4; [done|].
  destruct (is_name_start c) eqn:Hc; [|done].
  pose proof (span_app is_name_char r) as A5.
  destruct (span is_name_char r) as [more s5]. simpl in A5.
  pose proof (skip_spaces_length s5) as L5.
  pose proof (remove_spaces_skip s5) as N5.
  destruct (skip_spaces s5) as [|c6 rest'] eqn:E6; [done|].
  destruct (Ascii.eqb_spec c6 "]") as [->|Hc6]; [|by destruct c6 as [[] [] [] [] [] [] [] []]].
  intros [= <- <- <-].
  assert (Hlen : String.length s2 = String.length f + String.length s3)
    by (by rewrite <- Hfs, length_app).
  assert (Hr : String.length r = String.length more + String.length s5)
    by (by rewrite <- A5, length_app).
  split.
  - unfold token_text, settings_start, settings_end.
    rewrite !length_app. simpl in *. lia.
  - unfold token_text, settings_start, settings_end.
    change (remove_spaces (String "[" s1)) with (String "["%char (remove_spaces s1)).
    rewrite <- N1, <- Hfs, !remove_spaces_app, <- N3.
    rewrite <- A5. change (String c (more +:+ s5)) with (String c more +:+ s5).
    rewrite remove_spaces_app, <- N5.
    change (remove_spaces (String "]" rest')) with ("]" +:+ remove_spaces rest').
    change (remove_spaces "[") with "[". change (remove_spaces "]") with "]".
    rewrite !app_assoc_string. reflexivity.
Qed.

Lemma exec_spec s before flag name rest :
  exec s = Some (before, flag, name, rest) ->
  String.length before + String.length (token_text (Token flag name)) + String.length rest
    <= String.length s
  /\ remove_spaces s
     = remove_spaces before +:+ remove_spaces (token_text (Token flag name))
         +:+ remove_spaces rest.
Proof.
  revert before. induction s as [|c s IH]; intros before; cbn [exec].
  - done.
  - destruct (match_token (String c s)) as [[[f n] r]|] eqn:Hm.
    + intros [= <- <- <- <-]. apply match_token_spec in Hm as [Hl Hr].
      cbn [String.length remove_spaces] in *. split; [lia|done].
    + destruct (exec s) as [[[[b f] n] r]|]; [|done].
      intros [= <- <- <- <-]. destruct (IH b eq_refl) as [Hl Hr].
      cbn [String.length remove_spaces]. split; [lia|].
      rewrite Hr. by destruct (is_space c).
Qed.

Lemma static_weight s : s <> "" -> tokens_weight [Static s] = String.length s.
Proof.
  destruct s; [done|]. intros _.
  unfold tokens_weight, token_weight. cbn [fold_right token_text String.length]. lia.
Qed.

Lemma token_weight_length flag name :
  token_weight (Token flag name) = String.length (token_text (Token flag name)).
Proof.
  unfold token_weight, token_text, settings_start, settings_end.
  rewrite !length_app. cbn [String.length]. lia.
Qed.

Lemma tokens_weight_cons tok (l : list token) :
  tokens_weight (tok :: l) = token_weight tok + tokens_weight l.
Proof. reflexivity. Qed.

Lemma tokens_weight_app (l1 l2 : list token) :
  tokens_weight (l1 ++ l2) = tokens_weight l1 + tokens_weight l2.
Proof.
  induction l1 as [|t l1 IH]; [done|].
  rewrite <- app_comm_cons, !tokens_weight_cons, IH. lia.
Qed.

Lemma token_text_length flag name :
  String.length (token_text (Token flag name)) = 2 + String.length flag + String.length name.
Proof.
  unfold token_text, settings_start, settings_end.
  rewrite !length_app. cbn [String.length]. lia.
Qed.

Lemma tokenize_loop_weight fuel s :
  tokens_weight (tokenize_loop fuel s) <= String.length s.
Proof.
  revert s. induction fuel as [|fuel IH]; intros s; cbn [tokenize_loop].
  - unfold tokens_weight. simpl. lia.
  - destruct (exec s) as [[[[before flag] name] rest]|] eqn:He.
    + apply exec_spec in He as [Hl _]. specialize (IH rest).
      rewrite tokens_weight_app, tokens_weight_cons, token_weight_length.
      destruct before as [|c b].
      * unfold tokens_weight at 1. cbn [fold_right String.length] in *. lia.
      * rewrite static_weight by done. lia.
    + destruct s as [|c s'].
      * unfold tokens_weight. simpl. lia.
      * rewrite static_weight by done. lia.
Qed.

Lemma tokenizeTemplate_weight template :
  tokens_weight (tokenizeTemplate template) <= String.length template.
Proof. apply tokenize_loop_weight. Qed.

Lemma tokenize_loop_fuel fuel1 fuel2 s :
  String.length s < fuel1 -> String.length s < fuel2 ->
  tokenize_loop fuel1 s = tokenize_loop fuel2 s.
Proof.
  revert fuel2 s. induction fuel1 as [|fuel1 IH]; intros fuel2 s H1 H2; [lia|].
  destruct fuel2 as [|fuel2]; [lia|]. simpl.
  destruct (exec s) as [[[[before flag] name] rest]|] eqn:He; [|done].
  apply exec_spec in He as [Hl _].
  pose proof (token_text_length flag name).
  f_equal. f_equal. apply IH; lia.
Qed.

Lemma inner_template_app (l1 l2 : list token) :
  inner_template (l1 ++ l2) = inner_template l1 +:+ inner_template l2.
Proof.
  induction l1 as [|t l1 IH]; simpl; [done|]. by rewrite IH, app_assoc_string.
Qed.

Lemma tokenize_loop_text fuel s :
  String.length s < fuel ->
  remove_spaces (inner_template (tokenize_loop fuel s)) = remove_spaces s.
Proof.
  revert s. induction fuel as [|fuel IH]; intros s Hf; [lia|]. simpl.
  destruct (exec s) as [[[[before flag] name] rest]|] eqn:He.
  - apply exec_spec in He as [Hl Hr].
    pose proof (token_text_length flag name).
    rewrite inner_template_app, remove_spaces_app. simpl inner_template at 2.
    rewrite remove_spaces_app, IH by lia. rewrite Hr.
    destruct before; simpl; [done|].
    rewrite app_empty_r. done.
  - destruct s; simpl; [done|]. by rewrite app_empty_r.
Qed.
End Tokenizer.

(** C7, amended.  Tokenization returns for every template.  When nothing
    matches, a template that is not empty gives one static segment holding
    all of it, and the empty template gives no segment.  The segments put
    back together are the template up to the white space inside matched
    tokens, so every unmatched delimiter is still there as text.  The loop
    is never cut short by its fuel. *)
Theorem tokenizeTemplate_no_match template :
  (exec template = None -> template <> "" -> tokenizeTemplate template = [Static template])
  /\ tokenizeTemplate "" = []
  /\ remove_spaces (inner_template (tokenizeTemplate template)) = remove_spaces template
  /\ (forall fuel, String.length template < fuel ->
        tokenize_loop fuel template = tokenizeTemplate template).
Proof.
  split; [|split; [|split]].
  - intros He Hne. unfold tokenizeTemplate. simpl. rewrite He. by destruct template.
  - reflexivity.
  - apply tokenize_loop_text. lia.
  - intros fuel Hf. apply tokenize_loop_fuel; lia.
Qed.

(** C7 as stated fails on the empty template. *)
Lemma empty_template_no_segment :
  ~ (forall template, exec template = None -> tokenizeTemplate template = [Static template]).
Proof. intros H. specialize (H "" eq_refl). discriminate H. Qed.

(** * The substitution engine *)
Section Engine.
Implicit Types (st : state) (tokens inner after : list token) (name template : string).

Lemma getTokens_cached template st :
  cache_ok st ->
  (getTokens template st).1 = Ok (tokenizeTemplate template)
  /\ cache_ok (getTokens template st).2
  /\ uniqueCounter (getTokens template st).2 = uniqueCounter st
  /\ localContexts (getTokens template st).2 = localContexts st.
Proof.
  intros Hc. unfold getTokens.
  destruct (tokenCache st !! template) as [tokens|] eqn:E; cbn [fst snd].
  - by rewrite (Hc _ _ E).
  - split; [done|]. split; [|done].
    intros t toks. cbn [tokenCache]. rewrite lookup_insert.
    case_decide as Ht; [|by apply Hc]. subst t. by intros [= <-].
Qed.

Lemma find_closing_some name tokens inner after :
  find_closing name tokens = (inner, Some after) ->
  tokens = inner ++ Token "/" name :: after.
Proof.
  revert inner. induction tokens as [|tok rest IH]; intros inner; cbn [find_closing]; [done|].
  destruct tok as [text|flag value].
  - destruct (find_closing name rest) as [inner' after'].
    intros [= <- ->]. by rewrite (IH inner' eq_refl).
  - destruct (String.eqb flag "/" && String.eqb value name) eqn:E.
    + intros [= <- <-]. apply andb_prop in E as [E1 E2].
      apply String.eqb_eq in E1, E2. by subst.
    + destruct (find_closing name rest) as [inner' after'].
      intros [= <- ->]. by rewrite (IH inner' eq_refl).
Qed.

Lemma inner_template_length tokens :
  String.length (inner_template tokens) <= tokens_weight tokens.
Proof.
  induction tokens as [|tok rest IH]; [done|].
  rewrite tokens_weight_cons. cbn [inner_template fold_right].
  fold (inner_template rest). rewrite length_app. unfold token_weight. lia.
Qed.

Lemma token_weight_pos tok : 1 <= token_weight tok.
Proof. unfold token_weight. lia. Qed.
End Engine.

(** Two runs of the engine whose states are related step by step. *)
Section Related.
Variable R : state -> state -> Prop.
Hypothesis R_cache : forall st1 st2, R st1 st2 -> cache_ok st1 /\ cache_ok st2.
Hypothesis R_getTokens : forall template st1 st2,
  R st1 st2 -> R (getTokens template st1).2 (getTokens template st2).2.
Hypothesis R_register : forall loopData st1 st2,
  R st1 st2 ->
  (register_context loopData st1).1 = (register_context loopData st2).1
  /\ R (register_context loopData st1).2 (register_context loopData st2).2.

Local Abbreviation related := (Parser.related R).

Lemma related_ret {A} (Q : A -> Prop) (a : A) : Q a -> related Q (ret a) (ret a).
Proof. intros Ha st1 st2 HR. cbn. repeat split; try done. by intros ? [= <-]. Qed.

Lemma related_lift {A} (o : outcome A) : related (fun _ => True) (lift o) (lift o).
Proof. intros st1 st2 HR. destruct o; cbn; done. Qed.

Lemma related_bind {A B} (Q : A -> Prop) (Q' : B -> Prop) (m1 m2 : M A) (k1 k2 : A -> M B) :
  related Q m1 m2 ->
  (forall a, Q a -> related Q' (k1 a) (k2 a)) ->
  related Q' (bind m1 k1) (bind m2 k2).
Proof.
  intros Hm Hk st1 st2 HR. destruct (Hm st1 st2 HR) as (Heq & Hfuel & HR' & HQ).
  unfold bind. destruct (m1 st1) as [r1 st1'], (m2 st2) as [r2 st2'].
  cbn [fst snd] in *. subst r2. destruct r1 as [a|e|].
  - exact (Hk a (HQ a eq_refl) st1' st2' HR').
  - cbn [fst snd]. repeat split; [done|done|]. intros b [=].
  - done.
Qed.

Lemma related_getTokens template :
  related (fun tokens => tokens = tokenizeTemplate template)
          (getTokens template) (getTokens template).
Proof.
  intros st1 st2 HR. destruct (R_cache _ _ HR) as [Hc1 Hc2].
  destruct (getTokens_cached template st1 Hc1) as (E1 & _).
  destruct (getTokens_cached template st2 Hc2) as (E2 & _).
  rewrite E1, E2. repeat split; try done; [by apply R_getTokens|by intros ? [= <-]].
Qed.

Lemma related_register loopData :
  related (fun _ => True) (register_context loopData) (register_context loopData).
Proof.
  intros st1 st2 HR. destruct (R_register loopData _ _ HR) as [Heq HR'].
  repeat split; done.
Qed.

Section Blocks.
Variables (f g : string -> value -> M string) (innerTemplate : string).
Hypothesis Hfg : forall data, related (fun _ => True) (f innerTemplate data) (g innerTemplate data).

Lemma related_render_entry substituted key :
  related (fun _ => True) (render_entry f innerTemplate substituted key)
          (render_entry g innerTemplate substituted key).
Proof.
  unfold render_entry.
  eapply related_bind; [apply related_lift|]. intros own _.
  destruct own; [|by apply related_ret].
  eapply related_bind; [apply Hfg|]. intros rendered _.
  eapply related_bind; [apply related_register|]. intros uniqueId _.
  by apply related_ret.
Qed.

Lemma related_render_entries substituted keys :
  related (fun _ => True) (render_entries f innerTemplate substituted keys)
          (render_entries g innerTemplate substituted keys).
Proof.
  induction keys as [|key rest IH]; cbn [render_entries]; [by apply related_ret|].
  eapply related_bind; [apply related_render_entry|]. intros block _.
  eapply related_bind; [apply IH|]. intros others _. by apply related_ret.
Qed.

Lemma related_render_block substituted data :
  related (fun _ => True) (render_block f innerTemplate substituted data)
          (render_block g innerTemplate substituted data).
Proof.
  unfold render_block.
  destruct (String.eqb (typeof substituted) "boolean").
  - destruct (truthy substituted); [apply Hfg|by apply related_ret].
  - destruct (String.eqb (typeof substituted) "object");
      [apply related_render_entries|apply related_lift].
Qed.
End Blocks.

Lemma related_substitute_loop fuel1 fuel2 filters template tokens data :
  tokens_weight tokens < fuel1 -> tokens_weight tokens < fuel2 ->
  related (fun _ => True) (substitute_loop fuel1 filters template tokens data)
          (substitute_loop fuel2 filters template tokens data).
Proof.
  revert fuel2 template tokens data.
  induction fuel1 as [|fuel1 IH]; intros fuel2 template tokens data H1 H2; [lia|].
  destruct fuel2 as [|fuel2]; [lia|]. cbn [substitute_loop].
  destruct tokens as [|[text|flag value] rest]; [by apply related_ret| |].
  - rewrite tokens_weight_cons in H1, H2. pose proof (token_weight_pos (Static text)).
    eapply related_bind; [apply IH; lia|]. intros out _. by apply related_ret.
  - rewrite tokens_weight_cons in H1, H2. pose proof (token_weight_pos (Token flag value)).
    destruct (String.eqb flag "/"); [apply IH; lia|].
    destruct (find_closing value rest) as [innerTokens [after|]] eqn:Hclose.
    + apply find_closing_some in Hclose. subst rest.
      rewrite tokens_weight_app, tokens_weight_cons in H1, H2.
      pose proof (token_weight_pos (Token "/" value)).
      pose proof (inner_template_length innerTokens).
      eapply related_bind.
      * apply related_render_block. intros inner_data.
        eapply related_bind; [apply related_getTokens|]. intros inner ->.
        pose proof (tokenizeTemplate_weight (inner_template innerTokens)).
        apply IH; lia.
      * intros block _. eapply related_bind; [apply IH; lia|].
        intros out _. by apply related_ret.
    + eapply related_bind; [apply related_lift|]. intros text _.
      eapply related_bind; [apply IH; lia|]. intros out _. by apply related_ret.
Qed.

Lemma related_substitute_fuel fuel1 fuel2 filters template data :
  String.length template < fuel1 -> String.length template < fuel2 ->
  related (fun _ => True) (substitute_fuel fuel1 filters template data)
          (substitute_fuel fuel2 filters template data).
Proof.
  intros H1 H2. unfold substitute_fuel.
  eapply related_bind; [apply related_getTokens|]. intros tokens ->.
  pose proof (tokenizeTemplate_weight template).
  apply related_substitute_loop; lia.
Qed.
End Related.

(** A property of the state that the engine keeps. *)
Section Invariant.
Variable P : state -> Prop.
Hypothesis P_getTokens : forall template st, P st -> P (getTokens template st).2.
Hypothesis P_register : forall loopData st, P st -> P (register_context loopData st).2.

Local Abbreviation same_state := (Parser.same_state P).

Lemma same_state_cache st1 st2 : same_state st1 st2 -> cache_ok st1 /\ cache_ok st2.
Proof. by intros (-> & Hc & _). Qed.

Lemma same_state_getTokens template st1 st2 :
  same_state st1 st2 -> same_state (getTokens template st1).2 (getTokens template st2).2.
Proof.
  intros (-> & Hc & HP). split; [done|]. split; [|by apply P_getTokens].
  by apply getTokens_cached.
Qed.

Lemma same_state_register loopData st1 st2 :
  same_state st1 st2 ->
  (register_context loopData st1).1 = (register_context loopData st2).1
  /\ same_state (register_context loopData st1).2 (register_context loopData st2).2.
Proof.
  intros (-> & Hc & HP). split; [done|]. split; [done|]. split; [|by apply P_register].
  exact Hc.
Qed.

(** With fuel above the weight of the tokens the loop does not depend on
    the fuel, does not run out of it, and keeps the invariant. *)
Lemma substitute_loop_adequate fuel1 fuel2 filters template tokens data st :
  tokens_weight tokens < fuel1 -> tokens_weight tokens < fuel2 ->
  cache_ok st -> P st ->
  substitute_loop fuel1 filters template tokens data st
  = substitute_loop fuel2 filters template tokens data st
  /\ (substitute_loop fuel1 filters template tokens data st).1 <> OutOfFuel
  /\ cache_ok (substitute_loop fuel1 filters template tokens data st).2
  /\ P (substitute_loop fuel1 filters template tokens data st).2.
Proof.
  intros H1 H2 Hc HP.
  destruct (related_substitute_loop same_state same_state_cache same_state_getTokens
              same_state_register fuel1 fuel2 filters template tokens data H1 H2 st st)
    as (Hr & Hfuel & (Hs & Hc' & HP') & _); [done|].
  split; [|done].
  destruct (substitute_loop fuel1 filters template tokens data st),
           (substitute_loop fuel2 filters template tokens data st).
  cbn [fst snd] in *. congruence.
Qed.

Lemma substitute_fuel_adequate fuel1 fuel2 filters template data st :
  String.length template < fuel1 -> String.length template < fuel2 ->
  cache_ok st -> P st ->
  substitute_fuel fuel1 filters template data st
  = substitute_fuel fuel2 filters template data st
  /\ (substitute_fuel fuel1 filters template data st).1 <> OutOfFuel
  /\ cache_ok (substitute_fuel fuel1 filters template data st).2
  /\ P (substitute_fuel fuel1 filters template data st).2.
Proof.
  intros H1 H2 Hc HP.
  destruct (related_substitute_fuel same_state same_state_cache same_state_getTokens
              same_state_register fuel1 fuel2 filters template data H1 H2 st st)
    as (Hr & Hfuel & (Hs & Hc' & HP') & _); [done|].
  split; [|done].
  destruct (substitute_fuel fuel1 filters template data st),
           (substitute_fuel fuel2 filters template data st).
  cbn [fst snd] in *. congruence.
Qed.

Lemma substitute_keeps filters template data st :
  cache_ok st -> P st ->
  (substitute filters template data st).1 <> OutOfFuel
  /\ cache_ok (substitute filters template data st).2
  /\ P (substitute filters template data st).2.
Proof.
  intros Hc HP. unfold substitute.
  by destruct (substitute_fuel_adequate (S (String.length template)) (S (String.length template))
              filters template data st) as (_ & ? & ? & ?); [lia|lia|done|done|].
Qed.

Lemma run_renders_keeps calls st :
  cache_ok st -> P st ->
  cache_ok (run_renders calls st) /\ P (run_renders calls st).
Proof.
  revert st. induction calls as [|[[filters template] data] calls IH]; intros st Hc HP; [done|].
  cbn [run_renders fold_left]. fold (run_renders calls).
  destruct (substitute_keeps filters template data st Hc HP) as (_ & Hc' & HP').
  by apply IH.
Qed.
End Invariant.

Section EngineFacts.
Implicit Types (st : state).

Lemma cache_ok_initial : cache_ok initial_state.
Proof. intros template tokens. cbn. by rewrite lookup_empty. Qed.

(** [substitute] never runs out of fuel, and keeps the cache sound. *)
Lemma substitute_total filters template data st :
  cache_ok st ->
  (substitute filters template data st).1 <> OutOfFuel
  /\ cache_ok (substitute filters template data st).2.
Proof.
  intros Hc.
  by destruct (substitute_keeps (fun _ => True) (fun _ _ _ => I) (fun _ _ _ => I)
              filters template data st Hc I) as (? & ? & _).
Qed.

Lemma substitute_fuel_substitute fuel filters template data st :
  cache_ok st -> String.length template < fuel ->
  substitute_fuel fuel filters template data st = substitute filters template data st.
Proof.
  intros Hc Hf. unfold substitute.
  by destruct (substitute_fuel_adequate (fun _ => True) (fun _ _ _ => I) (fun _ _ _ => I)
              fuel (S (String.length template)) filters template data st) as (? & _);
    [lia|lia|done|done|].
Qed.

Lemma substitute_loop_from fuel filters template tokens data st :
  cache_ok st -> tokens_weight tokens < fuel ->
  substitute_loop fuel filters template tokens data st
  = substitute_from filters template tokens data st.
Proof.
  intros Hc Hf. unfold substitute_from.
  by destruct (substitute_loop_adequate (fun _ => True) (fun _ _ _ => I) (fun _ _ _ => I)
              fuel (S (tokens_weight tokens)) filters template tokens data st) as (? & _);
    [lia|lia|done|done|].
Qed.

Lemma substitute_from_cache filters template tokens data st :
  cache_ok st -> cache_ok (substitute_from filters template tokens data st).2.
Proof.
  intros Hc. unfold substitute_from.
  by destruct (substitute_loop_adequate (fun _ => True) (fun _ _ _ => I) (fun _ _ _ => I)
              (S (tokens_weight tokens)) (S (tokens_weight tokens))
              filters template tokens data st) as (_ & _ & ? & _); [lia|lia|done|done|].
Qed.
End EngineFacts.

(** * Context identifiers *)
Section Identifiers.
Implicit Types (st : state) (n : N).

Lemma getTokens_frame template st :
  uniqueCounter (getTokens template st).2 = uniqueCounter st
  /\ localContexts (getTokens template st).2 = localContexts st.
Proof. unfold getTokens. by destruct (tokenCache st !! template). Qed.

Lemma potion_id_inj n m : potion_id n = potion_id m -> n = m.
Proof.
  unfold potion_id. intros H. apply (inj (String.app "potion_")) in H.
  by apply (inj pretty) in H.
Qed.

Lemma ids_below_succ n : ids_below (n + 1) = ids_below n ++ [potion_id n].
Proof.
  unfold ids_below. replace (N.to_nat (n + 1)) with (S (N.to_nat n)) by lia.
  rewrite seq_S, fmap_app. cbn [fmap list_fmap plus]. by rewrite N2Nat.id.
Qed.

Lemma potion_id_fresh n : potion_id n ∉ ids_below n.
Proof.
  unfold ids_below. intros Hin. apply list_elem_of_fmap in Hin as (i & Heq & Hi).
  apply potion_id_inj in Heq. apply elem_of_seq in Hi. lia.
Qed.

Lemma assoc_set_fresh_keys {A} key (v : A) (props : list (string * A)) :
  key ∉ props.*1 -> (assoc_set key v props).*1 = props.*1 ++ [key].
Proof.
  induction props as [|[k w] rest IH]; intros Hfresh; [done|].
  cbn [assoc_set]. cbn [fmap list_fmap fst] in Hfresh.
  apply not_elem_of_cons in Hfresh as [Hne Hrest].
  destruct (String.eqb k key) eqn:E.
  - apply String.eqb_eq in E. congruence.
  - cbn [fmap list_fmap fst]. fold (fst <$> assoc_set key v rest). fold (fst <$> rest).
    by rewrite IH.
Qed.

Lemma assoc_set_fresh {A} key (v : A) (props : list (string * A)) :
  key ∉ props.*1 -> assoc_set key v props = props ++ [(key, v)].
Proof.
  induction props as [|[k w] rest IH]; intros Hfresh; [done|].
  cbn [fmap list_fmap fst] in Hfresh. apply not_elem_of_cons in Hfresh as [Hne Hrest].
  cbn [assoc_set]. destruct (String.eqb k key) eqn:E.
  - apply String.eqb_eq in E. congruence.
  - by rewrite IH.
Qed.

Lemma register_context_ids loopData st :
  ids_ok st -> ids_ok (register_context loopData st).2.
Proof.
  unfold ids_ok. intros Hids. cbn.
  rewrite assoc_set_fresh_keys by (rewrite Hids; apply potion_id_fresh).
  by rewrite Hids, ids_below_succ.
Qed.

Lemma ids_ok_initial : ids_ok initial_state.
Proof. reflexivity. Qed.




(** What the run of renders keeps: the table holds the identifiers below
    the counter, and the counter has not gone below [low]. *)
Lemma run_renders_ids low calls st :
  cache_ok st -> ids_ok st -> (low <= uniqueCounter st)%N ->
  cache_ok (run_renders calls st)
  /\ ids_ok (run_renders calls st)
  /\ (low <= uniqueCounter (run_renders calls st))%N.
Proof.
  intros Hc Hids Hlow.
  apply (run_renders_keeps (fun s => ids_ok s /\ (low <= uniqueCounter s)%N)); [| |done|done].
  - intros template s [Hi Hl]. destruct (getTokens_frame template s) as [Ec El].
    unfold ids_ok. by rewrite Ec, El.
  - intros loopData s [Hi Hl]. split; [by apply register_context_ids|]. cbn. lia.
Qed.
End Identifiers.

Section Assigned.
Implicit Types (st : state).



End Assigned.


(** * Rendering twice *)
Section Twice.

Lemma same_counter_cache st1 st2 : same_counter st1 st2 -> cache_ok st1 /\ cache_ok st2.
Proof. by intros (? & ? & _). Qed.

Lemma same_counter_getTokens template st1 st2 :
  same_counter st1 st2 -> same_counter (getTokens template st1).2 (getTokens template st2).2.
Proof.
  intros (H1 & H2 & Hn).
  destruct (getTokens_cached template st1 H1) as (_ & ? & E1 & _).
  destruct (getTokens_cached template st2 H2) as (_ & ? & E2 & _).
  split; [done|]. split; [done|]. congruence.
Qed.

Lemma same_counter_register loopData st1 st2 :
  same_counter st1 st2 ->
  (register_context loopData st1).1 = (register_context loopData st2).1
  /\ same_counter (register_context loopData st1).2 (register_context loopData st2).2.
Proof.
  intros (H1 & H2 & Hn). cbn. rewrite Hn. split; [done|].
  split; [exact H1|]. split; [exact H2|]. done.
Qed.

(** The markup depends on the state through the counter only. *)
Lemma substitute_same_counter filters template data st1 st2 :
  same_counter st1 st2 ->
  (substitute filters template data st1).1 = (substitute filters template data st2).1
  /\ same_counter (substitute filters template data st1).2
                  (substitute filters template data st2).2.
Proof.
  intros HR. unfold substitute.
  by destruct (related_substitute_fuel same_counter same_counter_cache
              same_counter_getTokens same_counter_register
              (S (String.length template)) (S (String.length template))
              filters template data (Nat.lt_succ_diag_r _) (Nat.lt_succ_diag_r _)
              st1 st2 HR) as (? & _ & ? & _).
Qed.
End Twice.



(** A conditional block rendered twice in a row, and an iteration block over
    an object without entries: the counter stays where it was and the second
    markup is the first. *)
Example render_twice_examples :
  (substitute default_filters flag_template (VObj [("flag", VBool true)]) initial_state).1
  = Ok "yes"
  /\ (substitute default_filters flag_template (VObj [("flag", VBool true)])
        (substitute default_filters flag_template (VObj [("flag", VBool true)])
           initial_state).2).1
     = Ok "yes"
  /\ (substitute default_filters items_template (VObj [("items", VObj [])]) initial_state).1
     = Ok ""
  /\ (substitute default_filters items_template (VObj [("items", VObj [])])
        (substitute default_filters items_template (VObj [("items", VObj [])])
           initial_state).2).1
     = Ok "".
Proof. vm_compute. done. Qed.


(** * Blocks *)
Section BlockFacts.
Implicit Types (st : state) (inner post : list token) (name flag template : string).

Lemma find_closing_app name inner post :
  Token "/" name ∉ inner ->
  find_closing name (inner ++ Token "/" name :: post) = (inner, Some post).
Proof.
  induction inner as [|tok rest IH]; intros Hnot.
  - cbn [app find_closing]. by rewrite !String.eqb_refl.
  - apply not_elem_of_cons in Hnot as [Hne Hrest].
    rewrite <- app_comm_cons. cbn [find_closing]. rewrite (IH Hrest).
    destruct tok as [text|flag value]; [done|].
    destruct (String.eqb flag "/" && String.eqb value name) eqn:E; [|done].
    apply andb_prop in E as [E1 E2]. apply String.eqb_eq in E1, E2. by subst.
Qed.

Lemma flag_not_closing flag : flag <> "/" -> String.eqb flag "/" = false.
Proof.
  intros Hne. destruct (String.eqb flag "/") eqn:E; [|done].
  apply String.eqb_eq in E. congruence.
Qed.

Lemma render_block_fuel fuel filters innerTemplate substituted data st :
  cache_ok st -> String.length innerTemplate < fuel ->
  render_block (substitute_fuel fuel filters) innerTemplate substituted data st
  = render_block (substitute filters) innerTemplate substituted data st
  /\ (render_block (substitute filters) innerTemplate substituted data st).1 <> OutOfFuel
  /\ cache_ok (render_block (substitute filters) innerTemplate substituted data st).2.
Proof.
  intros Hc Hf.
  destruct (related_render_block (same_state no_invariant)
              (same_state_register no_invariant (fun _ _ _ => I))
              (substitute_fuel fuel filters) (substitute filters) innerTemplate
              (fun d => related_substitute_fuel (same_state no_invariant)
                          (same_state_cache no_invariant)
                          (same_state_getTokens no_invariant (fun _ _ _ => I))
                          (same_state_register no_invariant (fun _ _ _ => I))
                          fuel (S (String.length innerTemplate)) filters innerTemplate d
                          Hf (Nat.lt_succ_diag_r _))
              substituted data st st)
    as (Hr & Hfuel & (Hs & Hc' & _) & _); [by split|].
  destruct (render_block (substitute_fuel fuel filters) innerTemplate substituted data st)
    as [r1 s1],
    (render_block (substitute filters) innerTemplate substituted data st) as [r2 s2].
  cbn [fst snd] in *. subst. done.
Qed.

(** The loop at the opening token of a block: the block, then the tokens
    after its closing token. *)
Lemma substitute_from_block filters template flag name inner post data st :
  cache_ok st -> flag <> "/" -> Token "/" name ∉ inner ->
  substitute_from filters template (Token flag name :: inner ++ Token "/" name :: post) data st
  = (let* block := render_block (substitute filters) (inner_template inner)
                     (resolve filters name data template) data in
     let* out := substitute_from filters template post data in
     ret (block +:+ out)) st.
Proof.
  intros Hc Hflag Hnot. unfold substitute_from at 1.
  set (tokens := Token flag name :: inner ++ Token "/" name :: post).
  assert (Hw : tokens_weight tokens
               = token_weight (Token flag name) + tokens_weight inner
                 + token_weight (Token "/" name) + tokens_weight post).
  { subst tokens. rewrite tokens_weight_cons, tokens_weight_app, tokens_weight_cons. lia. }
  pose proof (token_weight_pos (Token flag name)).
  pose proof (token_weight_pos (Token "/" name)).
  pose proof (inner_template_length inner).
  subst tokens. cbn [substitute_loop].
  rewrite (flag_not_closing flag Hflag), (find_closing_app name inner post Hnot).
  set (W := tokens_weight (Token flag name :: inner ++ Token "/" name :: post)) in *.
  change (fun innerTemplate inner_data =>
            let* inner0 := getTokens innerTemplate in
            substitute_loop W filters innerTemplate inner0 inner_data)
    with (substitute_fuel W filters).
  unfold bind at 1 3.
  destruct (render_block_fuel W filters (inner_template inner)
              (resolve filters name data template) data st Hc) as (-> & _ & Hc'); [lia|].
  destruct (render_block (substitute filters) (inner_template inner)
              (resolve filters name data template) data st) as [[block|e|] st']; [|done|done].
  cbn [snd] in Hc'. unfold bind.
  by rewrite (substitute_loop_from W filters template post data st' Hc') by lia.
Qed.
End BlockFacts.

(** C5, amended.  Where the loop stands at the opening token of a block
    whose name resolves to a boolean, it adds the rendering of the inner
    template with the same data when the boolean is true and nothing when it
    is false, then goes on after the closing token.  So [[flag]yes[/flag]]
    renders [yes] under [{flag: true}] and nothing under [{flag: false}],
    and [[if.flag]yes[/if.flag]] does so under [{if: {flag: ...}}]. *)
Theorem conditional_block :
  (forall filters template flag name inner post data st (b : bool),
     cache_ok st ->
     flag <> "/" ->
     Token "/" name ∉ inner ->
     resolve filters name data template = VBool b ->
     substitute_from filters template
       (Token flag name :: inner ++ Token "/" name :: post) data st
     = (let* block := (if b then substitute filters (inner_template inner) data
                       else ret "") in
        let* out := substitute_from filters template post data in
        ret (block +:+ out)) st)
  /\ (substitute default_filters flag_template (VObj [("flag", VBool true)]) initial_state).1
     = Ok "yes"
  /\ (substitute default_filters flag_template (VObj [("flag", VBool false)]) initial_state).1
     = Ok ""
  /\ (substitute default_filters if_flag_template
        (VObj [("if", VObj [("flag", VBool true)])]) initial_state).1 = Ok "yes"
  /\ (substitute default_filters if_flag_template
        (VObj [("if", VObj [("flag", VBool false)])]) initial_state).1 = Ok "".
Proof.
  split.
  - intros filters template flag name inner post data st b Hc Hflag Hnot Hres.
    rewrite substitute_from_block by done. rewrite Hres. reflexivity.
  - vm_compute. done.
Qed.

(** The block [[flag]yes[/flag]] under [{flag: true}]. *)
Lemma conditional_block_witness :
  substitute_from default_filters flag_template
    (Token "" "flag" :: [Static "yes"] ++ Token "/" "flag" :: []) (VObj [("flag", VBool true)])
    initial_state
  = (let* block := (if true then substitute default_filters (inner_template [Static "yes"])
                                   (VObj [("flag", VBool true)])
                    else ret "") in
     let* out := substitute_from default_filters flag_template [] (VObj [("flag", VBool true)]) in
     ret (block +:+ out)) initial_state.
Proof.
  apply (proj1 conditional_block default_filters flag_template "" "flag" [Static "yes"] []
           (VObj [("flag", VBool true)]) initial_state true).
  - intros template tokens H. cbn in H. rewrite lookup_empty in H. discriminate H.
  - discriminate.
  - intros H. apply list_elem_of_singleton in H. discriminate H.
  - reflexivity.
Defined.

(** C5 as stated fails: under [{flag: true}] the name [if.flag] has no own
    key [if] to start from, resolves to the empty string, and the block
    renders nothing. *)
Lemma if_flag_renders_nothing :
  (substitute default_filters if_flag_template (VObj [("flag", VBool true)]) initial_state).1
  = Ok ""
  /\ (substitute default_filters if_flag_template (VObj [("flag", VBool true)]) initial_state).1
     <> Ok "yes".
Proof. vm_compute. split; [reflexivity|discriminate]. Qed.

(** C10.  A block whose name resolves to null goes to the iteration branch
    ([typeof null] is [object]), which has no key to visit: the block adds
    the empty string, and the loop goes on after the closing token in the
    same state. *)
Theorem null_block_renders_nothing filters template flag name inner post data st :
  cache_ok st ->
  flag <> "/" ->
  Token "/" name ∉ inner ->
  resolve filters name data template = VNull ->
  typeof VNull = "object"
  /\ own_enumerable_keys VNull = []
  /\ (forall substitute_inner,
        render_block substitute_inner (inner_template inner) VNull data st = (Ok "", st))
  /\ substitute_from filters template (Token flag name :: inner ++ Token "/" name :: post) data st
     = substitute_from filters template post data st.
Proof.
  intros Hc Hflag Hnot Hres. split; [reflexivity|]. split; [reflexivity|].
  split; [intros substitute_inner; reflexivity|].
  rewrite substitute_from_block by done. rewrite Hres.
  change (render_block (substitute filters) (inner_template inner) VNull data)
    with (ret (A := string) "").
  unfold bind, ret.
  by destruct (substitute_from filters template post data st) as [[out|e|] st'].
Qed.

(** The block [[a]x[/a]] under [{a: null}]. *)
Lemma null_block_renders_nothing_witness :
  typeof VNull = "object"
  /\ own_enumerable_keys VNull = []
  /\ (forall substitute_inner,
        render_block substitute_inner (inner_template [Static "x"]) VNull
          (VObj [("a", VNull)]) initial_state = (Ok "", initial_state))
  /\ substitute_from default_filters "[a]x[/a]"
       (Token "" "a" :: [Static "x"] ++ Token "/" "a" :: []) (VObj [("a", VNull)]) initial_state
     = substitute_from default_filters "[a]x[/a]" [] (VObj [("a", VNull)]) initial_state.
Proof.
  apply (null_block_renders_nothing default_filters "[a]x[/a]" "" "a" [Static "x"] []
           (VObj [("a", VNull)]) initial_state).
  - intros template tokens H. cbn in H. rewrite lookup_empty in H. discriminate H.
  - discriminate.
  - intros H. apply list_elem_of_singleton in H. discriminate H.
  - reflexivity.
Defined.

(** As a block null adds nothing; inline it prints as [null]. *)
Example null_block_example :
  (substitute default_filters "[a]x[/a]|[a]" (VObj [("a", VNull)]) initial_state).1
  = Ok "|null".
Proof. vm_compute. reflexivity. Qed.


(** * Code that misses what the specification promises *)

(** C3.  The [token] filter throws when the value reached before the last
    segment is null or undefined; on a number it returns the empty string,
    as it does for a missing key.  [substitute] catches the throw. *)
Theorem token_filter_throws_on_null :
  token_filter (VStr "pagination.next") [VObj [("pagination", VNull)]; VStr "[pagination.next]"]
  = Throws TypeError
  /\ applyFilter default_filters "token" (VStr "pagination.next")
       [VObj [("pagination", VNull)]; VStr "[pagination.next]"] = Throws TypeError
  /\ token_filter (VStr "a.b") [VObj [("a", VUndefined)]; VStr "[a.b]"] = Throws TypeError
  /\ token_filter (VStr "a.b") [VObj [("a", VNum 5)]; VStr "[a.b]"] = Returns (VStr "")
  /\ token_filter (VStr "a.b") [VObj []; VStr "[a.b]"] = Returns (VStr "")
  /\ resolve default_filters "pagination.next" (VObj [("pagination", VNull)]) "[pagination.next]"
     = VStr "".
Proof. vm_compute. done. Qed.

(** C8.  An identifier whose property is present but falsy comes back as
    the text of the identifier; a truthy property comes back as its value. *)
Theorem parseEventArgs_drops_falsy :
  parseEventArgs "count" [("count", VNum 0)] = Some (VStr "count")
  /\ parseEventArgs "done" [("done", VBool false)] = Some (VStr "done")
  /\ parseEventArgs "label" [("label", VStr "")] = Some (VStr "label")
  /\ parseEventArgs "count" [("count", VNum 7)] = Some (VNum 7)
  /\ parseEventArgs "count" [] = Some (VStr "count").
Proof. vm_compute. done. Qed.

(** Strict equality is equality of values, but for NaN, which is not equal
    to itself. *)
Lemma strict_equal_spec (a b : jsval) : strict_equal a b = true <-> a = b /\ a <> JNaN.
Proof.
  destruct a, b; cbn [strict_equal]; split;
    try (intros H; discriminate H);
    try (intros [H1 H2]; congruence).
  - done.
  - done.
  - intros H. apply Bool.eqb_prop in H. by subst.
  - intros [[= ->] _]. apply Bool.eqb_reflx.
  - intros H. apply Z.eqb_eq in H. by subst.
  - intros [[= ->] _]. apply Z.eqb_refl.
  - intros H. apply String.eqb_eq in H. by subst.
  - intros [[= ->] _]. apply String.eqb_refl.
  - intros H. apply Nat.eqb_eq in H. by subst.
  - intros [[= ->] _]. apply Nat.eqb_refl.
Qed.

(** When every function of the chain returns, the fold calls them all, in
    the order of the chain, and returns. *)
Lemma reduce_chain_returns chain result args :
  Forall (fun e : FilterEntry =>
            forall payload, exists v, fun_call e.1 payload args = Returns v) chain ->
  exists v, reduce_chain chain result args
            = ((fun e : FilterEntry => fun_id e.1) <$> chain, Returns v).
Proof.
  intros Hall. revert result.
  induction Hall as [|[fn prio] rest Hfn _ IH]; intros result; cbn [reduce_chain].
  - by exists result.
  - destruct (Hfn result) as [v Hv]. cbn [fst] in Hv. rewrite Hv.
    match goal with |- context [reduce_chain rest ?r args] => destruct (IH r) as [final ->] end.
    by exists final.
Qed.

Import Observation Misses.

(** C6.  A name that the registry object inherits from [Object.prototype]
    cannot be registered: [addFilter] finds the inherited member where it
    looks for the chain and throws on [push], although the name is a string
    and the filter a function.  The three registrations at priorities 5, 1
    and 3 leave no chain under [constructor], and [applyFilter] throws on
    that name without calling one of them; under [content] the same three
    functions are called in the order 1, 3, 5. *)
Theorem inherited_name_not_registered :
  addFilter "constructor" (mark_fn 5 "e") 5 [] = Throws TypeError
  /\ addFilter "toString" (mark_fn 1 "a") 1 default_filters = Throws TypeError
  /\ chain_of (register_all registrations_constructor []) "constructor" = []
  /\ applyFilter_calls (register_all registrations_constructor []) "constructor" (VStr "") []
     = ([], Throws TypeError)
  /\ applyFilter_calls (register_all registrations_5_1_3 []) "content" (VStr "") []
     = ([1; 3; 5], Returns (VStr "ace")).
Proof. vm_compute. done. Qed.

(** C4.  A wrapper that is stored in the data is wrapped again when it is
    read: the cache knows the wrapper of an object, not that an object is a
    wrapper.  After [p.user = p.user] the statement [p.user.name = "b"]
    goes through two [set] handlers, one inside the other, and the callback
    runs twice for the one write; without the first statement it runs once,
    and not at all when the value written is the one the property holds. *)
Theorem stored_wrapper_notifies_twice :
  set_user_name 4 2 (JStr "b") (wrapped_user None)
  = Some (3, [Write 1 "name" (JStr "b"); Change 7])
  /\ set_user_name 4 2 (JStr "a") (wrapped_user None)
     = Some (3, [Write 1 "name" (JStr "a")])
  /\ (trace <$> store_user_back 4 2 (wrapped_user None))
     = Some [Write 0 "user" (JRef 3); Change 7]
  /\ (store_user_back 4 2 (wrapped_user None) ≫= set_user_name 4 2 (JStr "b"))
     = Some (4, [Write 1 "name" (JStr "b"); Change 7; Change 7])
  /\ (store_user_back 4 2 (wrapped_user None) ≫= set_user_name 4 2 (JStr "a"))
     = Some (4, [Write 1 "name" (JStr "a")])
  /\ ((fun w => (heap w !! 3, heap w !! 4, proxyCache w !! 1, proxyCache w !! 3))
        <$> (store_user_back 4 2 (wrapped_user None)
               ≫= fun w => snd <$> js_get 4 2 "user" w))
     = Some (Some (Proxy 1 7 None 1), Some (Proxy 3 7 None 1), Some 3, Some 4).
Proof. vm_compute. done. Qed.

(** * Further properties of the code *)

(** X1.  From a state whose cache is sound, [substitute] returns markup or
    throws: the fuel it is given is never used up. *)
Theorem substitute_terminates filters template data st :
  cache_ok st ->
  (exists out st', substitute filters template data st = (Ok out, st'))
  \/ (exists e st', substitute filters template data st = (Thrown e, st')).
Proof.
  intros Hc. destruct (substitute_total filters template data st Hc) as [Hfuel _].
  destruct (substitute filters template data st) as [[out|e|] st']; [left|right|done]; eauto.
Qed.

(** The iteration example terminates. *)
Lemma substitute_terminates_witness :
  (exists out st', substitute default_filters items_template items_data initial_state = (Ok out, st'))
  \/ (exists e st', substitute default_filters items_template items_data initial_state
                    = (Thrown e, st')).
Proof.
  apply (substitute_terminates default_filters items_template items_data initial_state).
  intros template tokens H. cbn in H. rewrite lookup_empty in H. discriminate H.
Defined.

(** X2.  [getTokens] reads and fills [tokenCache]: on a hit it returns the
    cached entry and leaves the state as it is; on a miss it returns the
    tokenization of the template and stores it under the template text,
    leaving the other entries, the counter and the contexts alone.  Either
    way the cache then holds the returned tokens under the template text,
    and a second call returns them from there without changing the state. *)
Theorem getTokens_twice template st :
  let first := getTokens template st in
  (forall tokens, tokenCache st !! template = Some tokens -> first = (Ok tokens, st))
  /\ (tokenCache st !! template = None ->
        first.1 = Ok (tokenizeTemplate template)
        /\ tokenCache first.2 = <[template := tokenizeTemplate template]> (tokenCache st)
        /\ uniqueCounter first.2 = uniqueCounter st
        /\ localContexts first.2 = localContexts st)
  /\ (exists tokens,
        first.1 = Ok tokens
        /\ tokenCache first.2 !! template = Some tokens
        /\ getTokens template first.2 = (Ok tokens, first.2)).
Proof.
  intros first. subst first. unfold getTokens.
  destruct (tokenCache st !! template) as [tokens|] eqn:E; cbn [fst snd tokenCache].
  - split; [by intros ? [= <-]|]. split; [done|].
    exists tokens. rewrite E. done.
  - split; [done|]. split; [done|].
    exists (tokenizeTemplate template). rewrite lookup_insert_eq. done.
Qed.

(** The iteration example: two fragments in key order, marked
    [potion_0] and [potion_1], and both contexts in the table. *)
Theorem iteration_example :
  (substitute default_filters items_template items_data initial_state).1
  = Ok ("<li data-potion-key=" +:+ dquote +:+ "potion_0" +:+ dquote +:+ ">X</li>"
        +:+ "<li data-potion-key=" +:+ dquote +:+ "potion_1" +:+ dquote +:+ ">Y</li>")
  /\ (localContexts (substitute default_filters items_template items_data initial_state).2).*1
     = ["potion_0"; "potion_1"].
Proof. vm_compute. done. Qed.


Lemma assoc_defined key (props : list (string * value)) v :
  forallb (fun p => defined_throughout p.2) props = true ->
  assoc key props = Some v -> defined_throughout v = true.
Proof.
  induction props as [|[k w] rest IH]; cbn [assoc forallb]; [done|].
  intros H. apply andb_prop in H as [Hw Hrest].
  destruct (String.eqb k key); [by intros [= <-]|by apply IH].
Qed.

Lemma string_chars_length s : length (string_chars s) = String.length s.
Proof. induction s as [|c s IH]; simpl; [done|]. by rewrite IH. Qed.

Lemma get_own_defined v key :
  defined_throughout v = true ->
  hasOwnProperty_call v key = Returns true ->
  defined_throughout (get_own v key) = true.
Proof.
  destruct v as [| |b|n|s|items|props]; cbn [defined_throughout hasOwnProperty_call get_own];
    try done.
  - intros _ [= H]. destruct (String.eqb key "length"); [done|].
    destruct (array_index key) as [i|]; [|done]. cbn [orb] in H.
    apply bool_decide_eq_true in H. rewrite <- string_chars_length in H.
    apply lookup_lt_is_Some_2 in H as [c ->]. done.
  - intros Hall [= H]. destruct (String.eqb key "length"); [done|].
    destruct (array_index key) as [i|]; [|done]. cbn [orb] in H.
    apply bool_decide_eq_true in H.
    apply lookup_lt_is_Some_2 in H as [x Hx]. rewrite Hx.
    rewrite forallb_forall in Hall. apply Hall.
    apply list_elem_of_In. by eapply list_elem_of_lookup_2.
  - intros Hall [= H]. unfold has_key in H.
    destruct (assoc key props) as [x|] eqn:E; [|done].
    by eapply assoc_defined.
Qed.

Lemma token_lookup_defined path v :
  defined_throughout v = true -> exists r, token_lookup path v = Returns r.
Proof.
  revert v. induction path as [|segment rest IH]; intros v Hv; cbn [token_lookup]; [eauto|].
  destruct (hasOwnProperty_call v segment) as [[|]|e] eqn:E; cbn [outcome_bind]; [|eauto|].
  - apply IH. by apply get_own_defined.
  - destruct v; cbn in E; try done.
Qed.

Lemma token_lookup_descend path v v' :
  descend path v = Some v' -> token_lookup path v = Returns v'.
Proof.
  revert v. induction path as [|segment rest IH]; intros v; cbn [descend token_lookup].
  - by intros [= ->].
  - destruct (hasOwnProperty_call v segment) as [[|]|e]; [|done|done].
    cbn [outcome_bind]. apply IH.
Qed.

Lemma token_lookup_missing before segment rest v v' :
  descend before v = Some v' ->
  hasOwnProperty_call v' segment = Returns false ->
  token_lookup (before ++ segment :: rest) v = Returns (VStr "").
Proof.
  revert v. induction before as [|s before IH]; intros v; cbn [descend app token_lookup].
  - intros [= ->] Hown. by rewrite Hown.
  - destruct (hasOwnProperty_call v s) as [[|]|e]; [|done|done].
    cbn [outcome_bind]. apply IH.
Qed.

(** X3.  The [token] filter walks the path: it returns the value the path
    leads to, returns the empty string at the first segment that is not an
    own key of the value reached, and on data without null or undefined it
    never throws. *)
Theorem token_filter_walk (token : string) (data : value) (more : list value) :
  (forall v, descend (split_on "." token) data = Some v ->
     token_filter (VStr token) (data :: more) = Returns v)
  /\ (forall before segment rest v,
        split_on "." token = before ++ segment :: rest ->
        descend before data = Some v ->
        hasOwnProperty_call v segment = Returns false ->
        token_filter (VStr token) (data :: more) = Returns (VStr ""))
  /\ (defined_throughout data = true ->
        exists r, token_filter (VStr token) (data :: more) = Returns r).
Proof.
  split; [|split].
  - intros v Hv. by apply token_lookup_descend.
  - intros before segment rest v Hpath Hv Hown. cbn [token_filter]. rewrite Hpath.
    by eapply token_lookup_missing.
  - intros Hd. by apply token_lookup_defined.
Qed.


Lemma eqb_false_of_ne (s t : string) : s <> t -> String.eqb s t = false.
Proof.
  intros Hne. destruct (String.eqb s t) eqn:E; [|done].
  apply String.eqb_eq in E. congruence.
Qed.



Section Identical.
Implicit Types (attrs : list (string * string)).

Lemma assoc_NoDup {A} key (v : A) (props : list (string * A)) :
  NoDup props.*1 -> (key, v) ∈ props -> assoc key props = Some v.
Proof.
  induction props as [|[k w] rest IH]; intros Hnd Hin; [by apply elem_of_nil in Hin|].
  cbn [fmap list_fmap fst] in Hnd. apply NoDup_cons in Hnd as [Hk Hrest].
  cbn [assoc]. apply elem_of_cons in Hin as [[= <- <-]|Hin].
  - by rewrite String.eqb_refl.
  - destruct (String.eqb k key) eqn:E; [|by apply IH].
    apply String.eqb_eq in E. subst k. exfalso. apply Hk.
    apply list_elem_of_fmap. by exists (key, v).
Qed.

Lemma copy_same_attributes attrs (newAttributes : list (string * string)) :
  NoDup attrs.*1 -> newAttributes ⊆ attrs -> copy_new_attributes newAttributes attrs = attrs.
Proof.
  intros Hnd. unfold copy_new_attributes.
  induction newAttributes as [|[n v] rest IH]; intros Hsub; [done|].
  cbn [fold_left fst snd].
  assert (Hget : getAttribute attrs n = Some v).
  { apply assoc_NoDup; [done|]. apply Hsub. by left. }
  destruct (is_directive_name n).
  - apply IH. intros x Hx. apply Hsub. by right.
  - rewrite bool_decide_eq_false_2 by (by rewrite Hget; intros H; apply H).
    apply IH. intros x Hx. apply Hsub. by right.
Qed.

Lemma drop_same_attributes attrs (snapshot : list (string * string)) :
  snapshot ⊆ attrs ->
  fold_left (fun acc attr =>
               if is_directive_name attr.1 then acc
               else if hasAttribute attrs attr.1 then acc
                    else removeAttribute attr.1 acc) snapshot attrs = attrs.
Proof.
  induction snapshot as [|[n v] rest IH]; intros Hsub; [done|].
  cbn [fold_left fst].
  assert (Hhas : hasAttribute attrs n = true).
  { unfold hasAttribute, has_key.
    assert (Hin : (n, v) ∈ attrs) by (apply Hsub; by left).
    clear -Hin. induction attrs as [|[k w] l IHl]; [by apply elem_of_nil in Hin|].
    cbn [assoc]. destruct (String.eqb k n) eqn:E; [done|].
    apply elem_of_cons in Hin as [[= -> ->]|Hin]; [by rewrite String.eqb_refl in E|].
    by apply IHl. }
  rewrite Hhas. destruct (is_directive_name n); apply IH; intros x Hx; apply Hsub; by right.
Qed.

Lemma diff_same_attributes attrs : NoDup attrs.*1 -> diff_attributes attrs attrs = attrs.
Proof.
  intros Hnd. unfold diff_attributes, drop_old_attributes.
  rewrite copy_same_attributes by done. by apply drop_same_attributes.
Qed.
End Identical.

(** X5.  Diffing a tree against an identical tree changes nothing, when no
    element has two attributes of one name. *)
Theorem diffNodes_same (n : node) : well_formed n -> diffNodes n n = n.
Proof.
  revert n. fix IH 1. intros [tagName attributes childNodes|text|data] Hwf.
  - cbn [diffNodes nodeType nodeName attributes_of]. rewrite Nat.eqb_refl, String.eqb_refl.
    cbn [negb orb]. destruct Hwf as [Hnd Hkids].
    rewrite diff_same_attributes by done. f_equal.
    induction childNodes as [|child rest IHrest]; [done|].
    destruct Hkids as [Hchild Hrest]. f_equal; [by apply IH|by apply IHrest].
  - cbn [diffNodes nodeType nodeName]. rewrite Nat.eqb_refl, !String.eqb_refl. done.
  - cbn [diffNodes nodeType nodeName]. rewrite Nat.eqb_refl, !String.eqb_refl. done.
Qed.

(** A list diffed against itself. *)
Lemma diffNodes_same_witness : diffNodes sample_list sample_list = sample_list.
Proof.
  apply (diffNodes_same sample_list).
  cbn [well_formed sample_list].
  repeat split; apply (bool_decide_unpack _); vm_compute; exact I.
Defined.

Section Container.

Lemma copy_container_attributes (attrs acc : list (string * string)) :
  NoDup (acc.*1 ++ attrs.*1) ->
  fold_left (fun live attr => setAttribute attr.1 attr.2 live) attrs acc = acc ++ attrs.
Proof.
  revert acc. induction attrs as [|[n v] rest IH]; intros acc Hnd; cbn [fold_left].
  - by rewrite app_nil_r.
  - cbn [fmap list_fmap fst snd] in *. unfold setAttribute at 2.
    rewrite assoc_set_fresh.
    + rewrite IH; [by rewrite <- app_assoc|].
      rewrite fmap_app. cbn [fmap list_fmap fst]. by rewrite <- app_assoc.
    + apply NoDup_app in Hnd as (_ & Hdisj & _). intros Hin.
      apply (Hdisj n Hin). by left.
Qed.
End Container.

(** X6.  When the parser gives back the wrapper, an element of the
    container's tag without attributes, [updateDOM] leaves the container its
    tag and its own attributes: only the children are patched.  When the
    parser gives back a text instead, the container is replaced by it if it
    has no attribute and [updateDOM] throws if it has one; when the parser
    gives back no node, [updateDOM] throws. *)
Theorem updateDOM_keeps_container tagName attributes childNodes parsed :
  NoDup attributes.*1 ->
  (exists children',
     updateDOM (Element tagName attributes childNodes) (Some (Element tagName [] parsed))
     = Returns (Element tagName attributes children'))
  /\ (forall text,
        updateDOM (Element tagName attributes childNodes) (Some (TextNode text))
        = match attributes with
          | [] => Returns (TextNode text)
          | _ :: _ => Throws TypeError
          end)
  /\ updateDOM (Element tagName attributes childNodes) None = Throws TypeError.
Proof.
  intros Hnd. split; [|split].
  - unfold updateDOM. cbn [nodeName attributes_of].
    rewrite (copy_container_attributes attributes []) by done.
    cbn [app diffNodes nodeType nodeName attributes_of].
    rewrite Nat.eqb_refl, String.eqb_refl. cbn [negb orb].
    rewrite diff_same_attributes by done. eauto.
  - intros text. unfold updateDOM. cbn [attributes_of]. by destruct attributes.
  - done.
Qed.

(** A mounted container whose text goes from 0 to 5. *)
Lemma updateDOM_keeps_container_witness :
  (exists children',
     updateDOM (Element "DIV" [("data-name", "index_box"); ("class", "honey")] [TextNode "0"])
               (Some (Element "DIV" [] [TextNode "5"]))
     = Returns (Element "DIV" [("data-name", "index_box"); ("class", "honey")] children'))
  /\ (forall text,
        updateDOM (Element "DIV" [("data-name", "index_box"); ("class", "honey")] [TextNode "0"])
                  (Some (TextNode text))
        = Throws TypeError)
  /\ updateDOM (Element "DIV" [("data-name", "index_box"); ("class", "honey")] [TextNode "0"])
               None = Throws TypeError.
Proof.
  apply (updateDOM_keeps_container "DIV" [("data-name", "index_box"); ("class", "honey")]
           [TextNode "0"] [TextNode "5"]).
  apply (bool_decide_unpack _). vm_compute. exact I.
Defined.

(** The text of the counter is patched in place; a row whose markup the
    parser reads as bare text is replaced by that text, or makes
    [updateDOM] throw when it has an attribute. *)
Example count_example :
  updateDOM (Element "DIV" [("data-name", "counter")] [TextNode "0"])
            (Some (Element "DIV" [] [TextNode "5"]))
  = Returns (Element "DIV" [("data-name", "counter")] [TextNode "5"])
  /\ updateDOM (Element "TR" [] [Element "TD" [] [TextNode "1"]]) (Some (TextNode "2"))
     = Returns (TextNode "2")
  /\ updateDOM (Element "TR" [("class", "row")] [Element "TD" [] [TextNode "1"]])
               (Some (TextNode "2"))
     = Throws TypeError
  /\ updateDOM (Element "P" [] [TextNode "old"]) (Some (Element "P" [] []))
     = Returns (Element "P" [] []).
Proof. vm_compute. done. Qed.

Import Reconcile.

Section Reconciled.
Implicit Types (attrs live : list (string * string)) (name : string).

Lemma assoc_not_in {A} key (props : list (string * A)) :
  key ∉ props.*1 -> assoc key props = None.
Proof.
  induction props as [|[k w] rest IH]; [done|].
  cbn [fmap list_fmap fst assoc]. intros Hnot.
  apply not_elem_of_cons in Hnot as [Hne Hrest].
  destruct (String.eqb k key) eqn:E; [|by apply IH].
  apply String.eqb_eq in E. congruence.
Qed.

Lemma assoc_filter_eq {A} key (props : list (string * A)) :
  assoc key (filter (fun entry : string * A => entry.1 <> key) props) = None.
Proof.
  induction props as [|[k w] rest IH]; [done|].
  destruct (decide (k = key)) as [->|Hk].
  - by rewrite filter_cons_False by (simpl; tauto).
  - rewrite filter_cons_True by done. cbn [assoc].
    destruct (String.eqb k key) eqn:E; [|done].
    apply String.eqb_eq in E. congruence.
Qed.

Lemma copy_new_attributes_get newAttributes live name :
  NoDup newAttributes.*1 -> is_directive_name name = false ->
  getAttribute (copy_new_attributes newAttributes live) name
  = match getAttribute newAttributes name with
    | Some v => Some v
    | None => getAttribute live name
    end.
Proof.
  intros Hnd Hname. unfold copy_new_attributes, getAttribute. revert live.
  induction newAttributes as [|[n v] rest IH]; intros live; [done|].
  cbn [fmap list_fmap fst] in Hnd. apply NoDup_cons in Hnd as [Hn Hrest].
  cbn [fold_left fst snd assoc]. rewrite (IH Hrest).
  destruct (String.eqb n name) eqn:E.
  - apply String.eqb_eq in E. subst n. rewrite Hname.
    rewrite (assoc_not_in name rest Hn).
    case_bool_decide as Hget.
    + unfold setAttribute. by rewrite assoc_set_eq.
    + unfold getAttribute in Hget. by destruct (decide (assoc name live = Some v)).
  - destruct (assoc name rest); [done|].
    destruct (is_directive_name n); [done|].
    case_bool_decide; [|done]. unfold setAttribute. apply assoc_set_ne.
    intros ->. by rewrite String.eqb_refl in E.
Qed.

Lemma drop_old_attributes_get newAttributes (snapshot live : list (string * string)) name :
  is_directive_name name = false ->
  getAttribute
    (fold_left (fun acc attr =>
                  if is_directive_name attr.1 then acc
                  else if hasAttribute newAttributes attr.1 then acc
                       else removeAttribute attr.1 acc) snapshot live) name
  = if hasAttribute newAttributes name then getAttribute live name
    else if bool_decide (name ∈ snapshot.*1) then None
         else getAttribute live name.
Proof.
  intros Hname. unfold getAttribute. revert live.
  induction snapshot as [|[n v] rest IH]; intros live.
  - cbn [fold_left fmap list_fmap]. rewrite bool_decide_eq_false_2 by apply not_elem_of_nil.
    by destruct (hasAttribute newAttributes name).
  - cbn [fold_left fst fmap list_fmap]. rewrite IH.
    destruct (hasAttribute newAttributes name) eqn:Hhas.
    + destruct (is_directive_name n); [done|].
      destruct (hasAttribute newAttributes n) eqn:Hn; [done|].
      unfold removeAttribute. apply assoc_filter_ne. intros ->. congruence.
    + destruct (decide (n = name)) as [->|Hne].
      * rewrite Hname, Hhas. unfold removeAttribute. rewrite assoc_filter_eq.
        rewrite (bool_decide_eq_true_2 (name ∈ name :: rest.*1)) by (by left).
        by destruct (bool_decide (name ∈ rest.*1)).
      * assert (Hsame : assoc name
                          (if is_directive_name n then live
                           else if hasAttribute newAttributes n then live
                                else removeAttribute n live) = assoc name live).
        { destruct (is_directive_name n); [done|].
          destruct (hasAttribute newAttributes n); [done|].
          unfold removeAttribute. by apply assoc_filter_ne. }
        rewrite Hsame.
        destruct (decide (name ∈ rest.*1)) as [Hin|Hin].
        -- rewrite !bool_decide_eq_true_2; [done| by right | done].
        -- rewrite !bool_decide_eq_false_2; [done| |done].
           intros [?|?]%elem_of_cons; congruence.
Qed.

(** After both loops an attribute that is no directive has the value the
    new node gives it, or is gone when the new node has none. *)
Lemma diff_attributes_get oldAttributes newAttributes name :
  NoDup newAttributes.*1 -> is_directive_name name = false ->
  getAttribute (diff_attributes oldAttributes newAttributes) name
  = getAttribute newAttributes name.
Proof.
  intros Hnd Hname. unfold diff_attributes, drop_old_attributes.
  rewrite drop_old_attributes_get by done.
  unfold hasAttribute, has_key.
  destruct (assoc name newAttributes) as [v|] eqn:E.
  - rewrite copy_new_attributes_get by done. unfold getAttribute. by rewrite E.
  - unfold getAttribute. rewrite E. case_bool_decide as Hin; [done|].
    by apply assoc_not_in.
Qed.

Lemma shows_markup_refl n : shows_markup n n.
Proof.
  revert n. fix IH 1. intros [tagName attributes childNodes|text|data]; cbn [shows_markup];
    [|done|done].
  split; [done|]. split; [done|].
  induction childNodes as [|child rest IHrest]; [done|]. split; [apply IH|apply IHrest].
Qed.
End Reconciled.

Lemma diffNodes_reaches (oldNode newNode : node) :
  well_formed newNode -> shows_markup (diffNodes oldNode newNode) newNode.
Proof.
  revert oldNode newNode. fix IH 1.
  intros [tagName oldAttributes oldChildren|oldText|oldData] newNode Hwf; cbn [diffNodes].
  - destruct newNode as [tagName' newAttributes newChildren|newText|newData];
      cbn [nodeType nodeName Nat.eqb negb orb attributes_of]; [|apply shows_markup_refl..].
    destruct (String.eqb tagName tagName') eqn:E; cbn [negb].
    + apply String.eqb_eq in E. subst tagName'. destruct Hwf as [Hnd Hkids].
      cbn [shows_markup]. split; [done|]. split.
      * intros name Hname. by apply diff_attributes_get.
      * clear Hnd. revert newChildren Hkids.
        induction oldChildren as [|o olds IHolds]; intros [|n news] Hkids; try done.
        -- destruct Hkids as [Hn Hnews]. split; [apply shows_markup_refl|].
           clear Hn. induction news as [|n' news IHnews]; [done|].
           destruct Hnews as [? ?]. split; [apply shows_markup_refl|by apply IHnews].
        -- destruct Hkids as [Hn Hnews]. split; [by apply IH|by apply IHolds].
    + apply shows_markup_refl.
  - destruct newNode as [tagName' newAttributes newChildren|newText|newData];
      cbn [nodeType nodeName Nat.eqb negb orb]; [apply shows_markup_refl| |apply shows_markup_refl].
    rewrite String.eqb_refl. cbn [negb].
    destruct (String.eqb oldText newText) eqn:E; cbn [negb]; [|done].
    apply String.eqb_eq in E. by subst.
  - destruct newNode as [tagName' newAttributes newChildren|newText|newData];
      cbn [nodeType nodeName Nat.eqb negb orb]; [apply shows_markup_refl..|].
    rewrite String.eqb_refl. exact I.
Qed.

(** X7.  Reconciliation reaches the new markup: whatever the live node was,
    the node that stands in its place afterwards has the tags and texts of
    the new node and, on every element, the value of the new node for every
    attribute that is no directive.  Comment nodes keep their old text. *)
Theorem diffNodes_shows_markup (oldNode newNode : node) :
  well_formed newNode -> shows_markup (diffNodes oldNode newNode) newNode.
Proof. apply diffNodes_reaches. Qed.

(** The sample list reconciled against its next rendering. *)
Lemma diffNodes_shows_markup_witness :
  shows_markup (diffNodes sample_list sample_list_again) sample_list_again.
Proof.
  apply (diffNodes_shows_markup sample_list sample_list_again).
  cbn [well_formed sample_list_again].
  repeat split; apply (bool_decide_unpack _); vm_compute; exact I.
Defined.

(** X8.  When the parser gives back the wrapper, an element of the
    container's tag without attributes that holds the nodes the new HTML
    parses to, the container shows these nodes under its own tag and
    attributes after [updateDOM]. *)
Theorem updateDOM_shows_markup tagName attributes childNodes parsed :
  well_formed (Element tagName attributes parsed) ->
  exists shown,
    updateDOM (Element tagName attributes childNodes) (Some (Element tagName [] parsed))
    = Returns shown
    /\ shows_markup shown (Element tagName attributes parsed).
Proof.
  intros Hwf. unfold updateDOM. cbn [nodeName attributes_of].
  rewrite (copy_container_attributes attributes []) by (by destruct Hwf).
  cbn [app]. eexists. split; [done|]. by apply diffNodes_reaches.
Qed.

(** A mounted list whose entries are rendered anew. *)
Lemma updateDOM_shows_markup_witness :
  exists shown,
    updateDOM (Element "DIV" [("data-name", "index_box")] [sample_list])
              (Some (Element "DIV" [] [sample_list_again]))
    = Returns shown
    /\ shows_markup shown (Element "DIV" [("data-name", "index_box")] [sample_list_again]).
Proof.
  apply (updateDOM_shows_markup "DIV" [("data-name", "index_box")] [sample_list]
           [sample_list_again]).
  cbn [well_formed sample_list_again].
  repeat split; apply (bool_decide_unpack _); vm_compute; exact I.
Defined.

Import Entry.

(** * Tokens outside blocks, plain text and the cache *)
Section Resolution.
Implicit Types (st : state) (name template : string) (data : value).

Lemma token_lookup_no_path path v :
  descend path v = None ->
  token_lookup path v = Returns (VStr "") \/ exists e, token_lookup path v = Throws e.
Proof.
  revert v. induction path as [|segment rest IH]; intros v; cbn [descend token_lookup]; [done|].
  destruct (hasOwnProperty_call v segment) as [[|]|e]; cbn [outcome_bind]; eauto.
Qed.

Lemma applyFilter_default_token name data template :
  applyFilter default_filters "token" (VStr name) [data; VStr template]
  = match token_lookup (split_on "." name) data with
    | Returns VUndefined => Returns (VStr "")
    | other => other
    end.
Proof.
  unfold applyFilter, applyFilter_calls.
  replace (is_object_prototype_member "token") with false by (by vm_compute).
  replace (chain_of default_filters "token") with [(token_fn, 0%Z)] by (by vm_compute).
  cbn [reduce_chain fun_call token_fn token_filter].
  by destruct (token_lookup (split_on "." name) data) as [[]|e].
Qed.

Lemma includes_exec s : includes settings_start s = false -> exec s = None.
Proof.
  induction s as [|c s IH]; [done|].
  cbn [includes exec]. intros H. apply orb_false_elim in H as [Hc Hs].
  rewrite (IH Hs).
  assert (Hm : match_token (String c s) = None); [|by rewrite Hm].
  unfold settings_start in Hc. cbn [String.prefix] in Hc.
  destruct (ascii_dec "[" c) as [<-|Hne]; [by destruct s|].
  unfold match_token. by destruct c as [[] [] [] [] [] [] [] []].
Qed.

Lemma prefix_of_contexts_register loopData st (contexts : list (string * value)) :
  ids_ok st -> contexts `prefix_of` localContexts st ->
  contexts `prefix_of` localContexts (register_context loopData st).2.
Proof.
  intros Hids Hpre. cbn.
  rewrite assoc_set_fresh by (rewrite Hids; apply potion_id_fresh).
  by apply prefix_app_r.
Qed.
End Resolution.

(** X9.  With the registry as the module leaves it, a token resolves to the
    value its dotted path leads to through own properties; where the path
    cannot be walked (a segment is no own key, or the value reached is null
    or undefined and the filter throws) and where it leads to undefined, the
    token resolves to the empty string. *)
Theorem resolve_default (name : string) (data : value) (template : string) :
  resolve default_filters name data template
  = match descend (split_on "." name) data with
    | Some VUndefined => VStr ""
    | Some v => v
    | None => VStr ""
    end.
Proof.
  unfold resolve. rewrite applyFilter_default_token.
  destruct (descend (split_on "." name) data) as [v|] eqn:E.
  - rewrite (token_lookup_descend _ _ _ E). by destruct v.
  - by destruct (token_lookup_no_path _ _ E) as [->|[e ->]].
Qed.

(** X10.  A template without the opening delimiter renders as itself, whatever
    the registry and the data; nothing but the token cache changes. *)
Theorem substitute_plain_text filters (template : string) (data : value) (st : state) :
  cache_ok st -> includes settings_start template = false ->
  substitute filters template data st = (Ok template, (getTokens template st).2).
Proof.
  intros Hc Hno. apply includes_exec in Hno.
  destruct (getTokens_cached template st Hc) as (Htok & _).
  unfold substitute, substitute_fuel, bind.
  destruct (getTokens template st) as [r st']. cbn [fst snd] in *. subst r.
  unfold tokenizeTemplate. cbn [tokenize_loop]. rewrite Hno.
  destruct template as [|c s]; [done|].
  cbn [String.length substitute_loop]. unfold bind, ret. cbn.
  by rewrite app_empty_r.
Qed.

(** A text with a closing delimiter only. *)
Lemma substitute_plain_text_witness :
  substitute default_filters "<b>a]b</b>" VNull initial_state
  = (Ok "<b>a]b</b>", (getTokens "<b>a]b</b>" initial_state).2).
Proof.
  apply (substitute_plain_text default_filters "<b>a]b</b>" VNull initial_state).
  - intros template tokens H. cbn in H. rewrite lookup_empty in H. discriminate H.
  - vm_compute. reflexivity.
Defined.

(** X11.  Tokens that open no block.  A closing token met by the loop adds
    nothing.  A token of any other flag with no closing token of its name
    after it adds the resolved value as a string; the flag [!] makes no
    difference. *)
Theorem tokens_without_block filters (template : string) (data : value) (st : state) :
  cache_ok st ->
  (forall name rest,
     substitute_from filters template (Token "/" name :: rest) data st
     = substitute_from filters template rest data st)
  /\ (forall flag name rest,
        flag <> "/" -> (find_closing name rest).2 = None ->
        substitute_from filters template (Token flag name :: rest) data st
        = (let* text := lift (to_string (resolve filters name data template)) in
           let* out := substitute_from filters template rest data in
           ret (text +:+ out)) st).
Proof.
  intros Hc. split.
  - intros name rest. unfold substitute_from at 1. cbn [substitute_loop String.eqb].
    rewrite Ascii.eqb_refl.
    apply substitute_loop_from; [done|].
    rewrite tokens_weight_cons. pose proof (token_weight_pos (Token "/" name)). lia.
  - intros flag name rest Hflag Hnone. unfold substitute_from at 1. cbn [substitute_loop].
    rewrite (flag_not_closing flag Hflag).
    destruct (find_closing name rest) as [inner [after|]]; [done|].
    unfold bind, lift.
    destruct (to_string (resolve filters name data template)) as [text|e]; [|done].
    rewrite substitute_loop_from; [done|done|].
    rewrite tokens_weight_cons. pose proof (token_weight_pos (Token flag name)). lia.
Qed.

(** The loop on null data and an empty cache. *)
Lemma tokens_without_block_witness :
  (forall name rest,
     substitute_from default_filters "" (Token "/" name :: rest) VNull initial_state
     = substitute_from default_filters "" rest VNull initial_state)
  /\ (forall flag name rest,
        flag <> "/" -> (find_closing name rest).2 = None ->
        substitute_from default_filters "" (Token flag name :: rest) VNull initial_state
        = (let* text := lift (to_string (resolve default_filters name VNull "")) in
           let* out := substitute_from default_filters "" rest VNull in
           ret (text +:+ out)) initial_state).
Proof.
  apply (tokens_without_block default_filters "" VNull initial_state).
  intros template tokens H. cbn in H. rewrite lookup_empty in H. discriminate H.
Defined.

(** X12.  What a render returns depends on the module state through the
    identifier counter only: the token cache and the context table are
    never read back into the markup. *)
Theorem substitute_ignores_cache filters (template : string) (data : value) (st : state)
    (contexts : list (string * value)) :
  cache_ok st ->
  (substitute filters template data st).1
  = (substitute filters template data (State (uniqueCounter st) contexts ∅)).1.
Proof.
  intros Hc.
  apply (substitute_same_counter filters template data st (State (uniqueCounter st) contexts ∅)).
  split; [done|]. split; [|done].
  intros t tokens H. cbn in H. rewrite lookup_empty in H. discriminate H.
Qed.

(** The iteration example after another render has filled the cache. *)
Lemma substitute_ignores_cache_witness :
  (substitute default_filters items_template items_data
     (substitute default_filters flag_template (VObj [("flag", VBool true)]) initial_state).2).1
  = (substitute default_filters items_template items_data (State 0 [] ∅)).1.
Proof.
  apply (substitute_ignores_cache default_filters items_template items_data
           (substitute default_filters flag_template (VObj [("flag", VBool true)])
              initial_state).2 []).
  apply (substitute_total default_filters flag_template (VObj [("flag", VBool true)])
           initial_state).
  intros template tokens H. cbn in H. rewrite lookup_empty in H. discriminate H.
Defined.

(** X13.  Contexts are never evicted or overwritten: along any run of renders
    from the initial state the context table, keys and stored values, only
    grows at its end. *)
Theorem contexts_only_grow (calls1 calls2 : list (registry * string * value)) :
  let earlier := run_renders calls1 initial_state in
  let later := run_renders calls2 earlier in
  localContexts earlier `prefix_of` localContexts later.
Proof.
  intros earlier later.
  destruct (run_renders_ids 0 calls1 initial_state cache_ok_initial ids_ok_initial)
    as (Hc1 & Hi1 & _); [cbn; lia|].
  fold earlier in Hc1, Hi1.
  apply (run_renders_keeps
           (fun s => ids_ok s /\ localContexts earlier `prefix_of` localContexts s)
           ltac:(intros template s [Hi Hp]; destruct (getTokens_frame template s) as [Ec El];
                 unfold ids_ok; by rewrite Ec, El)
           ltac:(intros loopData s [Hi Hp];
                 split; [by apply register_context_ids|by apply prefix_of_contexts_register])
           calls2 earlier Hc1).
  by split.
Qed.

Import Context.

(** * What the renders store *)
Section Preserved.
Variable P : state -> Prop.
Hypothesis P_getTokens : forall template st, P st -> P (getTokens template st).2.
Hypothesis P_register :
  forall substituted key st, P st -> P (register_context (loop_data substituted key) st).2.

Lemma keeps_ret {A} (a : A) : keeps P (ret a).
Proof. by intros st. Qed.

Lemma keeps_lift {A} (o : outcome A) : keeps P (lift o).
Proof. intros st HP. by destruct o. Qed.

Lemma keeps_bind {A B} (m : M A) (k : A -> M B) :
  keeps P m -> (forall a, keeps P (k a)) -> keeps P (bind m k).
Proof.
  intros Hm Hk st HP. unfold bind. specialize (Hm st HP).
  destruct (m st) as [[a|e|] st']; cbn [snd] in *; [by apply Hk|done|done].
Qed.

Section Blocks.
Variable substitute_inner : string -> value -> M string.
Hypothesis keeps_inner : forall innerTemplate data, keeps P (substitute_inner innerTemplate data).

Lemma keeps_render_entry innerTemplate substituted key :
  keeps P (render_entry substitute_inner innerTemplate substituted key).
Proof.
  unfold render_entry. apply keeps_bind; [apply keeps_lift|]. intros [|]; [|apply keeps_ret].
  apply keeps_bind; [apply keeps_inner|]. intros rendered.
  apply keeps_bind; [|intros uniqueId; apply keeps_ret].
  intros st. apply P_register.
Qed.

Lemma keeps_render_entries innerTemplate substituted keys :
  keeps P (render_entries substitute_inner innerTemplate substituted keys).
Proof.
  induction keys as [|key rest IH]; cbn [render_entries]; [apply keeps_ret|].
  apply keeps_bind; [apply keeps_render_entry|]. intros block.
  apply keeps_bind; [apply IH|]. intros others. apply keeps_ret.
Qed.

Lemma keeps_render_block innerTemplate substituted data :
  keeps P (render_block substitute_inner innerTemplate substituted data).
Proof.
  unfold render_block.
  destruct (String.eqb (typeof substituted) "boolean").
  - destruct (truthy substituted); [apply keeps_inner|apply keeps_ret].
  - destruct (String.eqb (typeof substituted) "object");
      [apply keeps_render_entries|apply keeps_lift].
Qed.
End Blocks.

Lemma keeps_substitute_loop fuel filters template tokens data :
  keeps P (substitute_loop fuel filters template tokens data).
Proof.
  revert template tokens data.
  induction fuel as [|fuel IH]; intros template tokens data; cbn [substitute_loop];
    [by intros st|].
  destruct tokens as [|[value|flag value] rest]; [apply keeps_ret| |].
  - apply keeps_bind; [apply IH|]. intros out. apply keeps_ret.
  - destruct (String.eqb flag "/"); [apply IH|].
    destruct (find_closing value rest) as [innerTokens [after|]].
    + apply keeps_bind.
      * apply keeps_render_block. intros innerTemplate inner_data.
        apply keeps_bind; [intros st; apply P_getTokens|]. intros inner. apply IH.
      * intros block. apply keeps_bind; [apply IH|]. intros out. apply keeps_ret.
    + apply keeps_bind; [apply keeps_lift|]. intros text.
      apply keeps_bind; [apply IH|]. intros out. apply keeps_ret.
Qed.

Lemma keeps_substitute filters template data : keeps P (substitute filters template data).
Proof.
  unfold substitute, substitute_fuel.
  apply keeps_bind; [intros st; apply P_getTokens|]. intros tokens.
  apply keeps_substitute_loop.
Qed.

Lemma keeps_run_renders calls st : P st -> P (run_renders calls st).
Proof.
  revert st. induction calls as [|[[filters template] data] calls IH]; intros st HP; [done|].
  cbn [run_renders fold_left]. fold (run_renders calls).
  apply IH. by apply keeps_substitute.
Qed.
End Preserved.

Section Stored.
Implicit Types (st : state) (n : N).

Lemma run_renders_contexts calls :
  ids_ok (run_renders calls initial_state) /\ contexts_ok (run_renders calls initial_state).
Proof.
  apply (keeps_run_renders (fun s => ids_ok s /\ contexts_ok s)).
  - intros template s [Hi Hv]. destruct (getTokens_frame template s) as [Ec El].
    unfold ids_ok, contexts_ok. by rewrite Ec, El.
  - intros substituted key s [Hi Hv]. split; [by apply register_context_ids|].
    unfold contexts_ok. cbn.
    rewrite assoc_set_fresh by (rewrite Hi; apply potion_id_fresh).
    apply Forall_app. split; [done|]. apply Forall_singleton. cbn [snd]. eauto.
  - split; [apply ids_ok_initial|]. unfold contexts_ok. cbn. constructor.
Qed.

Lemma potion_id_below n m : (n < m)%N -> potion_id n ∈ ids_below m.
Proof.
  intros Hlt. unfold ids_below. apply list_elem_of_fmap.
  exists (N.to_nat n). split; [by rewrite N2Nat.id|]. apply elem_of_seq. lia.
Qed.

Lemma assoc_elem_of {A} key (props : list (string * A)) :
  key ∈ props.*1 -> exists v, assoc key props = Some v /\ (key, v) ∈ props.
Proof.
  induction props as [|[k w] rest IH]; cbn [fmap list_fmap fst assoc].
  - by intros ?%elem_of_nil.
  - intros Hin. destruct (String.eqb k key) eqn:E.
    + apply String.eqb_eq in E. subst k. exists w. split; [done|]. by left.
    + apply elem_of_cons in Hin as [->|Hin]; [by rewrite String.eqb_refl in E|].
      destruct (IH Hin) as (v & Hv & Hel). exists v. split; [done|]. by right.
Qed.



Lemma stored_context calls n :
  (n < uniqueCounter (run_renders calls initial_state))%N ->
  exists substituted key,
    assoc (potion_id n) (localContexts (run_renders calls initial_state))
    = Some (loop_data substituted key).
Proof.
  intros Hlt. destruct (run_renders_contexts calls) as [Hids Hvals].
  destruct (assoc_elem_of (potion_id n) (localContexts (run_renders calls initial_state)))
    as (v & Hv & Hel); [rewrite Hids; by apply potion_id_below|].
  unfold contexts_ok in Hvals. rewrite Forall_forall in Hvals.
  destruct (Hvals _ Hel) as (substituted & key & Heq). cbn [snd] in Heq. subst v. eauto.
Qed.
End Stored.

Import Reach.

Section Reached.
Implicit Types (st later : state).

Lemma reaches_trans st1 st2 st3 : reaches st1 st2 -> reaches st2 st3 -> reaches st1 st3.
Proof.
  induction 1 as [st|st template later _ IH|st substituted key later _ IH]; intros H23;
    [done|apply (reaches_tokens _ template); by apply IH
    |apply (reaches_register _ substituted key); by apply IH].
Qed.

Lemma substitute_reaches filters template data st :
  reaches st (substitute filters template data st).2.
Proof.
  apply (keeps_substitute (reaches st)); [| |apply reaches_here].
  - intros t s Hs. apply (reaches_trans _ _ _ Hs), (reaches_tokens _ t), reaches_here.
  - intros substituted key s Hs.
    apply (reaches_trans _ _ _ Hs), (reaches_register _ substituted key), reaches_here.
Qed.


(** So do the pieces of a render: the entries of an iteration block and
    the loop over the tokens that are left. *)
Lemma render_entries_reaches filters innerTemplate substituted keys st :
  reaches st (render_entries (substitute filters) innerTemplate substituted keys st).2.
Proof.
  apply (keeps_render_entries (reaches st)); [| |apply reaches_here].
  - intros s k s' Hs.
    apply (reaches_trans _ _ _ Hs), (reaches_register _ s k), reaches_here.
  - intros t data s Hs. apply (reaches_trans _ _ _ Hs), substitute_reaches.
Qed.

Lemma substitute_from_reaches filters template tokens data st :
  reaches st (substitute_from filters template tokens data st).2.
Proof.
  apply (keeps_substitute_loop (reaches st)); [| |apply reaches_here].
  - intros t s Hs. apply (reaches_trans _ _ _ Hs), (reaches_tokens _ t), reaches_here.
  - intros substituted key s Hs.
    apply (reaches_trans _ _ _ Hs), (reaches_register _ substituted key), reaches_here.
Qed.


End Reached.



(** Without a registered position marker on the way up,
    [getLocalContext] returns the default data: elements with no marker,
    with an empty one or with one that is not in the table are passed
    over. *)
Theorem getLocalContext_default (contexts : list (string * value))
    (ancestors : list (list (string * string))) (defaultData : value) :
  Forall (fun attrs =>
            match getAttribute attrs "data-potion-key" with
            | Some key => key = "" \/ assoc key contexts = None
            | None => True
            end) ancestors ->
  getLocalContext contexts ancestors defaultData = defaultData.
Proof.
  induction 1 as [|attrs ancestors Hattrs _ IH]; [done|].
  cbn [getLocalContext].
  destruct (getAttribute attrs "data-potion-key") as [key|]; [|done].
  destruct Hattrs as [->|Hnone]; [done|].
  rewrite Hnone. by destruct (String.eqb key "").
Qed.

(** A marker of an earlier page life, with the table empty. *)
Lemma getLocalContext_default_witness :
  getLocalContext [] [[("data-potion-key", "potion_7")]; [("class", "list")]] (VNum 1) = VNum 1.
Proof.
  apply (getLocalContext_default [] [[("data-potion-key", "potion_7")]; [("class", "list")]]
           (VNum 1)).
  apply Forall_cons. split; [cbn; by right|].
  apply Forall_cons. split; [exact I|]. apply Forall_nil_2.
Defined.

Import Observation.

(** * More on the reactive wrapper *)
Section Wrappers.
Implicit Types (w : world) (props : list (string * jsval)).

Lemma not_proto_member prop :
  is_object_prototype_member prop = false -> String.eqb prop "__proto__" = false.
Proof.
  intros Hm. destruct (String.eqb prop "__proto__") eqn:E; [|done].
  apply String.eqb_eq in E. subst prop. discriminate Hm.
Qed.

Lemma js_set_through_wrapper w proxy target onChange maxDepth currentDepth props prop value fuel :
  heap w !! proxy = Some (Proxy target onChange maxDepth currentDepth) ->
  heap w !! target = Some (Plain props) ->
  is_object_prototype_member prop = false ->
  exists w',
    js_set (S (S fuel)) proxy prop value w = Some (true, w')
    /\ heap w' = <[target := Plain (assoc_set prop value props)]> (heap w)
    /\ change_count onChange (trace w')
       = change_count onChange (trace w)
         + (if strict_equal (current_value props prop) value then 0 else 1).
Proof.
  intros Hproxy Htarget Hmember.
  cbn [js_set]. rewrite Hproxy. cbn [js_get].
  rewrite Htarget, Hmember, orb_true_r, Htarget, (not_proto_member prop Hmember).
  destruct (strict_equal (current_value props prop) value) eqn:Heq; cbn [negb].
  - eexists. split; [reflexivity|]. cbn [heap trace]. split; [done|].
    rewrite change_count_app. simpl. lia.
  - eexists. split; [reflexivity|]. cbn [heap trace]. split; [done|].
    rewrite !change_count_app. simpl. rewrite Nat.eqb_refl. lia.
Qed.

End Wrappers.

(** X15.  The wrapper cache is keyed by the target alone.  Wrapping an
    object that has no wrapper yet makes one with the callback given; every
    later [deepProxy] of the same object, whatever callback it is given,
    returns that first wrapper and changes nothing. *)
Theorem deepProxy_cached (w : world) (target : loc) (onChange onChange' : nat)
    (maxDepth maxDepth' : option nat) (currentDepth currentDepth' : nat) :
  proxyCache w !! target = None ->
  depth_reached maxDepth currentDepth = false ->
  depth_reached maxDepth' currentDepth' = false ->
  let w1 := (deepProxy (JRef target) onChange maxDepth currentDepth w).2 in
  deepProxy (JRef target) onChange maxDepth currentDepth w = (JRef (next_loc w), w1)
  /\ heap w1 !! next_loc w = Some (Proxy target onChange maxDepth currentDepth)
  /\ deepProxy (JRef target) onChange' maxDepth' currentDepth' w1 = (JRef (next_loc w), w1).
Proof.
  intros Hmiss Hd Hd'. cbn [deepProxy]. rewrite Hd, Hmiss. cbn [snd heap proxyCache].
  split; [done|]. split; [by rewrite lookup_insert_eq|].
  by rewrite Hd', lookup_insert_eq.
Qed.

(** The object of [wrapped_a1] wrapped, then wrapped again with callback 9. *)
Lemma deepProxy_cached_witness :
  let w := World {[ 0 := Plain [("a", JNum 1)] ]} 1 ∅ [] in
  let w1 := (deepProxy (JRef 0) 7 None 0 w).2 in
  deepProxy (JRef 0) 7 None 0 w = (JRef (next_loc w), w1)
  /\ heap w1 !! next_loc w = Some (Proxy 0 7 None 0)
  /\ deepProxy (JRef 0) 9 (Some 3) 0 w1 = (JRef (next_loc w), w1).
Proof.
  apply (deepProxy_cached (World {[ 0 := Plain [("a", JNum 1)] ]} 1 ∅ []) 0 7 9 None (Some 3) 0 0).
  - reflexivity.
  - reflexivity.
  - reflexivity.
Defined.

(** X16.  Reading an object-valued property through a wrapper gives a
    wrapper of that object, with the same callback and one level deeper, and
    reading it again gives the same wrapper; a property that holds no object
    is read as it is. *)
Theorem get_trap_wraps (w : world) (proxy target : loc) (onChange : nat)
    (maxDepth : option nat) (currentDepth : nat) (props : list (string * jsval))
    (prop : string) (fuel : nat) :
  heap w !! proxy = Some (Proxy target onChange maxDepth currentDepth) ->
  heap w !! target = Some (Plain props) ->
  heap w !! next_loc w = None ->
  depth_reached maxDepth (S currentDepth) = false ->
  match assoc prop props with
  | Some (JRef child) =>
      proxyCache w !! child = None ->
      exists w1,
        js_get (S (S fuel)) proxy prop w = Some (JRef (next_loc w), w1)
        /\ heap w1 !! next_loc w = Some (Proxy child onChange maxDepth (S currentDepth))
        /\ js_get (S (S fuel)) proxy prop w1 = Some (JRef (next_loc w), w1)
  | Some value => js_get (S (S fuel)) proxy prop w = Some (value, w)
  | None =>
      is_object_prototype_member prop = false ->
      js_get (S (S fuel)) proxy prop w = Some (JUndefined, w)
  end.
Proof.
  intros Hproxy Htarget Hfresh Hdepth.
  assert (Hp : next_loc w <> proxy) by (intros E; rewrite E in Hfresh; congruence).
  assert (Ht : next_loc w <> target) by (intros E; rewrite E in Hfresh; congruence).
  cbn [js_get]. rewrite Hproxy, Htarget. unfold has_key, current_value.
  destruct (assoc prop props) as [value|] eqn:E.
  - cbn [orb]. destruct value as [| | | | | |child]; try done.
    intros Hmiss. cbn [deepProxy]. rewrite Hdepth, Hmiss.
    eexists. split; [reflexivity|]. cbn [heap proxyCache].
    split; [by rewrite lookup_insert_eq|].
    rewrite lookup_insert_ne by done. rewrite Hproxy.
    rewrite lookup_insert_ne by done. rewrite Htarget, E. cbn [orb deepProxy proxyCache].
    by rewrite Hdepth, lookup_insert_eq.
  - intros Hmember. by rewrite Hmember.
Qed.

(** The inner object of [wrapped_user] read twice. *)
Lemma get_trap_wraps_witness :
  match assoc "user" [("user", JRef 1)] with
  | Some (JRef child) =>
      proxyCache (wrapped_user None) !! child = None ->
      exists w1,
        js_get 2 2 "user" (wrapped_user None) = Some (JRef (next_loc (wrapped_user None)), w1)
        /\ heap w1 !! next_loc (wrapped_user None) = Some (Proxy child 7 None 1)
        /\ js_get 2 2 "user" w1 = Some (JRef (next_loc (wrapped_user None)), w1)
  | Some value => js_get 2 2 "user" (wrapped_user None) = Some (value, wrapped_user None)
  | None =>
      is_object_prototype_member "user" = false ->
      js_get 2 2 "user" (wrapped_user None) = Some (JUndefined, wrapped_user None)
  end.
Proof.
  apply (get_trap_wraps (wrapped_user None) 2 0 7 None 0 [("user", JRef 1)] "user" 0).
  - reflexivity.
  - reflexivity.
  - reflexivity.
  - reflexivity.
Defined.

(** X17.  At the depth limit nothing is wrapped: a read through a wrapper
    whose children would reach [maxDepth] returns the child object itself
    and leaves the world as it is, and a write on that child calls no change
    callback. *)
Theorem maxDepth_passes_through (w : world) (proxy target child : loc) (onChange : nat)
    (maxDepth : option nat) (currentDepth : nat) (props inner : list (string * jsval))
    (prop name : string) (value : jsval) (fuel : nat) :
  heap w !! proxy = Some (Proxy target onChange maxDepth currentDepth) ->
  heap w !! target = Some (Plain props) ->
  assoc prop props = Some (JRef child) ->
  heap w !! child = Some (Plain inner) ->
  depth_reached maxDepth (S currentDepth) = true ->
  name <> "__proto__" ->
  js_get (S (S fuel)) proxy prop w = Some (JRef child, w)
  /\ exists w',
       js_set (S fuel) child name value w = Some (true, w')
       /\ trace w' = trace w ++ [Write child name value]
       /\ forall callback, change_count callback (trace w') = change_count callback (trace w).
Proof.
  intros Hproxy Htarget Hprop Hchild Hdepth Hname.
  split.
  - cbn [js_get]. rewrite Hproxy, Htarget. unfold has_key, current_value. rewrite Hprop.
    cbn [orb deepProxy]. by rewrite Hdepth.
  - cbn [js_set]. rewrite Hchild.
    rewrite (eqb_false_of_ne name "__proto__" Hname).
    eexists. split; [reflexivity|]. cbn [trace]. split; [done|].
    intros callback. rewrite change_count_app. simpl. lia.
Qed.

(** [wrapped_user] with [maxDepth] 1. *)
Lemma maxDepth_passes_through_witness :
  js_get 2 2 "user" (wrapped_user (Some 1)) = Some (JRef 1, wrapped_user (Some 1))
  /\ exists w',
       js_set 1 1 "name" (JStr "b") (wrapped_user (Some 1)) = Some (true, w')
       /\ trace w' = trace (wrapped_user (Some 1)) ++ [Write 1 "name" (JStr "b")]
       /\ forall callback,
            change_count callback (trace w')
            = change_count callback (trace (wrapped_user (Some 1))).
Proof.
  apply (maxDepth_passes_through (wrapped_user (Some 1)) 2 0 1 7 (Some 1) 0
           [("user", JRef 1)] [("name", JStr "a")] "user" "name" (JStr "b") 0).
  - reflexivity.
  - reflexivity.
  - reflexivity.
  - reflexivity.
  - reflexivity.
  - discriminate.
Defined.

(** X18.  Notifications are not batched: a run of writes through a wrapper
    of a plain object calls the change callback once for every write that
    stores a value not strictly equal to the current one, and the target
    ends with all the writes made. *)
Theorem writes_notify_each (w : world) (proxy target : loc) (onChange : nat)
    (maxDepth : option nat) (currentDepth : nat) (props : list (string * jsval))
    (writes : list (string * jsval)) (fuel : nat) :
  heap w !! proxy = Some (Proxy target onChange maxDepth currentDepth) ->
  heap w !! target = Some (Plain props) ->
  Forall (fun write : string * jsval => is_object_prototype_member write.1 = false) writes ->
  exists w',
    set_all (S (S fuel)) proxy writes w = Some w'
    /\ heap w' !! target = Some (Plain (written props writes))
    /\ change_count onChange (trace w')
       = change_count onChange (trace w) + changing_writes props writes.
Proof.
  revert w props. induction writes as [|[prop value] rest IH];
    intros w props Hproxy Htarget Hall.
  - exists w. cbn [set_all written fold_left changing_writes]. split; [done|]. split; [done|]. lia.
  - apply Forall_cons in Hall as [Hprop Hrest]. cbn [fst] in Hprop.
    destruct (js_set_through_wrapper w proxy target onChange maxDepth currentDepth props prop
                value fuel Hproxy Htarget Hprop) as (w1 & Hset & Hheap & Hcount).
    assert (Hne : target <> proxy) by (intros ->; congruence).
    destruct (IH w1 (assoc_set prop value props)) as (w' & Hall' & Hheap' & Hcount');
      [| |done|].
    + rewrite Hheap. by rewrite lookup_insert_ne.
    + rewrite Hheap. by rewrite lookup_insert_eq.
    + exists w'. cbn [set_all]. rewrite Hset. split; [done|]. split; [done|].
      cbn [changing_writes]. lia.
Qed.

(** Three writes on [{a: 1}], two of which change the value. *)
Lemma writes_notify_each_witness :
  exists w',
    set_all 2 1 [("a", JNum 2); ("a", JNum 2); ("b", JStr "x")] wrapped_a1 = Some w'
    /\ heap w' !! 0
       = Some (Plain (written [("a", JNum 1)] [("a", JNum 2); ("a", JNum 2); ("b", JStr "x")]))
    /\ change_count 7 (trace w')
       = change_count 7 (trace wrapped_a1)
         + changing_writes [("a", JNum 1)] [("a", JNum 2); ("a", JNum 2); ("b", JStr "x")].
Proof.
  apply (writes_notify_each wrapped_a1 1 0 7 None 0 [("a", JNum 1)]
           [("a", JNum 2); ("a", JNum 2); ("b", JStr "x")] 0).
  - reflexivity.
  - reflexivity.
  - repeat constructor.
Defined.

Import Utils.

(** * Utilities *)
Section Characters.
Implicit Types (s t : string) (p : ascii -> bool).

Lemma all_chars_app p s t : all_chars p (s +:+ t) = all_chars p s && all_chars p t.
Proof. induction s as [|c s IH]; [done|]. simpl. by rewrite IH, andb_assoc. Qed.

Lemma all_chars_impl p (q : ascii -> bool) s :
  (forall c, p c = true -> q c = true) -> all_chars p s = true -> all_chars q s = true.
Proof.
  intros Hpq. induction s as [|c s IH]; [done|]. cbn [all_chars].
  intros [Hc Hs]%andb_prop. by rewrite (Hpq c Hc), IH.
Qed.

Lemma all_chars_skip_spaces p s : all_chars p s = true -> all_chars p (skip_spaces s) = true.
Proof.
  induction s as [|c s IH]; [done|]. cbn [skip_spaces].
  destruct (is_space c); [|done]. cbn [all_chars]. intros [_ Hs]%andb_prop. by apply IH.
Qed.

Lemma rev_app_spec s t : String.rev_app s t = String.rev s +:+ t.
Proof.
  unfold String.rev. revert t. induction s as [|c s IH]; intros t; [done|].
  cbn [String.rev_app]. rewrite IH, (IH (String c "")).
  by rewrite app_assoc_string.
Qed.

Lemma rev_cons c s : String.rev (String c s) = String.rev s +:+ String c "".
Proof. unfold String.rev at 1. cbn [String.rev_app]. apply rev_app_spec. Qed.

Lemma rev_snoc s c : String.rev (s +:+ String c "") = String c (String.rev s).
Proof.
  induction s as [|d s IH]; [done|].
  rewrite app_cons, !rev_cons, IH. apply app_cons.
Qed.

Lemma rev_involutive s : String.rev (String.rev s) = s.
Proof. induction s as [|c s IH]; [done|]. by rewrite rev_cons, rev_snoc, IH. Qed.

Lemma all_chars_rev p s : all_chars p (String.rev s) = all_chars p s.
Proof.
  induction s as [|c s IH]; [done|].
  rewrite rev_cons, all_chars_app, IH. cbn [all_chars]. by rewrite andb_true_r, andb_comm.
Qed.

Lemma all_chars_trim p s : all_chars p s = true -> all_chars p (trim s) = true.
Proof.
  intros H. unfold trim. rewrite all_chars_rev. apply all_chars_skip_spaces.
  rewrite all_chars_rev. by apply all_chars_skip_spaces.
Qed.

Lemma skip_spaces_none s :
  all_chars (fun c => negb (is_space c)) s = true -> skip_spaces s = s.
Proof.
  destruct s as [|c s]; [done|]. cbn [all_chars skip_spaces].
  intros [Hc _]%andb_prop. by destruct (is_space c).
Qed.

Lemma trim_none s : all_chars (fun c => negb (is_space c)) s = true -> trim s = s.
Proof.
  intros H. unfold trim. rewrite (skip_spaces_none s H).
  rewrite skip_spaces_none by (by rewrite all_chars_rev). apply rev_involutive.
Qed.
End Characters.

Section Slugs.
Implicit Types (s t : string) (p : ascii -> bool) (c : ascii).

Lemma all_chars_and p (q : ascii -> bool) s :
  all_chars p s = true -> all_chars q s = true -> all_chars (fun c => p c && q c) s = true.
Proof.
  induction s as [|c s IH]; [done|]. cbn [all_chars].
  intros [Hp Hs]%andb_prop [Hq Hs']%andb_prop. by rewrite Hp, Hq, IH.
Qed.

Lemma toLowerCase_char_lower c : negb (in_range 65 90 (toLowerCase_char c)) = true.
Proof. by destruct c as [[] [] [] [] [] [] [] []]. Qed.

Lemma all_chars_lower s :
  all_chars (fun c => negb (in_range 65 90 c)) (map_chars toLowerCase_char s) = true.
Proof.
  induction s as [|c s IH]; [done|]. cbn [map_chars all_chars].
  by rewrite toLowerCase_char_lower, IH.
Qed.

Lemma all_chars_replace_space_runs p inside s :
  p "-"%char = true -> all_chars p s = true ->
  all_chars p (replace_space_runs inside s) = true.
Proof.
  intros Hp. revert inside. induction s as [|c s IH]; intros inside; [done|].
  cbn [all_chars replace_space_runs]. intros [Hc Hs]%andb_prop.
  destruct (is_space c); [destruct inside|]; cbn [all_chars];
    rewrite ?Hp, ?Hc, ?IH; done.
Qed.

Lemma all_chars_keep_word_chars p s :
  all_chars p s = true -> all_chars p (keep_word_chars s) = true.
Proof.
  induction s as [|c s IH]; [done|]. cbn [all_chars keep_word_chars].
  intros [Hc Hs]%andb_prop.
  destruct (is_word_char c || Ascii.eqb c "-"); cbn [all_chars]; rewrite ?Hc, ?IH; done.
Qed.

Lemma keep_word_chars_kept s :
  all_chars (fun c => is_word_char c || Ascii.eqb c "-") (keep_word_chars s) = true.
Proof.
  induction s as [|c s IH]; [done|]. cbn [keep_word_chars].
  destruct (is_word_char c || Ascii.eqb c "-") eqn:E; [|done].
  cbn [all_chars]. by rewrite E, IH.
Qed.

Lemma all_chars_collapse_hyphens p inside s :
  all_chars p s = true -> all_chars p (collapse_hyphens inside s) = true.
Proof.
  revert inside. induction s as [|c s IH]; intros inside; [done|].
  cbn [all_chars collapse_hyphens]. intros [Hc Hs]%andb_prop.
  destruct (Ascii.eqb_spec c "-") as [->|Hne]; [destruct inside|]; cbn [all_chars];
    rewrite ?Hc, ?IH; done.
Qed.

Lemma collapse_hyphens_single inside s :
  includes "--" (collapse_hyphens inside s) = false
  /\ (inside = true -> String.prefix "-" (collapse_hyphens inside s) = false).
Proof.
  revert inside. induction s as [|c s IH]; intros inside; [done|].
  cbn [collapse_hyphens].
  destruct (Ascii.eqb_spec c "-") as [->|Hne].
  - destruct inside; [apply IH|].
    destruct (IH true) as [Hin Hpre]. split; [|done].
    cbn [includes String.prefix]. destruct (ascii_dec "-" "-"); [|done].
    by rewrite Hpre, Hin.
  - destruct (IH false) as [Hin _].
    cbn [includes String.prefix]. destruct (ascii_dec "-" c) as [<-|_]; [done|].
    by rewrite Hin.
Qed.

Lemma slug_char_facts c :
  is_slug_char c = true ->
  is_ascii c = true /\ toLowerCase_char c = c /\ is_space c = false
  /\ is_word_char c || Ascii.eqb c "-" = true.
Proof. destruct c as [[] [] [] [] [] [] [] []]; by intros. Qed.

Lemma word_lower_slug c :
  (is_word_char c || Ascii.eqb c "-") && negb (in_range 65 90 c) = true -> is_slug_char c = true.
Proof.
  unfold is_word_char, is_alpha, is_slug_char.
  by destruct (in_range 97 122 c), (in_range 65 90 c), (is_digit c), (Ascii.eqb c "_"),
       (Ascii.eqb c "-").
Qed.

Lemma map_chars_id (f : ascii -> ascii) s :
  all_chars (fun c => bool_decide (f c = c)) s = true -> map_chars f s = s.
Proof.
  induction s as [|c s IH]; [done|]. cbn [all_chars map_chars].
  intros [Hc Hs]%andb_prop. apply bool_decide_eq_true in Hc. by rewrite Hc, IH.
Qed.

Lemma replace_space_runs_none inside s :
  all_chars (fun c => negb (is_space c)) s = true -> replace_space_runs inside s = s.
Proof.
  revert inside. induction s as [|c s IH]; intros inside; [done|].
  cbn [all_chars replace_space_runs]. intros [Hc Hs]%andb_prop.
  destruct (is_space c); [done|]. by rewrite IH.
Qed.

Lemma keep_word_chars_all s :
  all_chars (fun c => is_word_char c || Ascii.eqb c "-") s = true -> keep_word_chars s = s.
Proof.
  induction s as [|c s IH]; [done|]. cbn [all_chars keep_word_chars].
  intros [Hc Hs]%andb_prop. by rewrite Hc, IH.
Qed.

Lemma collapse_hyphens_none inside s :
  includes "--" s = false -> (inside = true -> String.prefix "-" s = false) ->
  collapse_hyphens inside s = s.
Proof.
  revert inside. induction s as [|c s IH]; intros inside; [done|].
  cbn [includes String.prefix collapse_hyphens].
  intros [Hpre Hin]%orb_false_elim Hinside.
  destruct (Ascii.eqb_spec c "-") as [->|Hne].
  - destruct (ascii_dec "-" "-"); [|done].
    destruct inside.
    + specialize (Hinside eq_refl). by destruct s.
    + by rewrite IH.
  - by rewrite IH.
Qed.

(** A text of slug characters with no two hyphens in a row is its own slug. *)
Lemma slugify_fixed s :
  all_chars is_slug_char s = true -> includes "--" s = false -> slugify s = Some s.
Proof.
  intros Hs Hin. unfold slugify.
  assert (Ha : all_chars is_ascii s = true).
  { apply (all_chars_impl is_slug_char); [|done]. intros c Hc. by apply slug_char_facts. }
  assert (Hl : all_chars (fun c => bool_decide (toLowerCase_char c = c)) s = true).
  { apply (all_chars_impl is_slug_char); [|done]. intros c Hc.
    apply bool_decide_eq_true. by apply slug_char_facts. }
  assert (Hsp : all_chars (fun c => negb (is_space c)) s = true).
  { apply (all_chars_impl is_slug_char); [|done]. intros c Hc.
    destruct (slug_char_facts c Hc) as (_ & _ & -> & _). done. }
  assert (Hw : all_chars (fun c => is_word_char c || Ascii.eqb c "-") s = true).
  { apply (all_chars_impl is_slug_char); [|done]. intros c Hc. by apply slug_char_facts. }
  rewrite Ha, (map_chars_id toLowerCase_char s Hl), (trim_none s Hsp).
  rewrite (replace_space_runs_none false s Hsp), (keep_word_chars_all s Hw).
  by rewrite collapse_hyphens_none.
Qed.

Lemma slugify_chars s out :
  slugify s = Some out -> all_chars is_slug_char out = true /\ includes "--" out = false.
Proof.
  unfold slugify. destruct (all_chars is_ascii s); [|done]. intros [= <-].
  split; [|apply collapse_hyphens_single].
  apply (all_chars_impl (fun c => (is_word_char c || Ascii.eqb c "-")
                                  && negb (in_range 65 90 c))); [apply word_lower_slug|].
  apply all_chars_collapse_hyphens, all_chars_and; [apply keep_word_chars_kept|].
  apply all_chars_keep_word_chars, all_chars_replace_space_runs; [done|].
  apply all_chars_trim, all_chars_lower.
Qed.
End Slugs.

(** X19.  A pattern made by [escapeRegex] is a sequence of literal atoms
    that stands for the text it was made from: every syntax character of
    the text is matched as itself. *)
Theorem escapeRegex_literal (s : string) : literal_pattern (escapeRegex s) = Some s.
Proof.
  induction s as [|c s IH]; [done|]. cbn [escapeRegex].
  destruct (is_syntax_char c) eqn:E.
  - cbn [literal_pattern]. by rewrite Ascii.eqb_refl, E, IH.
  - cbn [literal_pattern]. rewrite E, IH.
    destruct (Ascii.eqb_spec c "092") as [->|_]; [discriminate E|done].
Qed.

(** X20.  A slug is made of lower-case letters, digits, underscores and
    hyphens, has no two hyphens in a row, and is its own slug: [slugify] is
    idempotent. *)
Theorem slugify_idempotent (text slug : string) :
  slugify text = Some slug ->
  all_chars is_slug_char slug = true
  /\ includes "--" slug = false
  /\ slugify slug = Some slug.
Proof.
  intros H. destruct (slugify_chars text slug H) as [Hc Hh].
  split; [done|]. split; [done|]. by apply slugify_fixed.
Qed.

(** The title of a category. *)
Lemma slugify_idempotent_witness :
  all_chars is_slug_char "mon-forum-rpg" = true
  /\ includes "--" "mon-forum-rpg" = false
  /\ slugify "mon-forum-rpg" = Some "mon-forum-rpg".
Proof.
  apply (slugify_idempotent " Mon Forum  -- RPG! " "mon-forum-rpg").
  vm_compute. reflexivity.
Defined.

Section Decimal.
Implicit Types (s t d : string) (x n : N).

Lemma pretty_N_go_app x s : pretty_N_go x s = pretty_N_go x "" +:+ s.
Proof.
  revert s. induction (N.lt_wf_0 x) as [x _ IH]; intros s.
  assert (x = 0 \/ 0 < x)%N as [->|Hx] by lia; [by rewrite !pretty_N_go_0|].
  assert (Hlt : (x `div` 10 < x)%N) by (by apply N.div_lt).
  rewrite !(pretty_N_go_step x) by done.
  rewrite (IH _ Hlt (String (pretty_N_char (x `mod` 10)) s)).
  rewrite (IH _ Hlt (String (pretty_N_char (x `mod` 10)) "")).
  by rewrite app_assoc_string.
Qed.

Lemma pretty_N_go_last x :
  (0 < x)%N ->
  pretty_N_go x "" = pretty_N_go (x `div` 10) "" +:+ String (pretty_N_char (x `mod` 10)) "".
Proof. intros Hx. rewrite pretty_N_go_step by done. apply pretty_N_go_app. Qed.

Lemma pretty_N_char_digit x : is_digit (pretty_N_char x) = true.
Proof. unfold pretty_N_char. by repeat case_match. Qed.

Lemma pretty_N_char_value x :
  (x < 10)%N -> digit_value 10 (pretty_N_char x) = Some (Z.of_N x).
Proof.
  intros Hx.
  assert (x = 0 \/ x = 1 \/ x = 2 \/ x = 3 \/ x = 4 \/ x = 5 \/ x = 6 \/ x = 7 \/ x = 8 \/ x = 9)%N
    as H by lia.
  by repeat (destruct H as [->|H]; [done|]); subst.
Qed.

Lemma pretty_N_go_digits x : all_chars is_digit (pretty_N_go x "") = true.
Proof.
  induction (N.lt_wf_0 x) as [x _ IH].
  assert (x = 0 \/ 0 < x)%N as [->|Hx] by lia; [done|].
  rewrite pretty_N_go_last, all_chars_app by done.
  rewrite IH by (by apply N.div_lt). cbn [all_chars].
  by rewrite pretty_N_char_digit.
Qed.

Lemma digits_value_app base acc d t :
  digits_value base acc (d +:+ t)
  = match digits_value base acc d with
    | Some v => digits_value base v t
    | None => None
    end.
Proof.
  revert acc. induction d as [|c d IH]; intros acc; [done|].
  simpl. destruct (digit_value base c); [apply IH|done].
Qed.

Lemma pretty_N_go_value x : digits_value 10 0 (pretty_N_go x "") = Some (Z.of_N x).
Proof.
  induction (N.lt_wf_0 x) as [x _ IH].
  assert (x = 0 \/ 0 < x)%N as [->|Hx] by lia; [done|].
  rewrite pretty_N_go_last, digits_value_app by done.
  rewrite IH by (by apply N.div_lt). cbn [digits_value].
  rewrite pretty_N_char_value by (by apply N.mod_lt).
  f_equal. pose proof (N.div_mod x 10). lia.
Qed.

Lemma pretty_N_go_head x :
  (0 < x)%N ->
  exists c rest, pretty_N_go x "" = String c rest /\ in_range 49 57 c = true.
Proof.
  induction (N.lt_wf_0 x) as [x _ IH]. intros Hx.
  rewrite pretty_N_go_last by done.
  assert (x < 10 \/ 10 <= x)%N as [Hsmall|Hbig] by lia.
  - rewrite N.div_small, N.mod_small by done. rewrite pretty_N_go_0.
    exists (pretty_N_char x), "". split; [done|].
    assert (x = 1 \/ x = 2 \/ x = 3 \/ x = 4 \/ x = 5 \/ x = 6 \/ x = 7 \/ x = 8 \/ x = 9)%N
      as H by lia.
    by repeat (destruct H as [->|H]; [done|]); subst.
  - destruct (IH (x `div` 10)%N) as (c & rest & -> & Hc).
    + by apply N.div_lt.
    + apply N.div_str_pos. lia.
    + eexists c, _. split; [apply app_cons|done].
Qed.

Lemma pretty_pos n : (0 < n)%N -> pretty n = pretty_N_go n "".
Proof. intros Hn. unfold pretty, pretty_N. case_decide; [lia|done]. Qed.

Lemma span_all (p : ascii -> bool) d t :
  all_chars p d = true ->
  span p (d +:+ t) = (d +:+ (span p t).1, (span p t).2).
Proof.
  induction d as [|c d IH]; [intros _; rewrite !app_empty_l; by destruct (span p t)|].
  cbn [all_chars]. intros [Hc Hd]%andb_prop.
  rewrite app_cons. cbn [span]. rewrite Hc, (IH Hd). done.
Qed.

Lemma span_stop (p : ascii -> bool) (c : ascii) t :
  p c = false -> span p (String c t) = ("", String c t).
Proof. intros H. cbn [span]. by rewrite H. Qed.

(** The group matched at the head of an id followed by a text that starts
    with no digit. *)
Lemma match_id_pretty n t :
  (0 < n)%N -> (span is_digit t).1 = "" ->
  match_id (pretty n +:+ t) = Some (pretty n, (span is_digit t).2).
Proof.
  intros Hn Ht. rewrite pretty_pos by done.
  destruct (pretty_N_go_head n Hn) as (c & rest & Heq & Hc).
  unfold match_id. rewrite Heq at 1. rewrite app_cons, Hc.
  rewrite span_all by apply pretty_N_go_digits. by rewrite Ht, app_empty_r.
Qed.

(** [+m[1]] on an id. *)
Lemma StringToNumber_pretty n :
  (0 < n)%N -> StringToNumber (pretty n) = exact_integer (Z.of_N n).
Proof.
  intros Hn. rewrite pretty_pos by done.
  pose proof (pretty_N_go_digits n) as Hd.
  pose proof (pretty_N_go_value n) as Hv.
  assert (Hspan : span is_digit (pretty_N_go n "") = (pretty_N_go n "", "")).
  { rewrite <- (app_empty_r (pretty_N_go n "")) at 1. rewrite span_all by done.
    cbn [span fst snd]. by rewrite app_empty_r. }
  destruct (pretty_N_go_head n Hn) as (c & rest & Heq & Hc).
  unfold StringToNumber. rewrite trim_none.
  2:{ apply (all_chars_impl is_digit); [|done].
      intros a Ha. by destruct a as [[] [] [] [] [] [] [] []]. }
  rewrite Heq in *.
  assert (Hradix : radix_literal (String c rest) = None).
  { destruct c as [[] [] [] [] [] [] [] []]; try done. }
  rewrite Hradix.
  assert (Hsign : decimal_literal (String c rest)
                  = match digits_value 10 0 (String c rest) with
                    | Some z => exact_integer z
                    | None => NaN
                    end).
  { unfold decimal_literal.
    assert (Hbody : (match String c rest with
                     | String "-" b => (true, b)
                     | String "+" b => (false, b)
                     | _ => (false, String c rest)
                     end) = (false, String c rest)).
    { destruct c as [[] [] [] [] [] [] [] []]; try done. }
    rewrite Hbody.
    assert (Hinf : String.eqb (String c rest) "Infinity" = false).
    { destruct c as [[] [] [] [] [] [] [] []]; try done. }
    rewrite Hinf, Hspan. rewrite app_empty_r.
    destruct (digits_value 10 0 (String c rest)) as [z|]; [|done].
    cbn [exponent_part String.length]. cbn. by rewrite Z.mul_1_r. }
  rewrite Hsign, Hv. done.
Qed.

Lemma search_resource_none s :
  all_chars (fun c => negb (Ascii.eqb c "/")) s = true -> search_resource s = None.
Proof.
  induction s as [|c s IH]; [done|]. cbn [all_chars]. intros [Hc Hs]%andb_prop.
  cbn [search_resource]. rewrite (IH Hs).
  destruct (Ascii.eqb_spec c "/") as [->|Hne]; [done|].
  assert (Hm : match_resource (String c s) = None); [|by rewrite Hm].
  unfold match_resource. by destruct c as [[] [] [] [] [] [] [] []].
Qed.
End Decimal.

(** X21.  [get_res_id] reads the id back from the addresses of the forum:
    the id of a topic, forum or category address, with or without a page
    part, whatever follows the hyphen (so from the address [index_box]
    builds for a category out of its reference and the slug of its title),
    and the id of a member address. *)
Theorem get_res_id_reads_back (kind : ascii) (n page : N) (rest : string) :
  Ascii.eqb kind "t" || Ascii.eqb kind "f" || Ascii.eqb kind "c" = true ->
  (0 < n)%N -> (0 < page)%N ->
  get_res_id ("/" +:+ String kind (pretty n) +:+ "-" +:+ rest) = exact_integer (Z.of_N n)
  /\ get_res_id ("/" +:+ String kind (pretty n) +:+ "p" +:+ pretty page +:+ "-" +:+ rest)
     = exact_integer (Z.of_N n)
  /\ get_res_id ("/u" +:+ pretty n) = exact_integer (Z.of_N n).
Proof.
  intros Hkind Hn Hpage. split; [|split].
  - unfold get_res_id.
    change ("/" +:+ String kind (pretty n) +:+ "-" +:+ rest)
      with (String "/" (String kind (pretty n +:+ String "-" rest))).
    cbn [search_resource match_resource]. rewrite Hkind.
    rewrite (match_id_pretty n (String "-" rest)) by done.
    rewrite (span_stop is_digit "-" rest) by done. cbn [snd].
    by apply StringToNumber_pretty.
  - unfold get_res_id.
    change ("/" +:+ String kind (pretty n) +:+ "p" +:+ pretty page +:+ "-" +:+ rest)
      with (String "/" (String kind (pretty n +:+ String "p" (pretty page +:+ String "-" rest)))).
    cbn [search_resource match_resource]. rewrite Hkind.
    rewrite (match_id_pretty n (String "p" _)) by done.
    rewrite (span_stop is_digit "p") by done. cbn [snd]. cbv iota.
    rewrite (match_id_pretty page (String "-" rest)) by done.
    rewrite (span_stop is_digit "-" rest) by done. cbn [snd].
    by apply StringToNumber_pretty.
  - unfold get_res_id.
    change ("/u" +:+ pretty n) with (String "/" (String "u" (pretty n))).
    cbn [search_resource match_resource Ascii.eqb Bool.eqb orb].
    rewrite search_resource_none.
    2:{ cbn [all_chars Ascii.eqb Bool.eqb negb andb]. rewrite pretty_pos by done.
        apply (all_chars_impl is_digit); [|apply pretty_N_go_digits].
        intros a Ha. by destruct a as [[] [] [] [] [] [] [] []]. }
    cbn [match_user].
    rewrite <- (app_empty_r (pretty n)) at 1.
    rewrite (match_id_pretty n "") by done. cbn [span snd all_chars].
    by apply StringToNumber_pretty.
Qed.

(** The address of the third category and of page 30 of a topic. *)
Lemma get_res_id_reads_back_witness :
  get_res_id ("/" +:+ String "c" (pretty 3%N) +:+ "-" +:+ "mon-forum-rpg")
  = exact_integer (Z.of_N 3)
  /\ get_res_id ("/" +:+ String "c" (pretty 3%N) +:+ "p" +:+ pretty 30%N +:+ "-" +:+ "mon-forum-rpg")
     = exact_integer (Z.of_N 3)
  /\ get_res_id ("/u" +:+ pretty 3%N) = exact_integer (Z.of_N 3).
Proof.
  apply (get_res_id_reads_back "c" 3 30 "mon-forum-rpg").
  - reflexivity.
  - lia.
  - lia.
Defined.

(** An address with no slash has no id: [get_res_id] gives 0. *)
Theorem get_res_id_no_match (p : string) :
  all_chars (fun c => negb (Ascii.eqb c "/")) p = true -> get_res_id p = Integer 0.
Proof.
  intros Hp. unfold get_res_id. rewrite (search_resource_none p Hp).
  destruct p as [|c p']; [done|]. cbn [all_chars] in Hp. apply andb_prop in Hp as [Hc _].
  assert (Hu : match_user (String c p') = None); [|by rewrite Hu].
  unfold match_user. by destruct c as [[] [] [] [] [] [] [] []].
Qed.

(** The empty address of a forum without a link. *)
Lemma get_res_id_no_match_witness : get_res_id "" = Integer 0.
Proof. apply (get_res_id_no_match ""). reflexivity. Defined.

(** * The entry point *)
Section EntryPoint.
Implicit Types (st : state) (filters : registry) (data store : value).

Lemma applyFilter_chain filters filters' name payload args :
  chain_of filters name = chain_of filters' name ->
  applyFilter filters name payload args = applyFilter filters' name payload args.
Proof. intros H. unfold applyFilter, applyFilter_calls. by rewrite H. Qed.

Lemma bind_ext {A B} (m : M A) (k k' : A -> M B) st :
  (forall a st', k a st' = k' a st') -> bind m k st = bind m k' st.
Proof. intros H. unfold bind. by destruct (m st) as [[a|e|] st']. Qed.

Lemma bind_ext_l {A B} (m m' : M A) (k : A -> M B) st :
  m st = m' st -> bind m k st = bind m' k st.
Proof. intros H. unfold bind. by rewrite H. Qed.

Lemma render_entries_ext (f g : string -> value -> M string) innerTemplate substituted keys st :
  (forall t d st', f t d st' = g t d st') ->
  render_entries f innerTemplate substituted keys st
  = render_entries g innerTemplate substituted keys st.
Proof.
  intros H. revert st. induction keys as [|key rest IH]; intros st; [done|].
  cbn [render_entries].
  rewrite (bind_ext_l (render_entry f innerTemplate substituted key)
             (render_entry g innerTemplate substituted key)).
  - apply bind_ext. intros block st'. apply bind_ext_l, IH.
  - unfold render_entry. apply bind_ext. intros [|] st'; [|done]. apply bind_ext_l, H.
Qed.

Lemma render_block_ext (f g : string -> value -> M string) innerTemplate substituted data st :
  (forall t d st', f t d st' = g t d st') ->
  render_block f innerTemplate substituted data st
  = render_block g innerTemplate substituted data st.
Proof.
  intros H. unfold render_block.
  destruct (String.eqb (typeof substituted) "boolean"); [by destruct (truthy substituted)|].
  destruct (String.eqb (typeof substituted) "object"); [|done].
  by apply render_entries_ext.
Qed.

(** The engine reads the registry through the [token] chain only. *)
Lemma substitute_loop_chain fuel filters filters' template tokens data st :
  chain_of filters "token" = chain_of filters' "token" ->
  substitute_loop fuel filters template tokens data st
  = substitute_loop fuel filters' template tokens data st.
Proof.
  intros Hchain.
  assert (Hres : forall name d t, resolve filters name d t = resolve filters' name d t).
  { intros name d t. unfold resolve. by rewrite (applyFilter_chain filters filters'). }
  revert template tokens data st.
  induction fuel as [|fuel IH]; intros template tokens data st; [done|].
  cbn [substitute_loop]. destruct tokens as [|[value|flag value] rest]; [done| |].
  - apply bind_ext_l, IH.
  - destruct (String.eqb flag "/"); [apply IH|]. rewrite Hres.
    destruct (find_closing value rest) as [innerTokens [after|]].
    + etrans.
      * apply bind_ext_l. apply render_block_ext. intros t d st'.
        apply bind_ext. intros inner st''. apply IH.
      * apply bind_ext. intros block st'. apply bind_ext_l, IH.
    + apply bind_ext. intros text st'. apply bind_ext_l, IH.
Qed.

Lemma substitute_chain filters filters' template data st :
  chain_of filters "token" = chain_of filters' "token" ->
  substitute filters template data st = substitute filters' template data st.
Proof.
  intros Hchain. unfold substitute, substitute_fuel. apply bind_ext. intros tokens st'.
  by apply substitute_loop_chain.
Qed.

Lemma object_assign_keys (keys : list string) source (target : list (string * value)) key :
  assoc key (fold_left (fun acc k => assoc_set k (get_own source k) acc) keys target)
  = if bool_decide (key ∈ keys) then Some (get_own source key) else assoc key target.
Proof.
  revert target. induction keys as [|k keys IH]; intros target; cbn [fold_left].
  - by rewrite bool_decide_eq_false_2 by apply not_elem_of_nil.
  - rewrite IH. destruct (decide (key ∈ keys)) as [Hin|Hin].
    + rewrite !bool_decide_eq_true_2; [done|by right|done].
    + rewrite (bool_decide_eq_false_2 (key ∈ keys)) by done.
      destruct (decide (k = key)) as [->|Hne].
      * rewrite bool_decide_eq_true_2 by (by left). apply assoc_set_eq.
      * rewrite bool_decide_eq_false_2 by (intros [?|?]%elem_of_cons; congruence).
        by apply assoc_set_ne.
Qed.
End EntryPoint.

(** X22.  [extendStore] keeps every own enumerable property of the data and
    adds [$store]; a [$store] of the data itself is kept in place of the
    global store.  The key [__proto__] is left aside: assigning it sets the
    prototype. *)
Theorem extendStore_properties (store data : value) (key : string) :
  key <> "__proto__" ->
  hasOwnProperty_call (extendStore store data) key
  = Returns (bool_decide (key ∈ own_enumerable_keys data) || String.eqb key "$store")
  /\ (key ∈ own_enumerable_keys data ->
      get_own (extendStore store data) key = get_own data key)
  /\ ("$store" ∉ own_enumerable_keys data ->
      get_own (extendStore store data) "$store" = store).
Proof.
  intros _. unfold extendStore, object_assign. cbn [hasOwnProperty_call get_own]. unfold has_key.
  split; [|split].
  - rewrite object_assign_keys. case_bool_decide; [done|]. cbn [assoc orb].
    rewrite String.eqb_sym. by destruct (String.eqb key "$store").
  - intros Hin. rewrite object_assign_keys. by rewrite bool_decide_eq_true_2.
  - intros Hnot. rewrite object_assign_keys. by rewrite bool_decide_eq_false_2.
Qed.

(** Data that brings a user name and its own store. *)
Lemma extendStore_properties_witness :
  let data := VObj [("name", VStr "a"); ("$store", VNull)] in
  hasOwnProperty_call (extendStore (VObj []) data) "name"
  = Returns (bool_decide ("name" ∈ own_enumerable_keys data) || String.eqb "name" "$store")
  /\ ("name" ∈ own_enumerable_keys data ->
      get_own (extendStore (VObj []) data) "name" = get_own data "name")
  /\ ("$store" ∉ own_enumerable_keys data ->
      get_own (extendStore (VObj []) data) "$store" = VObj []).
Proof.
  apply (extendStore_properties (VObj []) (VObj [("name", VStr "a"); ("$store", VNull)]) "name").
  discriminate.
Defined.

(** X23.  The [init] chain runs in the first call of [Potion] at most: every
    call leaves [initialized] set, also when it throws, and once it is set
    the result of [Potion] does not depend on what is registered under
    [init]. *)
Theorem Potion_init_once (store : value) (templates : list (string * string))
    (filters : registry) (template data : value) (rt : runtime) :
  (forall r rt', Potion store templates filters template data rt = Some (r, rt') ->
     initialized rt' = true)
  /\ (forall filters',
        initialized rt = true ->
        (forall name, name <> "init" -> chain_of filters name = chain_of filters' name) ->
        Potion store templates filters template data rt
        = Potion store templates filters' template data rt).
Proof.
  split.
  - intros r rt'. unfold Potion.
    destruct (if initialized rt then _ else _) as [_|e]; [|by intros [= <- <-]].
    destruct (applyFilter filters "templateBefore" _ _) as [before|e]; [|by intros [= <- <-]].
    destruct (template_or_named templates before) as [[chosen|e]|]; [|by intros [= <- <-]|done].
    destruct (applyFilter filters "template" _ _) as [after|e]; [|by intros [= <- <-]].
    destruct after as [| |b|n|text|items|props]; cbn [truthy].
    + by intros [= <- <-].
    + by intros [= <- <-].
    + destruct b; [done|by intros [= <- <-]].
    + destruct (negb _); [done|by intros [= <- <-]].
    + destruct (String.eqb text ""); [by intros [= <- <-]|].
      destruct (substitute filters text _ (engine rt)) as [[out|e|] st]; by intros [= <- <-].
    + done.
    + done.
  - intros filters' Hinit Hchains. unfold Potion. rewrite Hinit.
    assert (Hafter : forall rendered,
              applyFilter filters "templateAfter" rendered [extendStore store data]
              = applyFilter filters' "templateAfter" rendered [extendStore store data]).
    { intros rendered. by apply applyFilter_chain, Hchains. }
    rewrite (applyFilter_chain filters filters' "templateBefore") by (by apply Hchains).
    destruct (applyFilter filters' "templateBefore" _ _) as [before|e]; [|done].
    destruct (template_or_named templates before) as [[chosen|e]|]; [|done|done].
    rewrite (applyFilter_chain filters filters' "template") by (by apply Hchains).
    destruct (applyFilter filters' "template" _ _) as [after|e]; [|done].
    destruct after as [| |b|n|text|items|props]; cbn [truthy]; rewrite ?Hafter; try done.
    destruct (String.eqb text ""); [done|].
    rewrite (substitute_chain filters filters') by (by apply Hchains).
    destruct (substitute filters' text _ (engine rt)) as [[out|e|] st]; [|done|done].
    by rewrite Hafter.
Qed.

(** X24.  A template that is neither a string nor an array is refused: with
    nothing registered under [init] and [templateBefore], [Potion] throws a
    TypeError before it renders anything, and only [initialized] changes. *)
Theorem Potion_refuses_non_text (store : value) (templates : list (string * string))
    (filters : registry) (template data : value) (rt : runtime) :
  chain_of filters "init" = [] -> chain_of filters "templateBefore" = [] ->
  match template with
  | VStr _ | VArr _ => True
  | _ => Potion store templates filters template data rt
         = Some (Thrown TypeError, Runtime true (engine rt))
  end.
Proof.
  intros Hinit Hbefore.
  assert (Hpass : forall name, chain_of filters name = [] ->
            is_object_prototype_member name = false ->
            applyFilter filters name template [extendStore store data] = Returns template).
  { intros name Hname Hmember. unfold applyFilter, applyFilter_calls.
    by rewrite Hmember, Hname. }
  unfold Potion.
  rewrite (Hpass "init" Hinit eq_refl), (Hpass "templateBefore" Hbefore eq_refl).
  destruct template; try done; by destruct (initialized rt).
Qed.

(** [potion()] called with no template, before anything was rendered. *)
Lemma Potion_refuses_non_text_witness :
  Potion VNull [] default_filters VUndefined VUndefined initial_runtime
  = Some (Thrown TypeError, Runtime true (engine initial_runtime)).
Proof.
  apply (Potion_refuses_non_text VNull [] default_filters VUndefined VUndefined initial_runtime).
  - reflexivity.
  - reflexivity.
Defined.

Import Refs.

(** * References *)
Section References.
Implicit Types (n : node) (refs : refs_table) (here way : list nat) (name : string).

Lemma collect_refs_children here tagName attributes childNodes refs :
  collect_refs here (Element tagName attributes childNodes) refs
  = let '(attributes', refs1) := register_ref here attributes refs in
    let '(children', refs2) := collect_children here 0 childNodes refs1 in
    (Element tagName attributes' children', refs2).
Proof.
  cbn [collect_refs]. destruct (register_ref here attributes refs) as [attributes' refs1].
  match goal with
  | |- (let '(_, _) := ?go 0 childNodes refs1 in _) = _ =>
      assert (H : forall l i r, go i l r = collect_children here i l r)
  end.
  { induction l as [|child rest IH]; intros i r; [done|].
    cbn [collect_children]. destruct (collect_refs (here ++ [i]) child r) as [child' refs'].
    by rewrite IH. }
  by rewrite H.
Qed.








Lemma elem_of_assoc_set {A} key (v : A) (props : list (string * A)) (entry : string * A) :
  entry ∈ assoc_set key v props -> entry ∈ props \/ entry = (key, v).
Proof.
  induction props as [|[k w] rest IH]; cbn [assoc_set].
  - intros ?%list_elem_of_singleton. by right.
  - destruct (String.eqb k key) eqn:E.
    + apply String.eqb_eq in E. subst k.
      intros [->|Hin]%elem_of_cons; [by right|left; by right].
    + intros [->|Hin]%elem_of_cons; [left; by left|].
      destruct (IH Hin) as [?|?]; [left; by right|by right].
Qed.

Lemma elem_of_assoc {A} key (v : A) (props : list (string * A)) :
  assoc key props = Some v -> (key, v) ∈ props.
Proof.
  induction props as [|[k w] rest IH]; cbn [assoc]; [done|].
  destruct (String.eqb k key) eqn:E.
  - apply String.eqb_eq in E. subst k. intros [= ->]. by left.
  - intros H. right. by apply IH.
Qed.

Lemma register_ref_sound here attributes refs name way :
  (name, way) ∈ (register_ref here attributes refs).2 ->
  (name, way) ∈ refs
  \/ (way = here /\ name <> "" /\ getAttribute attributes "#ref" = Some name).
Proof.
  unfold register_ref.
  destruct (getAttribute attributes "#ref") as [refName|] eqn:E; [|by left].
  destruct (String.eqb refName "") eqn:En; [by left|]. cbn [snd].
  destruct (String.eqb refName "__proto__"); [by left|].
  intros [Hin|[= -> ->]]%elem_of_assoc_set; [by left|right].
  split; [done|]. split; [|done]. intros ->. discriminate En.
Qed.

Lemma collect_refs_sound n : forall here refs name way,
  (name, way) ∈ (collect_refs here n refs).2 ->
  (name, way) ∈ refs
  \/ exists rest, way = here ++ rest /\ name <> "" /\ ref_at rest n = Some name.
Proof.
  revert n. fix IH 1. intros [tagName attributes childNodes|text|data] here refs name way;
    [|by left|by left].
  rewrite collect_refs_children.
  pose proof (register_ref_sound here attributes refs name way) as Hattr.
  destruct (register_ref here attributes refs) as [attributes' refs1]. cbn [snd] in Hattr.
  assert (Hkids : forall i r,
            (name, way) ∈ (collect_children here i childNodes r).2 ->
            (name, way) ∈ r
            \/ exists j child rest,
                 childNodes !! j = Some child /\ way = here ++ (i + j) :: rest
                 /\ name <> "" /\ ref_at rest child = Some name).
  { clear Hattr. induction childNodes as [|child rest IHrest]; intros i r; [by left|].
    cbn [collect_children]. specialize (IH child (here ++ [i]) r name way).
    destruct (collect_refs (here ++ [i]) child r) as [child' refs'].
    specialize (IHrest (S i) refs').
    destruct (collect_children here (S i) rest refs') as [rest' refs'']. cbn [snd] in *.
    intros Hin. destruct (IHrest Hin) as [Hin'|(j & c & q & Hj & -> & Hne & Hq)].
    - destruct (IH Hin') as [?|(q & -> & Hne & Hq)]; [by left|right].
      exists 0, child, q. rewrite Nat.add_0_r, <- app_assoc. done.
    - right. exists (S j), c, q. split; [done|]. split; [|done].
      by replace (i + S j) with (S i + j) by lia. }
  specialize (Hkids 0 refs1).
  destruct (collect_children here 0 childNodes refs1) as [children' refs2]. cbn [snd] in *.
  intros Hin. destruct (Hkids Hin) as [Hin'|(j & c & q & Hj & -> & Hne & Hq)].
  - destruct (Hattr Hin') as [?|(-> & Hne & Hq)]; [by left|right].
    exists []. rewrite app_nil_r. split; [done|]. split; [done|].
    unfold ref_at. by cbn [node_at].
  - right. exists (j :: q). split; [done|]. split; [done|].
    unfold ref_at in *. cbn [node_at]. by rewrite Hj.
Qed.

Lemma collect_children_sound here l : forall i refs name way,
  (name, way) ∈ (collect_children here i l refs).2 ->
  (name, way) ∈ refs
  \/ exists j child rest,
       l !! j = Some child /\ way = here ++ (i + j) :: rest
       /\ name <> "" /\ ref_at rest child = Some name.
Proof.
  induction l as [|child rest IH]; intros i refs name way; [by left|].
  cbn [collect_children].
  pose proof (collect_refs_sound child (here ++ [i]) refs name way) as Hc.
  destruct (collect_refs (here ++ [i]) child refs) as [child' refs'].
  specialize (IH (S i) refs' name way).
  destruct (collect_children here (S i) rest refs') as [rest' refs'']. cbn [snd] in *.
  intros Hin. destruct (IH Hin) as [Hin'|(j & c & q & Hj & -> & Hne & Hq)].
  - destruct (Hc Hin') as [?|(q & -> & Hne & Hq)]; [by left|right].
    exists 0, child, q. rewrite Nat.add_0_r, <- app_assoc. done.
  - right. exists (S j), c, q. split; [done|]. split; [|done].
    by replace (i + S j) with (S i + j) by lia.
Qed.

Lemma elem_of_merged (refs previous : refs_table) (entry : string * list nat) :
  entry ∈ fold_left (fun acc ref => assoc_set ref.1 ref.2 acc) refs previous ->
  entry ∈ previous \/ entry ∈ refs.
Proof.
  revert previous. induction refs as [|[k w] rest IH]; intros previous; [by left|].
  cbn [fold_left fst snd]. intros Hin.
  destruct (IH _ Hin) as [[?| ->]%elem_of_assoc_set|?]; [by left|right; by left|right; by right].
Qed.
End References.


(** X26.  Every reference is one that was there before or leads to an
    element below the container that asked for that name, a name that is
    not empty, in its [#ref] attribute. *)
Theorem registerRefs_sound (container : node) (previous : refs_table) (name : string)
    (way : list nat) :
  assoc name (registerRefs container previous).2 = Some way ->
  (name, way) ∈ previous
  \/ (way <> [] /\ name <> "" /\ ref_at way container = Some name).
Proof.
  intros Hassoc. apply elem_of_assoc in Hassoc.
  destruct container as [tagName attributes childNodes|text|data];
    [|by left|by left].
  cbn [registerRefs] in Hassoc.
  pose proof (collect_children_sound [] childNodes 0 [] name way) as Hsound.
  destruct (collect_children [] 0 childNodes []) as [children' refs]. cbn [fst snd] in *.
  destruct (elem_of_merged refs previous _ Hassoc) as [?|Hin]; [by left|right].
  destruct (Hsound Hin) as [?%elem_of_nil|(j & child & rest & Hj & -> & Hne & Href)]; [done|].
  split; [done|]. split; [done|].
  unfold ref_at in *. cbn [app node_at Nat.add]. by rewrite Hj.
Qed.

(** The button of the sample form, mounted in a container. *)
Lemma registerRefs_sound_witness :
  ("button", [0; 1; 0]) ∈ ([] : refs_table)
  \/ ([0; 1; 0] <> [] /\ "button" <> ""
      /\ ref_at [0; 1; 0] (Element "DIV" [] [sample_form]) = Some "button").
Proof.
  apply (registerRefs_sound (Element "DIV" [] [sample_form]) [] "button" [0; 1; 0]).
  vm_compute. reflexivity.
Defined.

Import Binder.

(** * Event directives *)
Section Binding.
Implicit Types (el : bound_element) (ls : list listener) (next : nat) (type : string).

Lemma filter_all {A} (P : A -> Prop) `{!forall x, Decision (P x)} (l : list A) :
  (forall x, x ∈ l -> P x) -> filter P l = l.
Proof.
  induction l as [|x l IH]; [done|]. intros Hall.
  rewrite filter_cons_True by (apply Hall; by left).
  f_equal. apply IH. intros y Hy. apply Hall. by right.
Qed.

Lemma filter_ext_elem {A} (P Q : A -> Prop) `{!forall x, Decision (P x)}
    `{!forall x, Decision (Q x)} (l : list A) :
  (forall x, x ∈ l -> P x <-> Q x) -> filter P l = filter Q l.
Proof.
  induction l as [|x l IH]; [done|]. intros Hall.
  assert (Hl : filter P l = filter Q l) by (apply IH; intros y Hy; apply Hall; by right).
  destruct (decide (P x)) as [HP|HP].
  - rewrite (filter_cons_True P) by done.
    rewrite (filter_cons_True Q) by (apply Hall; [by left|done]). by rewrite Hl.
  - rewrite (filter_cons_False P) by done.
    rewrite (filter_cons_False Q); [done|]. intros HQ. apply HP, Hall; [by left|done].
Qed.

Lemma filter_twice {A} (P Q : A -> Prop) `{!forall x, Decision (P x)}
    `{!forall x, Decision (Q x)} (l : list A) :
  filter P (filter Q l) = filter (fun x => Q x /\ P x) l.
Proof.
  induction l as [|x l IH]; [done|].
  destruct (decide (Q x)) as [HQ|HQ].
  - rewrite (filter_cons_True Q) by done.
    destruct (decide (P x)) as [HP|HP].
    + rewrite !filter_cons_True by done. by rewrite IH.
    + rewrite !filter_cons_False by tauto. done.
  - rewrite (filter_cons_False Q) by done. rewrite filter_cons_False by tauto. done.
Qed.

Lemma NoDup_fst_eq {A B} (l : list (A * B)) k v1 v2 :
  NoDup l.*1 -> (k, v1) ∈ l -> (k, v2) ∈ l -> v1 = v2.
Proof.
  induction l as [|[k' v'] l IH]; [by intros _ ?%elem_of_nil|].
  cbn [fmap list_fmap fst]. intros [Hk Hl]%NoDup_cons H1 H2.
  apply elem_of_cons in H1 as [H1|H1]; apply elem_of_cons in H2 as [H2|H2].
  - congruence.
  - injection H1 as -> ->. destruct Hk. apply list_elem_of_fmap. by exists (k', v2).
  - injection H2 as -> ->. destruct Hk. apply list_elem_of_fmap. by exists (k', v1).
  - by apply IH.
Qed.

Lemma bind_directive_attributes contexts parents data attr el next el' next' :
  bind_directive contexts parents data attr el next = Some (el', next') ->
  attributes el'
  = if decide (is_Some (match_handler attr.2))
    then removeAttribute attr.1 (attributes el) else attributes el.
Proof.
  unfold bind_directive.
  destruct (match_handler attr.2) as [[fnName group]|].
  - rewrite decide_True by done.
    destruct (find_local_data contexts (attributes el :: parents)) as [localData|]; [|done].
    destruct (match local_function localData data fnName with
              | Some c => Some c
              | None => data_function data fnName
              end); by intros [= <- <-].
  - rewrite decide_False by (by intros [? ?]). by intros [= <- <-].
Qed.

Lemma bind_all_attributes contexts parents data directives :
  forall el next el' next',
    bind_all contexts parents data directives el next = Some (el', next') ->
    attributes el'
    = filter (fun a : string * string =>
                ~ Exists (fun d : string * string =>
                            d.1 = a.1 /\ is_Some (match_handler d.2)) directives)
             (attributes el).
Proof.
  induction directives as [|d rest IH]; intros el next el' next'; cbn [bind_all].
  - intros [= <- <-]. symmetry. apply filter_all. intros a _. by intros ?%Exists_nil.
  - destruct (bind_directive contexts parents data d el next) as [[el1 next1]|] eqn:E; [|done].
    intros Hrest. rewrite (IH _ _ _ _ Hrest).
    rewrite (bind_directive_attributes _ _ _ _ _ _ _ _ E).
    destruct (decide (is_Some (match_handler d.2))) as [Hd|Hd].
    + unfold removeAttribute. rewrite filter_twice. apply list_filter_iff.
      intros a. rewrite Exists_cons. split.
      * intros [Hne Hnot] [[Heq _]|?]; [by apply Hne|done].
      * intros Hnot. split; [intros Heq; apply Hnot; by left|intros ?; apply Hnot; by right].
    + apply list_filter_iff. intros a. rewrite Exists_cons. split.
      * intros Hnot [[_ ?]|?]; done.
      * intros Hnot ?. apply Hnot. by right.
Qed.

Lemma removeEventListener_elem type callback ls l :
  l ∈ removeEventListener type callback ls -> l ∈ ls.
Proof.
  unfold removeEventListener. destruct callback as [h|]; [|done].
  by intros [_ ?]%list_elem_of_filter.
Qed.

Lemma NoDup_ids_filter (P : listener -> Prop) `{!forall l, Decision (P l)} ls :
  NoDup ((fun l => handler_id (listener_handler l)) <$> ls) ->
  NoDup ((fun l => handler_id (listener_handler l)) <$> filter P ls).
Proof.
  induction ls as [|l ls IH]; [done|]. cbn [fmap list_fmap]. intros [Hl Hls]%NoDup_cons.
  destruct (decide (P l)).
  - rewrite filter_cons_True by done. cbn [fmap list_fmap]. apply NoDup_cons. split; [|by apply IH].
    intros (x & Hx & [_ Hin]%list_elem_of_filter)%list_elem_of_fmap.
    apply Hl. apply list_elem_of_fmap. by exists x.
  - rewrite filter_cons_False by done. by apply IH.
Qed.

Lemma bind_directive_ok contexts parents data attr el next el' next' :
  bound_ok el next ->
  bind_directive contexts parents data attr el next = Some (el', next') ->
  bound_ok el' next'.
Proof.
  intros (Hnd & Hlt & Hrec). unfold bind_directive.
  destruct (match_handler attr.2) as [[fnName group]|]; [|by intros [= <- <-]].
  destruct (find_local_data contexts (attributes el :: parents)) as [localData|]; [|done].
  destruct (match local_function localData data fnName with
            | Some c => Some c
            | None => data_function data fnName
            end) as [c|]; [|by intros [= <- <-]].
  intros [= <- <-].
  set (eventType := hd "" (split_on "." (slice_1 attr.1))).
  set (h := Handler next c _ _).
  set (removed := removeEventListener eventType (assoc eventType (boundEvents el)) (listeners el)).
  set (new := Listener eventType h _ _ _).
  assert (Hsub : forall l, l ∈ removed -> l ∈ listeners el)
    by (intros l; apply removeEventListener_elem).
  assert (Hlt' : Forall (fun l => handler_id (listener_handler l) < next) removed).
  { apply Forall_forall. intros l Hl. rewrite Forall_forall in Hlt. by apply Hlt, Hsub. }
  assert (Hadd : addEventListener new removed = removed ++ [new]).
  { unfold addEventListener. rewrite decide_False; [done|].
    intros (l & Hl & _ & Hid & _)%Exists_exists.
    rewrite Forall_forall in Hlt'. specialize (Hlt' l Hl). cbn in Hid. lia. }
  unfold bound_ok. cbn [listeners boundEvents]. rewrite Hadd.
  split; [|split].
  - rewrite fmap_app. cbn [fmap list_fmap]. apply NoDup_app. split; [|split].
    + subst removed. unfold removeEventListener.
      destruct (assoc eventType (boundEvents el)); [by apply NoDup_ids_filter|done].
    + intros id (l & Hid & Hl)%list_elem_of_fmap Hnew%list_elem_of_singleton.
      rewrite Forall_forall in Hlt'. specialize (Hlt' l Hl). cbn in Hnew, Hlt'. lia.
    + apply NoDup_singleton.
  - apply Forall_app. split.
    + eapply Forall_impl; [exact Hlt'|]. intros l Hl. cbn in *. lia.
    + apply Forall_singleton. cbn. lia.
  - apply Forall_app. split.
    + apply Forall_forall. intros l Hl Hcap.
      rewrite Forall_forall in Hrec.
      destruct (Hrec l (Hsub l Hl) Hcap) as (h0 & Hassoc & Hid).
      destruct (decide (listener_type l = eventType)) as [Htype|Htype].
      * exfalso. subst removed. rewrite <- Htype in Hl. rewrite Htype in Hassoc.
        rewrite Htype in Hl. rewrite Hassoc in Hl. cbn [removeEventListener] in Hl.
        apply list_elem_of_filter in Hl as [Hnot _]. apply Hnot. by split.
      * exists h0. split; [|done]. rewrite assoc_set_ne; [done|]. congruence.
    + apply Forall_singleton. intros _. exists h. split; [|done]. apply assoc_set_eq.
Qed.

Lemma bind_all_ok contexts parents data directives :
  forall el next el' next',
    bound_ok el next ->
    bind_all contexts parents data directives el next = Some (el', next') ->
    bound_ok el' next'.
Proof.
  induction directives as [|d rest IH]; intros el next el' next' Hok; cbn [bind_all].
  - by intros [= <- <-].
  - destruct (bind_directive contexts parents data d el next) as [[el1 next1]|] eqn:E; [|done].
    apply IH. by eapply bind_directive_ok.
Qed.

Lemma bound_ok_bubbling el next type :
  bound_ok el next -> length (bubbling type (listeners el)) <= 1.
Proof.
  intros (Hnd & _ & Hrec).
  assert (Hsame : forall l1 l2, l1 ∈ bubbling type (listeners el) ->
            l2 ∈ bubbling type (listeners el) ->
            handler_id (listener_handler l1) = handler_id (listener_handler l2)).
  { intros l1 l2 [[<- Hc1] Hl1]%list_elem_of_filter [[Ht2 Hc2] Hl2]%list_elem_of_filter.
    rewrite Forall_forall in Hrec.
    destruct (Hrec l1 Hl1 Hc1) as (h1 & Ha1 & <-).
    destruct (Hrec l2 Hl2 Hc2) as (h2 & Ha2 & <-).
    rewrite Ht2 in Ha2. congruence. }
  pose proof (NoDup_ids_filter (fun l => listener_type l = type /\ listener_capture l = false)
                (listeners el) Hnd) as Hnd'.
  fold (bubbling type (listeners el)) in Hnd'.
  destruct (bubbling type (listeners el)) as [|l1 [|l2 rest]]; cbn [length]; [lia|lia|].
  exfalso. cbn [fmap list_fmap] in Hnd'. apply NoDup_cons in Hnd' as [Hnot _].
  apply Hnot. rewrite (Hsame l1 l2); [by left|by left|right; by left].
Qed.
End Binding.

(** X27.  [bindEvents] takes off the element exactly the directive
    attributes it can read, those whose value is a function name with an
    optional argument list, whether or not the function is found; every
    other attribute stays, in its place. *)
Theorem bindEvents_consumes_directives (contexts : list (string * value))
    (parents : list (list (string * string))) (data : app_data) (el el' : bound_element)
    (next next' : nat) :
  NoDup (attributes el).*1 ->
  bindEvents contexts parents data el next = Some (el', next') ->
  attributes el' = filter (fun attr => ~ readable attr) (attributes el).
Proof.
  intros Hnd Hbind. unfold bindEvents in Hbind.
  rewrite (bind_all_attributes _ _ _ _ _ _ _ _ Hbind).
  apply filter_ext_elem. intros a Ha. unfold readable.
  rewrite Exists_exists. split.
  - intros Hnot [Hat Hread]. apply Hnot. exists a. split; [|done].
    apply list_elem_of_filter. by split.
  - intros Hnot ([dn dv] & [Hat Hin]%list_elem_of_filter & Heq & Hread).
    destruct a as [an av]. cbn [fst snd] in *. subst dn.
    assert (dv = av) as -> by (by eapply NoDup_fst_eq).
    by apply Hnot.
Qed.

(** The sample button loses both directives and keeps its class. *)
Lemma bindEvents_consumes_directives_witness :
  attributes (BoundElement [("class", "go")]
                [("click", Handler 1 (Method 2) [] ["prevent"])]
                [Listener "click" (Handler 1 (Method 2) [] ["prevent"]) false false false])
  = filter (fun attr => ~ readable attr) (attributes sample_button).
Proof.
  apply (bindEvents_consumes_directives [] [] sample_data sample_button _ 0 2).
  - apply (bool_decide_unpack _). vm_compute. exact I.
  - vm_compute. reflexivity.
Defined.

(** X28.  Handlers of the bubbling phase are replaced, not stacked: after
    [bindEvents] on an element that met [bound_ok], as every element without
    listeners does, the element meets it again and has at most one listener
    of the bubbling phase for each event type. *)
Theorem bindEvents_one_handler (contexts : list (string * value))
    (parents : list (list (string * string))) (data : app_data) (el el' : bound_element)
    (next next' : nat) (type : string) :
  bound_ok el next ->
  bindEvents contexts parents data el next = Some (el', next') ->
  bound_ok el' next' /\ length (bubbling type (listeners el')) <= 1.
Proof.
  intros Hok Hbind.
  assert (Hok' : bound_ok el' next') by (by eapply bind_all_ok).
  split; [done|]. by eapply bound_ok_bubbling.
Qed.

(** The sample button: [send] takes the place of [save]. *)
Lemma bindEvents_one_handler_witness :
  bound_ok (BoundElement [("class", "go")]
              [("click", Handler 1 (Method 2) [] ["prevent"])]
              [Listener "click" (Handler 1 (Method 2) [] ["prevent"]) false false false]) 2
  /\ length (bubbling "click"
               (listeners (BoundElement [("class", "go")]
                  [("click", Handler 1 (Method 2) [] ["prevent"])]
                  [Listener "click" (Handler 1 (Method 2) [] ["prevent"]) false false false])))
     <= 1.
Proof.
  apply (bindEvents_one_handler [] [] sample_data sample_button _ 0 2 "click").
  - split; [apply NoDup_nil_2|]. split; apply Forall_nil_2.
  - vm_compute. reflexivity.
Defined.

Import Segments.

(** * Tokens written back as text *)
Section Rewritten.
Implicit Types (s t u : string) (l : list token).

Lemma skip_spaces_app_cons s c r t :
  skip_spaces s = String c r -> skip_spaces (s +:+ t) = String c (r +:+ t).
Proof.
  induction s as [|d s IH]; [done|]. rewrite app_cons. cbn [skip_spaces].
  destruct (is_space d); [apply IH|]. by intros [= -> ->].
Qed.

Lemma skip_spaces_app_empty s t : skip_spaces s = "" -> skip_spaces (s +:+ t) = skip_spaces t.
Proof.
  induction s as [|d s IH]; [by rewrite app_empty_l|]. rewrite app_cons. cbn [skip_spaces].
  by destruct (is_space d).
Qed.

Lemma span_app_stop (p : ascii -> bool) s more c r t :
  span p s = (more, String c r) -> span p (s +:+ t) = (more, String c r +:+ t).
Proof.
  revert more. induction s as [|d s IH]; intros more; [done|].
  rewrite app_cons. cbn [span]. destruct (p d).
  - destruct (span p s) as [taken remaining] eqn:E. intros [= <- ->].
    by rewrite (IH taken eq_refl).
  - by intros [= <- <- <-].
Qed.

Lemma span_app_end (p : ascii -> bool) s more t :
  span p s = (more, "") -> span p (s +:+ t) = (more +:+ (span p t).1, (span p t).2).
Proof.
  revert more. induction s as [|d s IH]; intros more.
  - intros [= <-]. rewrite !app_empty_l. by destruct (span p t).
  - rewrite app_cons. cbn [span]. destruct (p d); [|done].
    destruct (span p s) as [taken remaining] eqn:E. intros [= <- ->].
    by rewrite (IH taken eq_refl).
Qed.

Lemma not_bracket_no_match c s : c <> "["%char -> match_token (String c s) = None.
Proof. intros Hc. unfold match_token. by destruct c as [[] [] [] [] [] [] [] []]. Qed.

(** [match_token] by its stages. *)
Lemma match_token_stages s1 :
  match_token (String "[" s1)
  = let '(flag, s3) := take_flag (skip_spaces s1) in
    match take_name s3 with
    | Some (name, rest) => Some (flag, name, rest)
    | None => None
    end.
Proof.
  unfold match_token, take_flag, take_name.
  change (match "["%char with "["%char => ?a | _ => _ end) with a.
  cbv zeta.
  destruct (match skip_spaces s1 with
            | "" => ("", skip_spaces s1)
            | String c r =>
                if Ascii.eqb c "!" || Ascii.eqb c "/" then (String c "", r)
                else ("", skip_spaces s1)
            end) as [flag s3].
  destruct (skip_spaces s3) as [|c r]; [done|].
  destruct (is_name_start c); [|done].
  destruct (span is_name_char r) as [more s5].
  destruct (skip_spaces s5) as [|c6 rest]; [done|].
  destruct (Ascii.eqb_spec c6 "]") as [->|Hne]; [done|].
  by destruct c6 as [[] [] [] [] [] [] [] []].
Qed.

(** A failed match stays failed when an opening bracket follows. *)
Lemma take_name_app_none s t : take_name s = None -> take_name (s +:+ String "[" t) = None.
Proof.
  unfold take_name.
  destruct (skip_spaces s) as [|c r] eqn:Es.
  - intros _. by rewrite (skip_spaces_app_empty s _ Es).
  - rewrite (skip_spaces_app_cons s c r _ Es).
    destruct (is_name_start c); [|done].
    destruct (span is_name_char r) as [more [|d s5]] eqn:Er.
    + intros _. rewrite (span_app_end _ _ _ _ Er). by cbn.
    + rewrite (span_app_stop _ _ _ _ _ _ Er).
      destruct (skip_spaces (String d s5)) as [|c6 rest] eqn:E5.
      * intros _. by rewrite (skip_spaces_app_empty _ _ E5).
      * rewrite (skip_spaces_app_cons _ _ _ _ E5). by destruct (Ascii.eqb c6 "]").
Qed.

(** A match does not look past its closing bracket. *)
Lemma take_name_app_some s name rest t :
  take_name s = Some (name, rest) -> take_name (s +:+ t) = Some (name, rest +:+ t).
Proof.
  unfold take_name.
  destruct (skip_spaces s) as [|c r] eqn:Es; [done|].
  rewrite (skip_spaces_app_cons s c r _ Es).
  destruct (is_name_start c); [|done].
  destruct (span is_name_char r) as [more [|d s5]] eqn:Er; [done|].
  rewrite (span_app_stop _ _ _ _ _ _ Er).
  destruct (skip_spaces (String d s5)) as [|c6 rest'] eqn:E5; [done|].
  rewrite (skip_spaces_app_cons _ _ _ _ E5).
  destruct (Ascii.eqb c6 "]"); [|done]. by intros [= <- <-].
Qed.

Lemma span_chars (p : ascii -> bool) s : all_chars p (span p s).1 = true.
Proof.
  induction s as [|c s IH]; [done|]. cbn [span].
  destruct (p c) eqn:E; [|done]. destruct (span p s) as [taken remaining].
  cbn [fst all_chars] in *. by rewrite E, IH.
Qed.

Lemma take_name_valid s name rest : take_name s = Some (name, rest) -> valid_name name.
Proof.
  unfold take_name.
  destruct (skip_spaces s) as [|c r]; [done|].
  destruct (is_name_start c) eqn:Ec; [|done].
  pose proof (span_chars is_name_char r) as Hmore.
  destruct (span is_name_char r) as [more s5].
  destruct (skip_spaces s5) as [|c6 rest']; [done|].
  destruct (Ascii.eqb c6 "]"); [|done]. by intros [= <- <-].
Qed.

Lemma name_start_facts c :
  is_name_start c = true ->
  is_space c = false /\ Ascii.eqb c "!" || Ascii.eqb c "/" = false.
Proof. destruct c as [[] [] [] [] [] [] [] []]; by intros. Qed.

(** A name and a closing bracket are read back. *)
Lemma take_name_text name t : valid_name name -> take_name (name +:+ String "]" t) = Some (name, t).
Proof.
  destruct name as [|c more]; [done|]. intros [Hc Hmore].
  unfold take_name. rewrite app_cons. cbn [skip_spaces].
  destruct (name_start_facts c Hc) as [-> _]. rewrite Hc.
  rewrite (span_all is_name_char more _ Hmore).
  rewrite (span_stop is_name_char "]" t) by done. cbn [fst snd].
  by rewrite app_empty_r.
Qed.

Lemma match_token_flag_valid s flag name rest :
  match_token s = Some (flag, name, rest) -> valid_flag flag /\ valid_name name.
Proof.
  destruct s as [|c0 s1]; [done|].
  destruct (Ascii.eqb_spec c0 "[") as [->|Hc0]; [|by rewrite not_bracket_no_match].
  rewrite match_token_stages.
  assert (Hflag : valid_flag (take_flag (skip_spaces s1)).1).
  { unfold take_flag, valid_flag. destruct (skip_spaces s1) as [|c r]; [by left|].
    destruct (Ascii.eqb_spec c "!") as [->|_]; [right; by left|].
    destruct (Ascii.eqb_spec c "/") as [->|_]; [right; by right|by left]. }
  destruct (take_flag (skip_spaces s1)) as [f s3]. cbn [fst] in Hflag.
  destruct (take_name s3) as [[n r]|] eqn:E; [|done].
  intros [= <- <- <-]. split; [done|]. by eapply take_name_valid.
Qed.

(** A match at the head of a text is a match at the head of every
    extension of the text. *)
Lemma match_token_app_some s flag name rest t :
  match_token s = Some (flag, name, rest) ->
  match_token (s +:+ t) = Some (flag, name, rest +:+ t).
Proof.
  destruct s as [|c0 s1]; [done|].
  destruct (Ascii.eqb_spec c0 "[") as [->|Hc0]; [|by rewrite not_bracket_no_match].
  rewrite app_cons, !match_token_stages.
  destruct (skip_spaces s1) as [|c r] eqn:E1.
  - by cbn.
  - rewrite (skip_spaces_app_cons s1 c r t E1). unfold take_flag.
    destruct (Ascii.eqb c "!" || Ascii.eqb c "/").
    + destruct (take_name r) as [[n r']|] eqn:E; [|done].
      intros [= <- <- <-]. by rewrite (take_name_app_some r n r' t E).
    + destruct (take_name (String c r)) as [[n r']|] eqn:E; [|done].
      intros [= <- <- <-].
      change (String c (r +:+ t)) with (String c r +:+ t).
      by rewrite (take_name_app_some _ n r' t E).
Qed.

(** No match at the head of a text, then none either when an opening
    bracket follows the text. *)
Lemma match_token_app_none s t :
  s <> "" -> match_token s = None -> match_token (s +:+ String "[" t) = None.
Proof.
  destruct s as [|c0 s1]; [done|]. intros _.
  destruct (Ascii.eqb_spec c0 "[") as [->|Hc0]; [|intros _; by apply not_bracket_no_match].
  rewrite app_cons, !match_token_stages.
  destruct (skip_spaces s1) as [|c r] eqn:E1.
  - intros _. by rewrite (skip_spaces_app_empty s1 _ E1).
  - rewrite (skip_spaces_app_cons s1 c r _ E1). unfold take_flag.
    destruct (Ascii.eqb c "!" || Ascii.eqb c "/").
    + destruct (take_name r) as [[n r']|] eqn:E; [done|].
      intros _. by rewrite (take_name_app_none r t E).
    + destruct (take_name (String c r)) as [[n r']|] eqn:E; [done|].
      intros _. change (String c (r +:+ String "[" t)) with (String c r +:+ String "[" t).
      by rewrite (take_name_app_none _ t E).
Qed.

Lemma token_text_app flag name t :
  token_text (Token flag name) +:+ t = String "[" (flag +:+ (name +:+ String "]" t)).
Proof.
  unfold token_text, settings_start, settings_end.
  rewrite !app_assoc_string. reflexivity.
Qed.

(** A token written back is matched as that token. *)
Lemma match_token_text flag name t :
  valid_flag flag -> valid_name name ->
  match_token (token_text (Token flag name) +:+ t) = Some (flag, name, t).
Proof.
  intros Hflag Hname. rewrite token_text_app, match_token_stages.
  pose proof (take_name_text name t Hname) as Htake.
  destruct name as [|c more]; [done|]. destruct Hname as [Hc Hmore].
  destruct (name_start_facts c Hc) as [Hsp Hfl].
  rewrite app_cons in Htake.
  destruct Hflag as [-> | [-> | ->]].
  - rewrite app_empty_l, app_cons. cbn [skip_spaces]. rewrite Hsp.
    unfold take_flag. rewrite Hfl. by rewrite Htake.
  - rewrite app_cons, app_empty_l, app_cons.
    change (skip_spaces (String "!" ?x)) with (String "!" x).
    change (take_flag (String "!" ?x)) with ("!", x). cbv beta iota. by rewrite Htake.
  - rewrite app_cons, app_empty_l, app_cons.
    change (skip_spaces (String "/" ?x)) with (String "/" x).
    change (take_flag (String "/" ?x)) with ("/", x). cbv beta iota. by rewrite Htake.
Qed.

Lemma exec_prefix s before flag name rest :
  exec s = Some (before, flag, name, rest) -> exists t, s = before +:+ t.
Proof.
  revert before. induction s as [|c s IH]; intros before; cbn [exec].
  - done.
  - destruct (match_token (String c s)) as [[[f n] r]|].
    + intros [= <- <- <- <-]. by eexists.
    + destruct (exec s) as [[[[b f] n] r]|]; [|done].
      intros [= <- <- <- <-]. destruct (IH b eq_refl) as [t ->]. by exists t.
Qed.

(** The text before the leftmost match holds no match. *)
Lemma exec_before s before flag name rest :
  exec s = Some (before, flag, name, rest) -> exec before = None.
Proof.
  revert before. induction s as [|c s IH]; intros before; cbn [exec]; [done|].
  destruct (match_token (String c s)) as [[[f n] r]|] eqn:Em.
  - by intros [= <- <- <- <-].
  - destruct (exec s) as [[[[b f] n] r]|] eqn:Ee; [|done].
    intros [= <- <- <- <-]. cbn [exec]. rewrite (IH b eq_refl).
    destruct (match_token (String c b)) as [[[f' n'] r']|] eqn:Em'; [|done].
    destruct (exec_prefix s b f n r Ee) as [t ->].
    apply (match_token_app_some _ _ _ _ t) in Em'.
    rewrite app_cons in Em'. congruence.
Qed.

(** A text without a match, then a text that starts with a match. *)
Lemma exec_app s t flag name rest :
  exec s = None -> match_token (String "[" t) = Some (flag, name, rest) ->
  exec (s +:+ String "[" t) = Some (s, flag, name, rest).
Proof.
  intros Hs Ht. induction s as [|c s IH].
  - rewrite app_empty_l. cbn [exec]. by rewrite Ht.
  - cbn [exec] in Hs.
    destruct (match_token (String c s)) as [[[f n] r]|] eqn:Em; [done|].
    destruct (exec s) as [[[[b f] n] r]|] eqn:Ee; [done|].
    rewrite app_cons. cbn [exec]. rewrite <- app_cons.
    rewrite match_token_app_none by done.
    by rewrite (IH eq_refl).
Qed.

Lemma exec_valid s before flag name rest :
  exec s = Some (before, flag, name, rest) -> valid_flag flag /\ valid_name name.
Proof.
  revert before. induction s as [|c s IH]; intros before; cbn [exec]; [done|].
  destruct (match_token (String c s)) as [[[f n] r]|] eqn:Em.
  - intros [= <- <- <- <-]. by eapply match_token_flag_valid.
  - destruct (exec s) as [[[[b f] n] r]|] eqn:Ee; [|done].
    intros [= <- <- <- <-]. by eapply IH.
Qed.

(** What the loop makes is made of such segments. *)
Lemma tokenize_loop_tokenized fuel s : tokenized (tokenize_loop fuel s).
Proof.
  revert s. induction fuel as [|fuel IH]; intros s; [done|]. cbn [tokenize_loop].
  destruct (exec s) as [[[[before flag] name] rest]|] eqn:Ee.
  - destruct (exec_valid _ _ _ _ _ Ee) as [Hf Hn].
    pose proof (exec_before _ _ _ _ _ Ee) as Hb.
    destruct before as [|c b]; cbn [app tokenized]; [done|].
    split; [done|]. split; [done|]. split; [done|]. done.
  - destruct s as [|c s']; [done|]. cbn [tokenized]. done.
Qed.

Lemma tokenize_loop_token fuel flag name t :
  valid_flag flag -> valid_name name ->
  tokenize_loop (S fuel) (token_text (Token flag name) +:+ t)
  = Token flag name :: tokenize_loop fuel t.
Proof.
  intros Hf Hn. cbn [tokenize_loop].
  assert (He : exec (token_text (Token flag name) +:+ t) = Some ("", flag, name, t)).
  { pose proof (match_token_text flag name t Hf Hn) as Hm.
    rewrite token_text_app in *. cbn [exec]. by rewrite Hm. }
  by rewrite He.
Qed.

Lemma tokenize_loop_static fuel text flag name t :
  text <> "" -> exec text = None -> valid_flag flag -> valid_name name ->
  tokenize_loop (S fuel) (text +:+ token_text (Token flag name) +:+ t)
  = Static text :: Token flag name :: tokenize_loop fuel t.
Proof.
  intros Hne Hnone Hf Hn. cbn [tokenize_loop].
  assert (He : exec (text +:+ token_text (Token flag name) +:+ t)
               = Some (text, flag, name, t)).
  { pose proof (match_token_text flag name t Hf Hn) as Hm.
    rewrite token_text_app in *. by apply exec_app. }
  rewrite He. by destruct text.
Qed.

(** Segments of the tokenizer, written back as text and tokenized again,
    are the same segments. *)
Lemma tokenize_loop_inner l : forall fuel,
  tokenized l -> String.length (inner_template l) < fuel ->
  tokenize_loop fuel (inner_template l) = l.
Proof.
  induction l as [|tok rest IH]; intros fuel Hl Hfuel.
  - destruct fuel; [cbn in Hfuel; lia|done].
  - destruct fuel as [|fuel]; [lia|].
    cbn [inner_template fold_right] in *. fold (inner_template rest) in *.
    rewrite length_app in Hfuel.
    destruct tok as [text|flag name].
    + destruct Hl as (Hne & Hnone & Hnext & Hrest).
      destruct rest as [|[text'|flag name] rest']; [|done|].
      * cbn [inner_template fold_right token_text]. rewrite app_empty_r.
        cbn [tokenize_loop]. rewrite Hnone. by destruct text.
      * cbn [token_text] in *. destruct Hrest as (Hf & Hn & Hrest').
        cbn [inner_template fold_right] in *. fold (inner_template rest') in *.
        rewrite length_app in Hfuel.
        rewrite tokenize_loop_static by done. f_equal.
        assert (Hlen : 1 <= String.length text) by (destruct text; [done|cbn; lia]).
        specialize (IH (S fuel) (conj Hf (conj Hn Hrest'))).
        rewrite tokenize_loop_token in IH by done.
        rewrite length_app in IH.
        pose proof (token_text_length flag name) as Htext.
        assert (Hcut : tokenize_loop fuel (inner_template rest')
                       = tokenize_loop (S fuel) (inner_template rest'))
          by (apply tokenize_loop_fuel; lia).
        rewrite Hcut.
        assert (Hrest2 : Token flag name :: tokenize_loop fuel (inner_template rest')
                         = Token flag name :: rest') by (apply IH; lia).
        injection Hrest2 as Hrest2. by rewrite <- Hcut, Hrest2.
    + destruct Hl as (Hf & Hn & Hrest).
      rewrite tokenize_loop_token by done. f_equal. apply IH; [done|].
      pose proof (token_text_length flag name). lia.
Qed.

Lemma tokenized_app (l1 l2 : list token) :
  tokenized (l1 ++ l2) -> tokenized l1 /\ tokenized l2.
Proof.
  induction l1 as [|tok rest IH]; [done|]. rewrite <- app_comm_cons.
  destruct tok as [text|flag name]; cbn [tokenized].
  - intros (Hne & Hnone & Hnext & Hrest). destruct (IH Hrest) as [H1 H2].
    split; [|done]. split; [done|]. split; [done|]. split; [|done].
    by destruct rest.
  - intros (Hf & Hn & Hrest). destruct (IH Hrest) as [H1 H2]. done.
Qed.
End Rewritten.

(** X29.  Any run of consecutive segments of a tokenized template, written
    back as text the way [substitute] writes the inside of a block, is
    tokenized into the same segments again.  So the recursive render of a
    block works on the segments between its opening and closing token, and
    a template written back from all its segments tokenizes as before. *)
Theorem inner_template_tokenizes_back (template : string) (pre inner post : list token) :
  tokenizeTemplate template = pre ++ inner ++ post ->
  tokenizeTemplate (inner_template inner) = inner.
Proof.
  intros Hsplit.
  assert (Hall : tokenized (pre ++ inner ++ post)).
  { rewrite <- Hsplit. apply tokenize_loop_tokenized. }
  apply tokenized_app in Hall as [_ Hall]. apply tokenized_app in Hall as [Hinner _].
  apply tokenize_loop_inner; [done|lia].
Qed.

(** The inside of the block of the iteration example. *)
Lemma inner_template_tokenizes_back_witness :
  tokenizeTemplate
    (inner_template [Static "<li>"; Token "" "_value.name"; Static "</li>"])
  = [Static "<li>"; Token "" "_value.name"; Static "</li>"].
Proof.
  apply (inner_template_tokenizes_back items_template [Token "" "items"]
           [Static "<li>"; Token "" "_value.name"; Static "</li>"] [Token "/" "items"]).
  vm_compute. reflexivity.
Defined.

Import Plain.

(** * Rendering plain data *)
Section PlainData.
Implicit Types (v data : value) (st : state) (key : string).

Lemma no_throw_ret {A} (a : A) : no_throw (ret a).
Proof. by intros st e st'. Qed.

Lemma no_throw_bind {A B} (m : M A) (k : A -> M B) :
  no_throw m -> (forall a, no_throw (k a)) -> no_throw (bind m k).
Proof.
  intros Hm Hk st e st'. unfold bind. specialize (Hm st).
  destruct (m st) as [[a|e0|] st0]; [apply Hk|by destruct (Hm e0 st0)|done].
Qed.

Lemma no_throw_lift {A} (a : A) : no_throw (lift (Returns a)).
Proof. by intros st e st'. Qed.

Lemma no_throw_getTokens template : no_throw (getTokens template).
Proof. intros st e st'. unfold getTokens. by destruct (tokenCache st !! template). Qed.

Lemma no_throw_register loopData : no_throw (register_context loopData).
Proof. by intros st e st'. Qed.

Lemma to_string_printable v : printable v = true -> exists s, to_string v = Returns s.
Proof.
  revert v. fix IH 1. intros [| |b|n|s|items|props]; cbn [printable to_string]; eauto.
  - intros Hitems.
    assert (Hel : exists ss,
              (fix elements (l : list value) : outcome (list string) :=
                 match l with
                 | [] => Returns []
                 | x :: rest =>
                     outcome_bind
                       match x with
                       | VUndefined => Returns ""
                       | VNull => Returns ""
                       | _ => to_string x
                       end
                       (fun s => outcome_bind (elements rest) (fun ss => Returns (s :: ss)))
                 end) items = Returns ss).
    { induction items as [|x rest IHrest]; [by eexists|].
      cbn [forallb] in Hitems. apply andb_prop in Hitems as [Hx Hrest].
      destruct (IHrest Hrest) as [ss Hss]. destruct (IH x Hx) as [s Hs].
      rewrite Hss. destruct x; cbn [outcome_bind]; try (by eexists).
      all: rewrite Hs; by eexists. }
    destruct Hel as [ss ->]. by eexists.
  - intros [[Hts _]%andb_prop _]%andb_prop. apply negb_true_iff in Hts. rewrite Hts. eauto.
Qed.

Lemma assoc_printable key (props : list (string * value)) v :
  forallb (fun p => printable p.2) props = true ->
  assoc key props = Some v -> printable v = true.
Proof.
  induction props as [|[k w] rest IH]; cbn [assoc forallb]; [done|].
  intros [Hw Hrest]%andb_prop.
  destruct (String.eqb k key); [by intros [= <-]|by apply IH].
Qed.

Lemma get_own_printable v key : printable v = true -> printable (get_own v key) = true.
Proof.
  destruct v as [| |b|n|s|items|props]; cbn [printable get_own]; try done.
  - intros _. destruct (String.eqb key "length"); [done|].
    destruct (array_index key) as [i|]; [|done]. by destruct (string_chars s !! i).
  - intros Hitems. destruct (String.eqb key "length"); [done|].
    destruct (array_index key) as [i|]; [|done].
    destruct (items !! i) as [x|] eqn:E; [|done].
    rewrite forallb_forall in Hitems. apply Hitems, list_elem_of_In.
    by eapply list_elem_of_lookup_2.
  - intros [_ Hprops]%andb_prop.
    destruct (assoc key props) as [x|] eqn:E; [|done]. by eapply assoc_printable.
Qed.

Lemma descend_printable path v v' :
  printable v = true -> descend path v = Some v' -> printable v' = true.
Proof.
  revert v. induction path as [|segment rest IH]; intros v Hv; cbn [descend].
  - by intros [= <-].
  - destruct (hasOwnProperty_call v segment) as [[|]|e]; [|done|done].
    apply IH. by apply get_own_printable.
Qed.

Lemma resolve_descend name data template :
  resolve default_filters name data template
  = match descend (split_on "." name) data with
    | Some VUndefined => VStr ""
    | Some v => v
    | None => VStr ""
    end.
Proof.
  unfold resolve. rewrite applyFilter_default_token.
  destruct (descend (split_on "." name) data) as [v|] eqn:E.
  - rewrite (token_lookup_descend _ _ _ E). by destruct v.
  - by destruct (token_lookup_no_path _ _ E) as [->|[e ->]].
Qed.

Lemma resolve_printable name data template :
  printable data = true -> printable (resolve default_filters name data template) = true.
Proof.
  intros Hd. rewrite resolve_descend.
  destruct (descend (split_on "." name) data) as [v|] eqn:E; [|done].
  pose proof (descend_printable _ _ _ Hd E). by destruct v.
Qed.

Lemma has_key_elem_of {A} key (props : list (string * A)) :
  has_key key props = true <-> key ∈ props.*1.
Proof.
  unfold has_key. induction props as [|[k w] rest IH]; cbn [assoc fmap list_fmap fst].
  - split; [done|by intros ?%elem_of_nil].
  - destruct (String.eqb k key) eqn:E.
    + apply String.eqb_eq in E. subst k. split; [by left|done].
    + rewrite IH. split; [by right|].
      intros [->|?]%elem_of_cons; [by rewrite String.eqb_refl in E|done].
Qed.

Lemma index_keys_digits len key :
  key ∈ index_keys len -> all_chars is_digit key = true.
Proof.
  unfold index_keys. intros (i & -> & _)%list_elem_of_fmap.
  unfold pretty, pretty_nat, pretty, pretty_N. case_decide; [done|apply pretty_N_go_digits].
Qed.

(** A printable value has no own enumerable key of those two names. *)
Lemma printable_keys v name :
  name = "toString" \/ name = "hasOwnProperty" ->
  printable v = true -> name ∉ own_enumerable_keys v.
Proof.
  intros Hname Hv Hin.
  assert (Hd : all_chars is_digit name = false) by (by destruct Hname as [-> | ->]).
  destruct v as [| |b|n|s|items|props]; cbn [own_enumerable_keys] in Hin;
    try (by apply elem_of_nil in Hin).
  - apply index_keys_digits in Hin. congruence.
  - apply index_keys_digits in Hin. congruence.
  - cbn [printable] in Hv. apply andb_prop in Hv as [[Hts Hhop]%andb_prop _].
    apply has_key_elem_of in Hin. apply negb_true_iff in Hts, Hhop.
    destruct Hname as [-> | ->]; congruence.
Qed.

Lemma assoc_set_printable key v (props : list (string * value)) :
  printable v = true -> forallb (fun p => printable p.2) props = true ->
  forallb (fun p => printable p.2) (assoc_set key v props) = true.
Proof.
  intros Hv. induction props as [|[k w] rest IH]; cbn [assoc_set forallb snd].
  - by rewrite Hv.
  - intros [Hw Hrest]%andb_prop. destruct (String.eqb k key); cbn [forallb snd].
    + by rewrite Hv, Hrest.
    + by rewrite Hw, IH.
Qed.

Lemma object_assign_printable (target : list (string * value)) source :
  printable source = true -> forallb (fun p => printable p.2) target = true ->
  forallb (fun p => printable p.2) (object_assign target source) = true.
Proof.
  intros Hs. unfold object_assign. generalize (own_enumerable_keys source). intros keys.
  revert target. induction keys as [|k keys IH]; intros target Ht; [done|].
  cbn [fold_left]. apply IH. apply assoc_set_printable; [by apply get_own_printable|done].
Qed.

Lemma object_assign_has_key (target : list (string * value)) source name :
  has_key name (object_assign target source)
  = bool_decide (name ∈ own_enumerable_keys source) || has_key name target.
Proof.
  unfold has_key, object_assign. rewrite object_assign_keys. by case_bool_decide.
Qed.

Lemma loop_data_printable v key : printable v = true -> printable (loop_data v key) = true.
Proof.
  intros Hv. pose proof (get_own_printable v key Hv) as He.
  unfold loop_data. cbn [printable].
  rewrite !object_assign_has_key. cbn [own_enumerable_keys fmap list_fmap fst has_key assoc].
  rewrite !(bool_decide_eq_false_2 (_ ∈ own_enumerable_keys (get_own v key)))
    by (apply printable_keys; [|done]; auto).
  rewrite !bool_decide_eq_false_2
    by (intros [?|[?|?%elem_of_nil]%elem_of_cons]%elem_of_cons; done).
  cbn [orb negb andb].
  apply object_assign_printable; [by cbn [printable forallb snd]; rewrite He|].
  by apply object_assign_printable.
Qed.

Lemma hasOwnProperty_method_printable v key :
  printable v = true -> key ∈ own_enumerable_keys v ->
  exists own, hasOwnProperty_method v key = Returns own.
Proof.
  intros Hv Hin.
  destruct v as [| |b|n|s|items|props]; cbn [own_enumerable_keys] in Hin;
    try (by apply elem_of_nil in Hin); cbn [hasOwnProperty_method hasOwnProperty_call]; eauto.
  cbn [printable] in Hv. apply andb_prop in Hv as [[_ Hhop]%andb_prop _].
  apply negb_true_iff in Hhop. rewrite Hhop. eauto.
Qed.

Section Blocks.
Variable substitute_inner : string -> value -> M string.
Hypothesis inner_no_throw :
  forall innerTemplate data, printable data = true -> no_throw (substitute_inner innerTemplate data).

Lemma no_throw_render_entries innerTemplate substituted keys :
  printable substituted = true ->
  (forall key, key ∈ keys -> key ∈ own_enumerable_keys substituted) ->
  no_throw (render_entries substitute_inner innerTemplate substituted keys).
Proof.
  intros Hs. induction keys as [|key rest IH]; intros Hkeys; cbn [render_entries];
    [apply no_throw_ret|].
  apply no_throw_bind.
  - unfold render_entry.
    destruct (hasOwnProperty_method_printable substituted key Hs) as [own ->];
      [apply Hkeys; by left|].
    apply no_throw_bind; [apply no_throw_lift|]. intros [|]; [|apply no_throw_ret].
    apply no_throw_bind; [by apply inner_no_throw, loop_data_printable|]. intros rendered.
    apply no_throw_bind; [apply no_throw_register|]. intros uniqueId. apply no_throw_ret.
  - intros block. apply no_throw_bind; [|intros others; apply no_throw_ret].
    apply IH. intros k Hk. apply Hkeys. by right.
Qed.

Lemma no_throw_render_block innerTemplate substituted data :
  printable substituted = true -> printable data = true ->
  no_throw (render_block substitute_inner innerTemplate substituted data).
Proof.
  intros Hs Hd. unfold render_block.
  destruct (String.eqb (typeof substituted) "boolean").
  - destruct (truthy substituted); [by apply inner_no_throw|apply no_throw_ret].
  - destruct (String.eqb (typeof substituted) "object").
    + by apply no_throw_render_entries.
    + destruct (to_string_printable substituted Hs) as [s ->]. apply no_throw_lift.
Qed.
End Blocks.

Lemma no_throw_substitute_loop fuel template tokens data :
  printable data = true ->
  no_throw (substitute_loop fuel default_filters template tokens data).
Proof.
  revert template tokens data.
  induction fuel as [|fuel IH]; intros template tokens data Hd; cbn [substitute_loop];
    [by intros st e st'|].
  destruct tokens as [|[value|flag value] rest]; [apply no_throw_ret| |].
  - apply no_throw_bind; [by apply IH|]. intros out. apply no_throw_ret.
  - destruct (String.eqb flag "/"); [by apply IH|].
    pose proof (resolve_printable value data template Hd) as Hr.
    destruct (find_closing value rest) as [innerTokens [after|]].
    + apply no_throw_bind.
      * apply no_throw_render_block; [|done|done]. intros innerTemplate inner_data Hi.
        apply no_throw_bind; [apply no_throw_getTokens|]. intros inner. by apply IH.
      * intros block. apply no_throw_bind; [by apply IH|]. intros out. apply no_throw_ret.
    + destruct (to_string_printable _ Hr) as [s ->].
      apply no_throw_bind; [apply no_throw_lift|]. intros text.
      apply no_throw_bind; [by apply IH|]. intros out. apply no_throw_ret.
Qed.

Lemma no_throw_substitute template data :
  printable data = true -> no_throw (substitute default_filters template data).
Proof.
  intros Hd. unfold substitute, substitute_fuel.
  apply no_throw_bind; [apply no_throw_getTokens|]. intros tokens.
  by apply no_throw_substitute_loop.
Qed.
End PlainData.

(** X30.  With the registry as the module leaves it, rendering never throws
    on data in which no object has an own property named [toString] or
    [hasOwnProperty]: whatever the template, [substitute] returns markup. *)
Theorem substitute_never_throws (template : string) (data : value) (st : state) :
  cache_ok st -> printable data = true ->
  exists out st', substitute default_filters template data st = (Ok out, st').
Proof.
  intros Hc Hd.
  destruct (substitute_total default_filters template data st Hc) as [Hfuel _].
  pose proof (no_throw_substitute template data Hd st) as Hthrow.
  destruct (substitute default_filters template data st) as [[out|e|] st']; [eauto| |done].
  by destruct (Hthrow e st').
Qed.

(** The iteration example. *)
Lemma substitute_never_throws_witness :
  exists out st', substitute default_filters items_template items_data initial_state = (Ok out, st').
Proof.
  apply (substitute_never_throws items_template items_data initial_state).
  - intros template tokens H. cbn in H. rewrite lookup_empty in H. discriminate H.
  - vm_compute. reflexivity.
Defined.
